(** * pynng/nng.py: lifetimes of sockets, pipes and messages

    A shallow embedding of the object layer that [pynng/nng.py] puts over the
    nng engine: the exactly-once disposal of [Message] buffers, the pipe-event
    dispatcher [_nng_pipe_cb] with the per-socket pipe table, and the
    [Socket] life cycle ([__init__], [dial], [listen], [close]).

    Python objects that are shared and mutated live in a store ([World]); a
    method is a computation in a state-and-exception monad over that store.
    Calls into the engine ([lib.nng_*]) are recorded in a trace; the value a
    call returns is an explicit argument of the method that issues the call,
    so every statement below holds for every behaviour of the engine. *)

From Stdlib Require Import ZArith Lia.
From stdpp Require Import base option list gmap strings.

(** ** Exceptions *)

(** The exception classes the file raises or catches.  [NNGException code] is
    the exception [check_err] raises for a non-zero engine code.
    [KeyboardInterrupt] and [SystemExit] derive from [BaseException] only, so
    [except Exception] lets them through.  [DanglingReference] is no Python
    exception: it is what the model answers when a reference is followed
    that no object stands behind, which no Python state allows. *)
Inductive exn : Type :=
| KeyError
| ValueError
| TypeError
| AssertionError
| MessageStateError
| NNGException (code : Z)
| KeyboardInterrupt
| AttributeError
| SystemExit
| DanglingReference.

#[global] Instance exn_eq_dec : EqDecision exn.
Proof. solve_decision. Defined.

(** [isinstance(e, Exception)] *)
Definition is_Exception (e : exn) : bool :=
  match e with
  | KeyboardInterrupt | SystemExit | DanglingReference => false
  | _ => true
  end.

(** [isinstance(e, TypeError)]: of the classes above only [TypeError] itself;
    [ValueError] is its sibling under [Exception]. *)
Definition is_TypeError (e : exn) : bool :=
  match e with
  | TypeError => true
  | _ => false
  end.

(** ** Constants of the engine's C library

    [lib] is the cffi binding of nng; its constants and [nng_pipe_id] are not
    part of [nng.py], so they are fields of an interface. *)
Class NngLib : Type := {
  NNG_FLAG_NONBLOCK : Z;
  NNG_ECONNREFUSED : Z;
  nng_pipe_id : Z -> Z
}.

(** The event kinds of [nng_pipe_notify]; [NNG_PIPE_EV_OTHER] stands for any
    integer that is none of the three the dispatcher compares with. *)
Inductive nng_pipe_ev : Type :=
| NNG_PIPE_EV_ADD_PRE
| NNG_PIPE_EV_ADD_POST
| NNG_PIPE_EV_REM_POST
| NNG_PIPE_EV_OTHER (n : Z).

#[global] Instance nng_pipe_ev_eq_dec : EqDecision nng_pipe_ev.
Proof. solve_decision. Defined.

(** Calls into the engine, as they appear in the trace.  A call whose result
    the Python code inspects carries the returned code [rv]. *)
Inductive native_call : Type :=
| Nng_msg_free (msg : Z)
| Nng_sendmsg (sock msg flags rv : Z)
| Nng_aio_alloc (rv : Z)
| Nng_aio_set_msg (msg rv : Z)
| Nng_ctx_send (ctx rv : Z)
| Nng_aio_wait (rv : Z)
| Nng_aio_result (rv : Z)
| Nng_aio_free
| Nng_msg_set_pipe (msg rv : Z)
| Nng_pipe_close (pipe rv : Z)
| Nng_dial (sock : Z) (address : string) (flags rv : Z)
| Nng_listen (sock : Z) (address : string) (flags rv : Z)
| Nng_close (sock : Z)
| Nng_open (rv : Z)
| Nng_setopt (sock rv : Z)
| Nng_pipe_notify (sock : Z) (ev : nng_pipe_ev) (arg rv : Z).

#[global] Instance native_call_eq_dec : EqDecision native_call.
Proof. solve_decision. Defined.

(** ** The monad of methods: state, exceptions, and waiting on a lock *)

(** A method returns, raises, or never comes back because it waits for a
    lock that nobody releases ([Hang]). *)
Inductive outcome (A : Type) : Type :=
| Ok (a : A)
| Raise (e : exn)
| Hang.

Arguments Ok {A} a.
Arguments Raise {A} e.
Arguments Hang {A}.

Definition M (S A : Type) : Type := S -> outcome A * S.

Definition ret {S A} (a : A) : M S A := fun s => (Ok a, s).

Definition bind {S A B} (m : M S A) (k : A -> M S B) : M S B :=
  fun s =>
    match m s with
    | (Ok a, s') => k a s'
    | (Raise e, s') => (Raise e, s')
    | (Hang, s') => (Hang, s')
    end.

Definition raise {S A} (e : exn) : M S A := fun s => (Raise e, s).

Definition gets {S A} (f : S -> A) : M S A := fun s => (Ok (f s), s).

Definition modify {S} (f : S -> S) : M S unit := fun s => (Ok tt, f s).

Notation "x <~ m ;; k" := (bind m (fun x => k))
  (at level 100, m at next level, right associativity).
Notation "m ;;; k" := (bind m (fun _ => k))
  (at level 100, right associativity).

(** [try: body except <class>: handler]: [catches e] says whether [e] is an
    instance of the class named in the [except] clause. *)
Definition try_except {S A} (body : M S A) (catches : exn -> bool)
    (handler : exn -> M S A) : M S A :=
  fun s =>
    match body s with
    | (Raise e, s') => if catches e then handler e s' else (Raise e, s')
    | r => r
    end.

(** [try: body finally: cleanup].  The cleanup runs on return and on raise; an
    exception of the cleanup replaces the one of the body. *)
Definition try_finally {S A} (body : M S A) (cleanup : M S unit) : M S A :=
  fun s =>
    match body s with
    | (Hang, s') => (Hang, s')
    | (r, s') =>
        match cleanup s' with
        | (Ok _, s'') => (r, s'')
        | (Raise e, s'') => (Raise e, s'')
        | (Hang, s'') => (Hang, s'')
        end
    end.

(** [with lock: body] for a [threading.Lock] stored in the state: wait until
    the lock is free, take it, run the body, release it on every exit. *)
Definition with_lock {S A} (locked : S -> bool) (set_locked : bool -> S -> S)
    (body : M S A) : M S A :=
  fun s =>
    if locked s then (Hang, s)
    else
      match body (set_locked true s) with
      | (Hang, s') => (Hang, s')
      | (r, s') => (r, set_locked false s')
      end.

(** Modelled from the spec: [check_err] is defined in [pynng/exceptions.py],
    which is not part of this file.  It returns on the success code and raises
    the exception of the engine's error code otherwise ("the send call returns
    a nonzero error code", "generic NativeError(code) for all other
    engine-reported codes"). *)
Definition check_err {S} (err : Z) : M S unit :=
  if (err =? 0)%Z then ret tt else raise (NNGException err).

(** [except pynng.ConnectionRefused]: the class [check_err] raises for the
    engine's connection-refused code. *)
Definition is_ConnectionRefused `{NngLib} (e : exn) : bool :=
  match e with
  | NNGException code => (code =? NNG_ECONNREFUSED)%Z
  | _ => false
  end.

(** ** Message *)

(** A Python value, as far as [isinstance(value, Pipe)] tells values apart.
    [PyPipe r] is a reference to the [Pipe] object number [r]. *)
Inductive pyval : Type :=
| PyNone
| PyBool (b : bool)
| PyInt (n : Z)
| PyStr (s : string)
| PyBytes (b : list Z)
| PyPipe (r : nat).

Definition isinstance_Pipe (v : pyval) : bool :=
  match v with
  | PyPipe _ => true
  | _ => false
  end.

(** A [Message] object: the flag [_mem_freed], its lock (true when held), the
    native buffer and the associated pipe. *)
Record Message : Type := mkMessage {
  _mem_freed : bool;
  _mem_freed_lock : bool;
  _nng_msg : Z;
  _pipe : option nat
}.

(** The state a message method runs in: the object and the engine trace. *)
Record MsgSt : Type := mkMsgSt {
  msg : Message;
  msg_calls : list native_call
}.

Definition set_mem_freed (b : bool) (st : MsgSt) : MsgSt :=
  mkMsgSt (mkMessage b (_mem_freed_lock (msg st)) (_nng_msg (msg st)) (_pipe (msg st)))
          (msg_calls st).

Definition set_mem_freed_lock (b : bool) (st : MsgSt) : MsgSt :=
  mkMsgSt (mkMessage (_mem_freed (msg st)) b (_nng_msg (msg st)) (_pipe (msg st)))
          (msg_calls st).

Definition set_pipe (p : option nat) (st : MsgSt) : MsgSt :=
  mkMsgSt (mkMessage (_mem_freed (msg st)) (_mem_freed_lock (msg st)) (_nng_msg (msg st)) p)
          (msg_calls st).

(** A call into the engine: appended to the trace. *)
Definition msg_native (c : native_call) : M MsgSt unit :=
  modify (fun st => mkMsgSt (msg st) (msg_calls st ++ [c])).

(** [with msg._mem_freed_lock:] *)
Definition with_mem_freed_lock {A} (body : M MsgSt A) : M MsgSt A :=
  with_lock (fun st => _mem_freed_lock (msg st)) set_mem_freed_lock body.

(** [Message.__del__] *)
Definition Message___del__ : M MsgSt unit :=
  with_mem_freed_lock (
    freed <~ gets (fun st => _mem_freed (msg st)) ;;
    if freed then ret tt
    else
      h <~ gets (fun st => _nng_msg (msg st)) ;;
      msg_native (Nng_msg_free h) ;;;
      modify (set_mem_freed true)).

(** [Message__ensure_can_send]; the caller holds [_mem_freed_lock]. *)
Definition Message__ensure_can_send : M MsgSt unit :=
  locked <~ gets (fun st => _mem_freed_lock (msg st)) ;;
  if negb locked then raise AssertionError
  else
    freed <~ gets (fun st => _mem_freed (msg st)) ;;
    if freed then raise MessageStateError else ret tt.

(** The [Pipe] a value refers to, when it is one. *)
Definition pipe_of (v : pyval) : option nat :=
  match v with
  | PyPipe r => Some r
  | _ => None
  end.

(** The setter of the property [Message.pipe].  [rv] is what
    [lib.nng_msg_set_pipe] hands to [check_err]. *)
Definition Message_pipe_setter (pipe : pyval) (rv : Z) : M MsgSt unit :=
  if negb (isinstance_Pipe pipe) then raise ValueError
  else
    h <~ gets (fun st => _nng_msg (msg st)) ;;
    msg_native (Nng_msg_set_pipe h rv) ;;;
    check_err rv ;;;
    modify (set_pipe (pipe_of pipe)).

(** [Socket.send_msg(msg, block)] on the socket with native handle [sock];
    [rv] is the code [lib.nng_sendmsg] returns. *)
Definition Socket_send_msg `{NngLib} (sock : Z) (block : bool) (rv : Z) : M MsgSt unit :=
  let flags := 0%Z in
  let flags := if negb block then Z.lor flags NNG_FLAG_NONBLOCK else flags in
  with_mem_freed_lock (
    Message__ensure_can_send ;;;
    h <~ gets (fun st => _nng_msg (msg st)) ;;
    msg_native (Nng_sendmsg sock h flags rv) ;;;
    check_err rv ;;;
    modify (set_mem_freed true)).

(** [Socket.asend_msg(msg)].  [_aio.AIOHelper] is not part of this file: the
    whole [with _aio.AIOHelper(...) as aio: return await aio.asend_msg(msg)]
    block is the parameter [aio_asend_msg]. *)
Definition Socket_asend_msg (aio_asend_msg : M MsgSt unit) : M MsgSt unit :=
  with_mem_freed_lock (
    Message__ensure_can_send ;;;
    aio_asend_msg).

(** [Context.send_msg(msg)] on the context with native handle [ctx]; the five
    codes are what the five checked engine calls return. *)
Definition Context_send_msg (ctx : Z) (r_alloc r_set r_send r_wait r_result : Z) : M MsgSt unit :=
  with_mem_freed_lock (
    Message__ensure_can_send ;;;
    msg_native (Nng_aio_alloc r_alloc) ;;;
    check_err r_alloc ;;;
    try_finally (
      h <~ gets (fun st => _nng_msg (msg st)) ;;
      msg_native (Nng_aio_set_msg h r_set) ;;;
      check_err r_set ;;;
      msg_native (Nng_ctx_send ctx r_send) ;;;
      check_err r_send ;;;
      modify (set_mem_freed true) ;;;
      msg_native (Nng_aio_wait r_wait) ;;;
      check_err r_wait ;;;
      msg_native (Nng_aio_result r_result) ;;;
      check_err r_result)
    (msg_native Nng_aio_free)).

(** [Context.asend_msg(msg)], with the same parameter as [Socket.asend_msg]. *)
Definition Context_asend_msg (aio_asend_msg : M MsgSt unit) : M MsgSt unit :=
  with_mem_freed_lock (
    Message__ensure_can_send ;;;
    aio_asend_msg).

(** ** Threads that share one Message

    Each method above runs its body under [_mem_freed_lock].  To speak about
    threads that run methods on the same message at the same time, a method
    is also given as the sequence of its atomic steps; a scheduler picks
    which thread takes the next step. *)

(** One atomic step of a method body. *)
Inductive instr : Type :=
| IAcquire                          (* enter [with msg._mem_freed_lock:] *)
| IRelease                          (* leave it *)
| IIfFreedReturn                    (* [if self._mem_freed: return] *)
| IEnsureCanSend                    (* [msg._ensure_can_send()] *)
| ISetFreed                         (* [_mem_freed = True] *)
| IMsgFree                          (* [lib.nng_msg_free(self._nng_msg)] *)
| ISendmsg (sock flags rv : Z)      (* [check_err(lib.nng_sendmsg(...))] *)
| IAioAlloc (rv : Z)                (* [check_err(lib.nng_aio_alloc(...))] *)
| ITry                              (* enter [try:] *)
| IAioSetMsg (rv : Z)               (* [check_err(lib.nng_aio_set_msg(...))] *)
| ICtxSend (ctx rv : Z)             (* [check_err(lib.nng_ctx_send(...))] *)
| IAioWait (rv : Z)                 (* [check_err(lib.nng_aio_wait(aio))] *)
| IAioResult (rv : Z)               (* [check_err(lib.nng_aio_result(aio))] *)
| IFinallyAioFree.                  (* [finally: lib.nng_aio_free(aio)] *)

#[global] Instance instr_eq_dec : EqDecision instr.
Proof. solve_decision. Defined.

(** The methods a thread may run on the message. *)
Inductive msg_op : Type :=
| OpDel
| OpSocketSend (sock : Z) (block : bool) (rv : Z)
| OpContextSend (ctx r_alloc r_set r_send r_wait r_result : Z).

(** The steps of [Message.__del__], [Socket.send_msg] and [Context.send_msg],
    in source order. *)
Definition program `{NngLib} (op : msg_op) : list instr :=
  match op with
  | OpDel =>
      [IAcquire; IIfFreedReturn; IMsgFree; ISetFreed; IRelease]
  | OpSocketSend sock block rv =>
      let flags := 0%Z in
      let flags := if negb block then Z.lor flags NNG_FLAG_NONBLOCK else flags in
      [IAcquire; IEnsureCanSend; ISendmsg sock flags rv; ISetFreed; IRelease]
  | OpContextSend ctx r_alloc r_set r_send r_wait r_result =>
      [IAcquire; IEnsureCanSend; IAioAlloc r_alloc; ITry; IAioSetMsg r_set;
       ICtxSend ctx r_send; ISetFreed; IAioWait r_wait; IAioResult r_result;
       IFinallyAioFree; IRelease]
  end.

(** Where control goes when a step raises or returns: to the [finally] of the
    innermost [try] already entered, else to the exit of the [with] block.
    [depth] counts the [try] blocks skipped over. *)
Fixpoint unwind (depth : nat) (code : list instr) : list instr :=
  match code with
  | [] => []
  | IRelease :: _ => code
  | ITry :: k => unwind (S depth) k
  | IFinallyAioFree :: k =>
      match depth with
      | O => code
      | S d => unwind d k
      end
  | _ :: k => unwind depth k
  end.

(** What one step does to the message; [Ok false] is a [return]. *)
Definition exec_instr (i : instr) : M MsgSt bool :=
  match i with
  | IAcquire => ret true
  | IRelease => modify (set_mem_freed_lock false) ;;; ret true
  | IIfFreedReturn =>
      freed <~ gets (fun st => _mem_freed (msg st)) ;;
      ret (negb freed)
  | IEnsureCanSend => Message__ensure_can_send ;;; ret true
  | ISetFreed => modify (set_mem_freed true) ;;; ret true
  | IMsgFree =>
      h <~ gets (fun st => _nng_msg (msg st)) ;;
      msg_native (Nng_msg_free h) ;;; ret true
  | ISendmsg sock flags rv =>
      h <~ gets (fun st => _nng_msg (msg st)) ;;
      msg_native (Nng_sendmsg sock h flags rv) ;;; check_err rv ;;; ret true
  | IAioAlloc rv => msg_native (Nng_aio_alloc rv) ;;; check_err rv ;;; ret true
  | ITry => ret true
  | IAioSetMsg rv =>
      h <~ gets (fun st => _nng_msg (msg st)) ;;
      msg_native (Nng_aio_set_msg h rv) ;;; check_err rv ;;; ret true
  | ICtxSend ctx rv => msg_native (Nng_ctx_send ctx rv) ;;; check_err rv ;;; ret true
  | IAioWait rv => msg_native (Nng_aio_wait rv) ;;; check_err rv ;;; ret true
  | IAioResult rv => msg_native (Nng_aio_result rv) ;;; check_err rv ;;; ret true
  | IFinallyAioFree => msg_native Nng_aio_free ;;; ret true
  end.

(** A thread: the steps it still has to take and the exception it is
    propagating, if any.  With no steps left, the method has returned
    ([th_exc = None]) or raised. *)
Record thread : Type := mkThread {
  th_code : list instr;
  th_exc : option exn
}.

(** One step of a thread; [None] when the thread has finished or waits for
    the lock. *)
Definition thread_step (st : MsgSt) (th : thread) : option (MsgSt * thread) :=
  match th_code th with
  | [] => None
  | IAcquire :: k =>
      if _mem_freed_lock (msg st) then None
      else Some (set_mem_freed_lock true st, mkThread k (th_exc th))
  | i :: k =>
      match exec_instr i st with
      | (Ok true, st') => Some (st', mkThread k (th_exc th))
      | (Ok false, st') => Some (st', mkThread (unwind 0 k) (th_exc th))
      | (Raise e, st') => Some (st', mkThread (unwind 0 k) (Some e))
      | (Hang, _) => None
      end
  end.

(** The message and the threads working on it. *)
Definition config : Type := MsgSt * list thread.

(** The scheduler lets thread [i] take a step; nothing happens when that
    thread cannot move. *)
Definition sched_step (i : nat) (c : config) : config :=
  match c.2 !! i with
  | None => c
  | Some th =>
      match thread_step c.1 th with
      | None => c
      | Some (st', th') => (st', <[i := th']> c.2)
      end
  end.

(** A schedule is the list of the threads picked, in order. *)
Definition run_schedule (sched : list nat) (c : config) : config :=
  foldl (fun c i => sched_step i c) c sched.

(** A thread runs alone until it has finished ([fuel] bounds the steps). *)
Fixpoint run_alone (fuel : nat) (st : MsgSt) (th : thread) : MsgSt * thread :=
  match fuel with
  | O => (st, th)
  | S n =>
      match thread_step st th with
      | None => (st, th)
      | Some (st', th') => run_alone n st' th'
      end
  end.

(** A message nobody has touched yet, and threads about to run [ops] on it. *)
Definition fresh_message (h : Z) (p : option nat) : MsgSt :=
  mkMsgSt (mkMessage false false h p) [].

Definition start `{NngLib} (op : msg_op) : thread := mkThread (program op) None.

Definition initial `{NngLib} (h : Z) (p : option nat) (ops : list msg_op) : config :=
  (fresh_message h p, map start ops).

(** The engine or the allocator takes the buffer away from Python: the
    buffer is freed, or a send that was accepted now owns it. *)
Definition gives_up_buffer (c : native_call) : bool :=
  match c with
  | Nng_msg_free _ => true
  | Nng_sendmsg _ _ _ rv => (rv =? 0)%Z
  | Nng_ctx_send _ rv => (rv =? 0)%Z
  | _ => false
  end.

Definition is_msg_free (c : native_call) : bool :=
  match c with
  | Nng_msg_free _ => true
  | _ => false
  end.

Definition disposals (calls : list native_call) : nat :=
  length (filter (fun c => gives_up_buffer c = true) calls).

Definition frees (calls : list native_call) : nat :=
  length (filter (fun c => is_msg_free c = true) calls).

(** The thread is inside its [with] block: it took the lock and has not
    released it. *)
Definition in_critical_section (th : thread) : bool :=
  match th_code th with
  | [] => false
  | IAcquire :: _ => false
  | _ :: _ => true
  end.

Definition finished (th : thread) : bool :=
  match th_code th with
  | [] => true
  | _ => false
  end.

(** ** Sockets, pipes and the store they live in *)

(** A [Dialer] or [Listener] object: its native handle and its socket. *)
Record Dialer : Type := mkDialer {
  _dialer : Z;
  dialer_socket : Z
}.

Record Listener : Type := mkListener {
  _listener : Z;
  listener_socket : Z
}.

(** A [Pipe] object: the copy of the native handle ([self.pipe]), the owning
    socket and the flag [_closed]. *)
Record Pipe : Type := mkPipe {
  pipe : Z;
  pipe_socket : Z;
  _closed : bool
}.

(** What a pipe callback may do to the pipe it is handed: call
    [pipe.close()], the engine returning [rv], or raise. *)
Inductive hook_action : Type :=
| HClose (rv : Z)
| HRaise (e : exn).

(** A callback registered with [add_*_cb].  [hk_id] is the identity of the
    function object; the body may depend on the pipe it is called with. *)
Record hook : Type := mkHook {
  hk_id : nat;
  hk_body : Pipe -> list hook_action
}.

(** A [Socket] object.  [_socket] is [None] as long as the attribute has not
    been assigned; [_pipe_notify_lock] is true while the lock is held. *)
Record Socket : Type := mkSocket {
  _dialers : gmap Z Dialer;
  _listeners : gmap Z Listener;
  _pipes : gmap Z nat;
  _on_pre_pipe_add : list hook;
  _on_post_pipe_add : list hook;
  _on_post_pipe_remove : list hook;
  _pipe_notify_lock : bool;
  _socket : option Z
}.

(** Records of the [logging] module and of the interpreter's stderr. *)
Inductive log_record : Type :=
| LogException (text : string) (e : exn)
| LogDebug (text : string)
| Stderr (e : exn).

(** The store.  [sockets] holds the live [Socket] objects under their
    [id()]; [_live_sockets] is the module's [WeakValueDictionary]; [pipes]
    holds the [Pipe] objects in the order they were created, so the index of
    a pipe is its identity.  [hook_calls] lists the callbacks called so far:
    event, callback, pipe. *)
Record World : Type := mkWorld {
  sockets : gmap Z Socket;
  _live_sockets : gmap Z Z;
  pipes : list Pipe;
  log : list log_record;
  hook_calls : list (nng_pipe_ev * nat * nat);
  native_calls : list native_call
}.

Definition set_sockets (f : gmap Z Socket -> gmap Z Socket) (w : World) : World :=
  mkWorld (f (sockets w)) (_live_sockets w) (pipes w) (log w) (hook_calls w) (native_calls w).

Definition set_live_sockets (f : gmap Z Z -> gmap Z Z) (w : World) : World :=
  mkWorld (sockets w) (f (_live_sockets w)) (pipes w) (log w) (hook_calls w) (native_calls w).

Definition set_pipes (f : list Pipe -> list Pipe) (w : World) : World :=
  mkWorld (sockets w) (_live_sockets w) (f (pipes w)) (log w) (hook_calls w) (native_calls w).

Definition add_log (r : log_record) (w : World) : World :=
  mkWorld (sockets w) (_live_sockets w) (pipes w) (log w ++ [r]) (hook_calls w) (native_calls w).

Definition add_hook_call (c : nng_pipe_ev * nat * nat) (w : World) : World :=
  mkWorld (sockets w) (_live_sockets w) (pipes w) (log w) (hook_calls w ++ [c]) (native_calls w).

Definition add_native_call (c : native_call) (w : World) : World :=
  mkWorld (sockets w) (_live_sockets w) (pipes w) (log w) (hook_calls w) (native_calls w ++ [c]).

Definition native (c : native_call) : M World unit := modify (add_native_call c).

Definition logger_exception (text : string) (e : exn) : M World unit :=
  modify (add_log (LogException text e)).

Definition logger_debug (text : string) : M World unit :=
  modify (add_log (LogDebug text)).

(** Field updates of a [Socket]. *)
Definition with_dialers (d : gmap Z Dialer) (s : Socket) : Socket :=
  mkSocket d (_listeners s) (_pipes s) (_on_pre_pipe_add s) (_on_post_pipe_add s)
           (_on_post_pipe_remove s) (_pipe_notify_lock s) (_socket s).

Definition with_listeners (l : gmap Z Listener) (s : Socket) : Socket :=
  mkSocket (_dialers s) l (_pipes s) (_on_pre_pipe_add s) (_on_post_pipe_add s)
           (_on_post_pipe_remove s) (_pipe_notify_lock s) (_socket s).

Definition with_pipes (p : gmap Z nat) (s : Socket) : Socket :=
  mkSocket (_dialers s) (_listeners s) p (_on_pre_pipe_add s) (_on_post_pipe_add s)
           (_on_post_pipe_remove s) (_pipe_notify_lock s) (_socket s).

Definition with_hooks (event : nng_pipe_ev) (f : list hook -> list hook) (s : Socket) : Socket :=
  match event with
  | NNG_PIPE_EV_ADD_PRE =>
      mkSocket (_dialers s) (_listeners s) (_pipes s) (f (_on_pre_pipe_add s))
               (_on_post_pipe_add s) (_on_post_pipe_remove s) (_pipe_notify_lock s) (_socket s)
  | NNG_PIPE_EV_ADD_POST =>
      mkSocket (_dialers s) (_listeners s) (_pipes s) (_on_pre_pipe_add s)
               (f (_on_post_pipe_add s)) (_on_post_pipe_remove s) (_pipe_notify_lock s) (_socket s)
  | NNG_PIPE_EV_REM_POST =>
      mkSocket (_dialers s) (_listeners s) (_pipes s) (_on_pre_pipe_add s)
               (_on_post_pipe_add s) (f (_on_post_pipe_remove s)) (_pipe_notify_lock s) (_socket s)
  | NNG_PIPE_EV_OTHER _ => s
  end.

Definition with_pipe_notify_lock (b : bool) (s : Socket) : Socket :=
  mkSocket (_dialers s) (_listeners s) (_pipes s) (_on_pre_pipe_add s) (_on_post_pipe_add s)
           (_on_post_pipe_remove s) b (_socket s).

Definition with_socket (h : option Z) (s : Socket) : Socket :=
  mkSocket (_dialers s) (_listeners s) (_pipes s) (_on_pre_pipe_add s) (_on_post_pipe_add s)
           (_on_post_pipe_remove s) (_pipe_notify_lock s) h.

(** The callbacks a socket has registered for an event. *)
Definition hooks_for (event : nng_pipe_ev) (s : Socket) : list hook :=
  match event with
  | NNG_PIPE_EV_ADD_PRE => _on_pre_pipe_add s
  | NNG_PIPE_EV_ADD_POST => _on_post_pipe_add s
  | NNG_PIPE_EV_REM_POST => _on_post_pipe_remove s
  | NNG_PIPE_EV_OTHER _ => []
  end.

(** Reading and updating the [Socket] object behind the reference [self]. *)
Definition Socket_get {A} (self : Z) (field : Socket -> A) : M World A :=
  fun w =>
    match sockets w !! self with
    | Some s => (Ok (field s), w)
    | None => (Raise DanglingReference, w)
    end.

Definition Socket_set (self : Z) (f : Socket -> Socket) : M World unit :=
  modify (set_sockets (alter f self)).

(** Reading the [Pipe] object behind a reference. *)
Definition Pipe_get {A} (self : nat) (field : Pipe -> A) : M World A :=
  fun w =>
    match pipes w !! self with
    | Some p => (Ok (field p), w)
    | None => (Raise DanglingReference, w)
    end.

(** [Pipe.__init__(lib_pipe, socket)]: a new object, returned by reference. *)
Definition Pipe___init__ (lib_pipe : Z) (socket : Z) : M World nat :=
  fun w => (Ok (length (pipes w)), set_pipes (fun ps => ps ++ [mkPipe lib_pipe socket false]) w).

(** The property [Pipe.closed]. *)
Definition Pipe_closed (self : nat) : M World bool := Pipe_get self _closed.

(** [Pipe.close()]; [rv] is the code [lib.nng_pipe_close] returns. *)
Definition Pipe_close (self : nat) (rv : Z) : M World unit :=
  h <~ Pipe_get self pipe ;;
  native (Nng_pipe_close h rv) ;;;
  check_err rv ;;;
  modify (set_pipes (alter (fun p => mkPipe (pipe p) (pipe_socket p) true) self)).

(** The property [Socket.socket]: [self._socket[0]]. *)
Definition Socket_socket (self : Z) : M World Z :=
  h <~ Socket_get self _socket ;;
  match h with
  | Some h => ret h
  | None => raise AttributeError
  end.

(** [Socket._add_pipe(lib_pipe)] *)
Definition Socket__add_pipe `{NngLib} (self : Z) (lib_pipe : Z) : M World nat :=
  let pipe_id := nng_pipe_id lib_pipe in
  pipe <~ Pipe___init__ lib_pipe self ;;
  Socket_set self (fun s => with_pipes (<[pipe_id := pipe]> (_pipes s)) s) ;;;
  ret pipe.

(** [self._pipes[pipe_id]] *)
Definition Socket_pipes_getitem (self : Z) (pipe_id : Z) : M World nat :=
  ps <~ Socket_get self _pipes ;;
  match ps !! pipe_id with
  | Some pipe => ret pipe
  | None => raise KeyError
  end.

(** [Socket._remove_pipe(lib_pipe)]: [del self._pipes[pipe_id]]. *)
Definition Socket__remove_pipe `{NngLib} (self : Z) (lib_pipe : Z) : M World unit :=
  let pipe_id := nng_pipe_id lib_pipe in
  _ <~ Socket_pipes_getitem self pipe_id ;;
  Socket_set self (fun s => with_pipes (delete pipe_id (_pipes s)) s).

(** [add_pre_pipe_connect_cb], [add_post_pipe_connect_cb] and
    [add_post_pipe_remove_cb], by the event they register for:
    [list.append]. *)
Definition Socket_add_cb (event : nng_pipe_ev) (self : Z) (callback : hook) : M World unit :=
  Socket_set self (with_hooks event (fun cbs => cbs ++ [callback])).

(** [list.remove(x)]: drops the first element equal to [x]; function objects
    are equal when they are the same object. *)
Fixpoint list_remove (callback : hook) (cbs : list hook) : option (list hook) :=
  match cbs with
  | [] => None
  | cb :: rest =>
      if decide (hk_id cb = hk_id callback) then Some rest
      else option_map (cons cb) (list_remove callback rest)
  end.

(** [remove_pre_pipe_connect_cb] and its two siblings. *)
Definition Socket_remove_cb (event : nng_pipe_ev) (self : Z) (callback : hook) : M World unit :=
  s <~ Socket_get self id ;;
  match list_remove callback (hooks_for event s) with
  | Some cbs => Socket_set self (with_hooks event (fun _ => cbs))
  | None => raise ValueError
  end.

(** ** The pipe-event dispatcher *)

(** [_live_sockets[sock_id]]: a [WeakValueDictionary] answers only for a key
    whose socket is still alive. *)
Definition live_sockets_getitem (sock_id : Z) : M World Z :=
  fun w =>
    match _live_sockets w !! sock_id with
    | Some sock =>
        match sockets w !! sock with
        | Some _ => (Ok sock, w)
        | None => (Raise KeyError, w)
        end
    | None => (Raise KeyError, w)
    end.

(** The body of a callback, run on the pipe [self]. *)
Fixpoint run_hook_body (self : nat) (body : list hook_action) : M World unit :=
  match body with
  | [] => ret tt
  | HClose rv :: rest => Pipe_close self rv ;;; run_hook_body self rest
  | HRaise e :: _ => raise e
  end.

(** [cb(pipe)] *)
Definition call_hook (event : nng_pipe_ev) (cb : hook) (pipe : nat) : M World unit :=
  p <~ Pipe_get pipe id ;;
  modify (add_hook_call (event, hk_id cb, pipe)) ;;;
  run_hook_body pipe (hk_body cb p).

(** [for cb in cbs: try: cb(pipe) except Exception: logger.exception(text)] *)
Fixpoint run_callbacks (event : nng_pipe_ev) (text : string) (cbs : list hook)
    (pipe : nat) : M World unit :=
  match cbs with
  | [] => ret tt
  | cb :: rest =>
      try_except (call_hook event cb pipe) is_Exception (logger_exception text) ;;;
      run_callbacks event text rest pipe
  end.

(** [with sock._pipe_notify_lock:] *)
Definition with_sock_pipe_notify_lock {A} (sock : Z) (body : M World A) : M World A :=
  with_lock
    (fun w => match sockets w !! sock with
              | Some s => _pipe_notify_lock s
              | None => false
              end)
    (fun b => set_sockets (alter (with_pipe_notify_lock b) sock))
    body.

Definition is_KeyError (e : exn) : bool :=
  match e with
  | KeyError => true
  | _ => false
  end.

(** The block of [_nng_pipe_cb] under [with sock._pipe_notify_lock:]. *)
Definition pipe_cb_locked `{NngLib} (sock : Z) (lib_pipe : Z) (event : nng_pipe_ev)
    : M World unit :=
  let pipe_id := nng_pipe_id lib_pipe in
  match event with
  | NNG_PIPE_EV_ADD_PRE =>
      pipe <~ Socket__add_pipe sock lib_pipe ;;
      cbs <~ Socket_get sock _on_pre_pipe_add ;;
      run_callbacks NNG_PIPE_EV_ADD_PRE
        "Exception raised in pre pipe connect callback" cbs pipe ;;;
      closed <~ Pipe_closed pipe ;;
      if closed then Socket__remove_pipe sock lib_pipe else ret tt
  | NNG_PIPE_EV_ADD_POST =>
      pipe <~ Socket_pipes_getitem sock pipe_id ;;
      cbs <~ Socket_get sock _on_post_pipe_add ;;
      run_callbacks NNG_PIPE_EV_ADD_POST
        "Exception raised in post pipe connect callback" cbs pipe
  | NNG_PIPE_EV_REM_POST =>
      found <~ try_except
                 (pipe <~ Socket_pipes_getitem sock pipe_id ;; ret (Some pipe))
                 is_KeyError
                 (fun _ => logger_debug "Could not find pipe for socket" ;;; ret None) ;;
      match found with
      | None => ret tt
      | Some pipe =>
          try_finally
            (cbs <~ Socket_get sock _on_post_pipe_remove ;;
             run_callbacks NNG_PIPE_EV_REM_POST
               "Exception raised in post pipe remove callback" cbs pipe)
            (Socket__remove_pipe sock lib_pipe)
      end
  | NNG_PIPE_EV_OTHER _ => ret tt
  end.

(** [_nng_pipe_cb(lib_pipe, event, arg)] *)
Definition _nng_pipe_cb `{NngLib} (lib_pipe : Z) (event : nng_pipe_ev) (arg : Z) : M World unit :=
  let sock_id := arg in
  sock <~ live_sockets_getitem sock_id ;;
  with_sock_pipe_notify_lock sock (pipe_cb_locked sock lib_pipe event).

(** ** The engine calling back *)

(** A pipe event as the engine reports it: native pipe, event kind, and the
    [void *] argument given to [nng_pipe_notify]. *)
Definition pipe_event : Type := Z * nng_pipe_ev * Z.

(** [lib._nng_pipe_cb], the C entry point that [@ffi.def_extern()] makes of
    [_nng_pipe_cb]: an exception that leaves the Python body is printed to
    stderr and goes no further. *)
Definition extern_nng_pipe_cb `{NngLib} (ev : pipe_event) : M World unit :=
  try_except (_nng_pipe_cb ev.1.1 ev.1.2 ev.2) (fun _ => true)
             (fun e => modify (add_log (Stderr e))).

(** The callbacks the engine completes while a native call is in progress. *)
Fixpoint engine_calls_back `{NngLib} (evs : list pipe_event) : M World unit :=
  match evs with
  | [] => ret tt
  | ev :: rest => extern_nng_pipe_cb ev ;;; engine_calls_back rest
  end.

(** What the engine answers to [nng_dial] or [nng_listen]: the callbacks it
    completes before the call returns, the returned code, and the id of the
    dialer or listener it created. *)
Record native_result : Type := mkNativeResult {
  callbacks : list pipe_event;
  ret_code : Z;
  new_id : Z
}.

(** ** Socket: dial, listen, close, construction *)

(** [Socket._dial(address, flags)] *)
Definition Socket__dial `{NngLib} (self : Z) (address : string) (flags : Z)
    (r : native_result) : M World unit :=
  sock <~ Socket_socket self ;;
  native (Nng_dial sock address flags (ret_code r)) ;;;
  engine_calls_back (callbacks r) ;;;
  check_err (ret_code r) ;;;
  let d_id := new_id r in
  Socket_set self (fun s => with_dialers (<[d_id := mkDialer (new_id r) self]> (_dialers s)) s).

(** [Socket.dial(address, block=b)] for [b] one of [True] and [False]: the
    first and the last branch of [dial]. *)
Definition Socket_dial_bool `{NngLib} (self : Z) (address : string) (block : bool)
    (r : native_result) : M World unit :=
  if block then Socket__dial self address 0 r
  else Socket__dial self address NNG_FLAG_NONBLOCK r.

(** [Socket.dial(address, block)]; [block] is [None], [True] or [False].
    [r1] answers the first native dial and [r2] the second, if there is one.
    Both recursive calls of the source pass [block=False]. *)
Definition Socket_dial `{NngLib} (self : Z) (address : string) (block : option bool)
    (r1 r2 : native_result) : M World unit :=
  match block with
  | Some block => Socket_dial_bool self address block r1
  | None =>
      try_except (Socket_dial_bool self address false r1)
        is_ConnectionRefused
        (fun e =>
           logger_exception "Synchronous dial failed; attempting asynchronous now" e ;;;
           Socket_dial_bool self address false r2)
  end.

(** [Socket.listen(address, flags)] *)
Definition Socket_listen `{NngLib} (self : Z) (address : string) (flags : Z)
    (r : native_result) : M World unit :=
  sock <~ Socket_socket self ;;
  native (Nng_listen sock address flags (ret_code r)) ;;;
  engine_calls_back (callbacks r) ;;;
  check_err (ret_code r) ;;;
  let l_id := new_id r in
  Socket_set self (fun s => with_listeners (<[l_id := mkListener (new_id r) self]> (_listeners s)) s).

(** [Socket.close()]; [evs] are the callbacks the engine completes during
    [nng_close], whose result the method ignores. *)
Definition Socket_close `{NngLib} (self : Z) (evs : list pipe_event) : M World unit :=
  has_socket <~ Socket_get self _socket ;;
  match has_socket with
  | Some sock =>
      native (Nng_close sock) ;;;
      engine_calls_back evs ;;;
      Socket_set self (with_listeners ∅) ;;;
      Socket_set self (with_dialers ∅)
  | None => ret tt
  end.

(** [Socket.__del__] *)
Definition Socket___del__ `{NngLib} (self : Z) (evs : list pipe_event) : M World unit :=
  Socket_close self evs.

(** The keyword arguments of [Socket(...)] that decide the control flow:
    [kw_opener] tells whether an opener is given or inherited from the
    subclass, [kw_options] how many of the option keywords are given. *)
Record kwargs : Type := mkKwargs {
  kw_dial : option string;
  kw_listen : option string;
  kw_opener : bool;
  kw_options : nat;
  kw_block_on_dial : option bool
}.

(** What the engine answers during construction: to the opener (code and
    socket handle), to each option setter, to the three [nng_pipe_notify],
    to the listen and to the dials. *)
Record construction : Type := mkConstruction {
  on_open : Z * Z;
  on_setopt : list Z;
  on_notify : Z * Z * Z;
  on_listen : native_result;
  on_dial1 : native_result;
  on_dial2 : native_result
}.

(** Modelled from the spec: the option descriptors call [options._setopt_*]
    of [pynng/options.py], which is not part of this file; each is a "simple
    read/write of scalar engine options", here a checked native call.  A
    setter the engine gives no answer for succeeds. *)
Fixpoint set_options (sock : Z) (n : nat) (answers : list Z) : M World unit :=
  match n with
  | O => ret tt
  | S n' =>
      let rv := hd 0%Z answers in
      native (Nng_setopt sock rv) ;;;
      check_err rv ;;;
      set_options sock n' (tl answers)
  end.

(** [for event in (ADD_PRE, ADD_POST, REM_POST):
       check_err(lib.nng_pipe_notify(self.socket, event, lib._nng_pipe_cb, as_void))] *)
Definition arm_pipe_notify (self : Z) (as_void : Z) (answers : Z * Z * Z) : M World unit :=
  sock <~ Socket_socket self ;;
  native (Nng_pipe_notify sock NNG_PIPE_EV_ADD_PRE as_void answers.1.1) ;;;
  check_err answers.1.1 ;;;
  sock <~ Socket_socket self ;;
  native (Nng_pipe_notify sock NNG_PIPE_EV_ADD_POST as_void answers.1.2) ;;;
  check_err answers.1.2 ;;;
  sock <~ Socket_socket self ;;
  native (Nng_pipe_notify sock NNG_PIPE_EV_REM_POST as_void answers.2) ;;;
  check_err answers.2.

(** [Socket.__init__] for the new object [self] (the reference is [id(self)]). *)
Definition Socket___init__ `{NngLib} (self : Z) (kw : kwargs) (en : construction) : M World unit :=
  modify (set_sockets (<[self := mkSocket ∅ ∅ ∅ [] [] [] false None]>)) ;;;
  Socket_set self (with_socket (Some 0%Z)) ;;;
  (if negb (kw_opener kw) then raise TypeError else ret tt) ;;;
  native (Nng_open (on_open en).1) ;;;
  (if ((on_open en).1 =? 0)%Z then Socket_set self (with_socket (Some (on_open en).2))
   else ret tt) ;;;
  check_err (on_open en).1 ;;;
  sock <~ Socket_socket self ;;
  set_options sock (kw_options kw) (on_setopt en) ;;;
  let as_void := self in
  arm_pipe_notify self as_void (on_notify en) ;;;
  match kw_listen kw with
  | Some listen => Socket_listen self listen 0 (on_listen en)
  | None => ret tt
  end ;;;
  match kw_dial kw with
  | Some dial => Socket_dial self dial (kw_block_on_dial kw) (on_dial1 en) (on_dial2 en)
  | None => ret tt
  end ;;;
  modify (set_live_sockets (<[self := self]>)).

(** The same constructor with the registration moved in front of the
    [listen]/[dial] requests, for comparison. *)
Definition Socket___init___registering_first `{NngLib} (self : Z) (kw : kwargs)
    (en : construction) : M World unit :=
  modify (set_sockets (<[self := mkSocket ∅ ∅ ∅ [] [] [] false None]>)) ;;;
  Socket_set self (with_socket (Some 0%Z)) ;;;
  (if negb (kw_opener kw) then raise TypeError else ret tt) ;;;
  native (Nng_open (on_open en).1) ;;;
  (if ((on_open en).1 =? 0)%Z then Socket_set self (with_socket (Some (on_open en).2))
   else ret tt) ;;;
  check_err (on_open en).1 ;;;
  sock <~ Socket_socket self ;;
  set_options sock (kw_options kw) (on_setopt en) ;;;
  let as_void := self in
  arm_pipe_notify self as_void (on_notify en) ;;;
  modify (set_live_sockets (<[self := self]>)) ;;;
  match kw_listen kw with
  | Some listen => Socket_listen self listen 0 (on_listen en)
  | None => ret tt
  end ;;;
  match kw_dial kw with
  | Some dial => Socket_dial self dial (kw_block_on_dial kw) (on_dial1 en) (on_dial2 en)
  | None => ret tt
  end.

(** ** What can happen to the store *)

(** The program and the engine act on the store in turns. *)
Inductive action : Type :=
| ACallback (ev : pipe_event)
| AAddCb (event : nng_pipe_ev) (self : Z) (cb : hook)
| ARemoveCb (event : nng_pipe_ev) (self : Z) (cb : hook)
| ADial (self : Z) (address : string) (block : option bool) (r1 r2 : native_result)
| AListen (self : Z) (address : string) (flags : Z) (r : native_result)
| AClose (self : Z) (evs : list pipe_event)
| APipeClose (p : nat) (rv : Z)
| ANew (self : Z) (kw : kwargs) (en : construction)
| ACollect (self : Z) (evs : list pipe_event).

Definition perform `{NngLib} (a : action) : M World unit :=
  match a with
  | ACallback ev => extern_nng_pipe_cb ev
  | AAddCb event self cb => Socket_add_cb event self cb
  | ARemoveCb event self cb => Socket_remove_cb event self cb
  | ADial self address block r1 r2 => Socket_dial self address block r1 r2
  | AListen self address flags r => Socket_listen self address flags r
  | AClose self evs => Socket_close self evs
  | APipeClose p rv => Pipe_close p rv
  | ANew self kw en =>
      fun w =>
        match sockets w !! self with
        | Some _ => (Ok tt, w)
        | None => Socket___init__ self kw en w
        end
  | ACollect self evs =>
      Socket___del__ self evs ;;;
      modify (set_sockets (delete self)) ;;;
      modify (set_live_sockets (delete self))
  end.

(** The store after a sequence of actions; what an action returns or raises
    goes to its caller and is not part of the store. *)
Definition run `{NngLib} (acts : list action) (w : World) : World :=
  foldl (fun w a => (perform a w).2) w acts.

Definition empty_world : World := mkWorld ∅ ∅ [] [] [] [].

(** Every reference in a pipe table, and every pipe a callback was called
    with, is a [Pipe] object of the store. *)
Definition wf_world (w : World) : Prop :=
  (forall sid s pid r,
     sockets w !! sid = Some s -> _pipes s !! pid = Some r -> (r < length (pipes w))%nat)
  /\ (forall c, c ∈ hook_calls w -> (c.2 < length (pipes w))%nat).

(** No dispatch is in progress: every [_pipe_notify_lock] is free. *)
Definition quiescent (w : World) : Prop :=
  forall sid s, sockets w !! sid = Some s -> _pipe_notify_lock s = false.


(** The callback may fail, but only with an exception of class
    [Exception]. *)
Definition raises_only_Exception (cb : hook) : Prop :=
  forall p e, HRaise e ∈ hk_body cb p -> is_Exception e = true.

(** The body closes the pipe it runs on: it starts with a [close()] that
    the engine accepts. *)
Definition body_closes (body : list hook_action) : bool :=
  match body with
  | [] => false
  | HClose rv :: _ => (rv =? 0)%Z
  | HRaise _ :: _ => false
  end.

(** The body raises [e] out of the callback. *)
Fixpoint body_raises (body : list hook_action) : option exn :=
  match body with
  | [] => None
  | HClose rv :: rest => if (rv =? 0)%Z then body_raises rest else Some (NNGException rv)
  | HRaise e :: _ => Some e
  end.

(** The engine calls a callback makes, in order. *)
Fixpoint body_calls (h : Z) (body : list hook_action) : list native_call :=
  match body with
  | [] => []
  | HClose rv :: rest =>
      Nng_pipe_close h rv :: (if (rv =? 0)%Z then body_calls h rest else [])
  | HRaise _ :: _ => []
  end.

(** The pipe after a callback body ran on it. *)
Definition closed_by (p : Pipe) (body : list hook_action) : Pipe :=
  mkPipe (pipe p) (pipe_socket p) (_closed p || body_closes body).

(** What the loop over the callbacks leaves behind when every exception is
    caught: the pipe, one log record for each callback that raised, in
    order, and the engine calls. *)
Fixpoint after_callbacks (text : string) (cbs : list hook) (p : Pipe)
    : Pipe * list log_record * list native_call :=
  match cbs with
  | [] => (p, [], [])
  | cb :: rest =>
      let body := hk_body cb p in
      let r := after_callbacks text rest (closed_by p body) in
      (r.1.1,
       match body_raises body with
       | Some e => LogException text e :: r.1.2
       | None => r.1.2
       end,
       body_calls (pipe p) body ++ r.2)
  end.


(** The sockets of the store with their pipe tables blanked: what a
    dispatch never changes. *)
Definition sockets_but_pipes (w : World) : gmap Z Socket :=
  with_pipes ∅ <$> sockets w.

(** ** The loop over the callbacks, whatever they raise *)

(** How a loop over callbacks ends: the pipe as the callbacks leave it, the
    records logged, the engine calls made, the callbacks that were called,
    in order, and the exception that left the loop, if one did. *)
Record loop_end : Type := mkLoopEnd {
  le_pipe : Pipe;
  le_log : list log_record;
  le_native : list native_call;
  le_called : list hook;
  le_raised : option exn
}.

(** [for cb in cbs: try: cb(pipe) except Exception: logger.exception(text)]
    on the pipe [p]: an exception of class [Exception] is logged and the
    loop goes on with the next callback; any other exception leaves the
    loop, and the callbacks behind the one that raised it are not called. *)
Fixpoint callbacks_loop (text : string) (cbs : list hook) (p : Pipe) : loop_end :=
  match cbs with
  | [] => mkLoopEnd p [] [] [] None
  | cb :: rest =>
      let body := hk_body cb p in
      let next := callbacks_loop text rest (closed_by p body) in
      match body_raises body with
      | Some e =>
          if is_Exception e
          then mkLoopEnd (le_pipe next) (LogException text e :: le_log next)
                         (body_calls (pipe p) body ++ le_native next)
                         (cb :: le_called next) (le_raised next)
          else mkLoopEnd (closed_by p body) [] (body_calls (pipe p) body) [cb] (Some e)
      | None =>
          mkLoopEnd (le_pipe next) (le_log next)
                    (body_calls (pipe p) body ++ le_native next)
                    (cb :: le_called next) (le_raised next)
      end
  end.

(** What the loop hands to the code around it. *)
Definition loop_outcome (l : loop_end) : outcome unit :=
  match le_raised l with
  | Some e => Raise e
  | None => Ok tt
  end.

(** The pipe table after a pre-add event whose loop ended as [l]: the new
    pipe [r] is in it under [pid], unless the loop ran to its end and left
    the pipe closed. *)
Definition table_after_pre_add (l : loop_end) (pid : Z) (r : nat) (T : gmap Z nat)
    : gmap Z nat :=
  match le_raised l with
  | None => if _closed (le_pipe l) then delete pid T else <[pid := r]> T
  | Some _ => <[pid := r]> T
  end.

(** ** What the engine reports while [nng_close] runs *)



(** ** Accounting for the threads that share a message *)

Definition b2n (b : bool) : nat := if b then 1%nat else 0%nat.

(** The steps still ahead may give the buffer away before the flag is
    looked at again. *)
Fixpoint may_dispose (code : list instr) : bool :=
  match code with
  | [] => false
  | IIfFreedReturn :: _ | IEnsureCanSend :: _ => false
  | IMsgFree :: _ | ISendmsg _ _ _ :: _ | ICtxSend _ _ :: _ => true
  | _ :: k => may_dispose k
  end.

(** What holds for the thread inside the [with] block: if its next step sets
    the flag, the buffer was given away once and the flag is not set yet;
    otherwise the flag tells whether the buffer was given away, and it is
    not set if the thread is about to give the buffer away. *)
Definition holder_ok (st : MsgSt) (code : list instr) : Prop :=
  match code with
  | ISetFreed :: _ => _mem_freed (msg st) = false /\ disposals (msg_calls st) = 1%nat
  | _ => disposals (msg_calls st) = b2n (_mem_freed (msg st))
         /\ (may_dispose code = true -> _mem_freed (msg st) = false)
  end.

(** [__del__] has passed the point where it looks at the flag. *)
Definition del_done (code : list instr) : bool :=
  match code with
  | [] | [IRelease] => true
  | _ => false
  end.

Definition thread_ok `{NngLib} (st : MsgSt) (op : msg_op) (th : thread) : Prop :=
  th_code th `suffix_of` program op
  /\ (op = OpDel -> del_done (th_code th) = true -> _mem_freed (msg st) = true).

(** The invariant of every schedule: each thread is somewhere in its own
    method; the lock is held exactly when one thread is inside its [with]
    block; outside, the flag tells whether the buffer was given away. *)
Definition inv `{NngLib} (ops : list msg_op) (c : config) : Prop :=
  length c.2 = length ops
  /\ (forall i op th, ops !! i = Some op -> c.2 !! i = Some th -> thread_ok c.1 op th)
  /\ if _mem_freed_lock (msg c.1)
     then exists i th, c.2 !! i = Some th /\ in_critical_section th = true
            /\ holder_ok c.1 (th_code th)
            /\ forall j th', j <> i -> c.2 !! j = Some th' -> in_critical_section th' = false
     else (forall j th', c.2 !! j = Some th' -> in_critical_section th' = false)
          /\ disposals (msg_calls c.1) = b2n (_mem_freed (msg c.1)).

(** How a method that ran to its end left: [None] for a return. *)
Definition exc_of (r : outcome unit) : option exn :=
  match r with
  | Raise e => Some e
  | _ => None
  end.

(** ** The asynchronous sends, step by step *)

(** [Socket.asend_msg] and [Context.asend_msg] are the same block around the
    aio helper: take the lock, check that the message can be sent, let the
    helper send it, release the lock.  [helper] stands for the steps of
    [with _aio.AIOHelper(...) as aio: return await aio.asend_msg(msg)],
    which is not part of this file. *)
Definition asend_program (helper : list instr) : list instr :=
  IAcquire :: IEnsureCanSend :: helper ++ [IRelease].

(** The steps that take or release the lock. *)
Definition lock_step (i : instr) : bool :=
  match i with
  | IAcquire | IRelease => true
  | _ => false
  end.

(** The steps of a helper stay inside the block of its caller: they neither
    take nor release the lock, and every [finally] among them belongs to a
    [try] among them, so that an exception raised in front of the helper
    passes all of it by. *)
Definition helper_ok (helper : list instr) : bool :=
  forallb (fun i => negb (lock_step i)) helper && bool_decide (unwind 0 helper = []).

(** The steps [code] as one computation: what a thread that runs them alone
    makes of the message, and how it leaves them. *)
Definition run_code (code : list instr) : M MsgSt unit :=
  fun st =>
    let r := run_alone (length code) st (mkThread code None) in
    (match th_exc r.2 with
     | Some e => Raise e
     | None => Ok tt
     end, r.1).

(** What a thread does with the message: one of the blocking methods, or an
    asynchronous send with the steps of its helper. *)
Inductive sender : Type :=
| Blocking (op : msg_op)
| Asend (helper : list instr).

Definition sender_program `{NngLib} (s : sender) : list instr :=
  match s with
  | Blocking op => program op
  | Asend helper => asend_program helper
  end.

Definition sender_ok (s : sender) : bool :=
  match s with
  | Blocking _ => true
  | Asend helper => helper_ok helper
  end.

(** The threads [senders] about to start on the message [st]. *)
Definition senders_start `{NngLib} (st : MsgSt) (senders : list sender) : config :=
  (st, map (fun s => mkThread (sender_program s) None) senders).

(** Steps that neither take nor release the lock. *)
Definition lock_free (code : list instr) : Prop :=
  Forall (fun i => lock_step i = false) code.

(** Where a thread is in its method: in front of the [with] block, inside
    it, or behind it. *)
Inductive stage : list instr -> Prop :=
| stage_waiting body : lock_free body -> stage (IAcquire :: body ++ [IRelease])
| stage_inside body : lock_free body -> stage (body ++ [IRelease])
| stage_done : stage [].

(** The lock is held exactly when one thread is inside its [with] block. *)
Definition one_holder (c : config) : Prop :=
  (forall i th, c.2 !! i = Some th -> stage (th_code th))
  /\ if _mem_freed_lock (msg c.1)
     then exists i th, c.2 !! i = Some th /\ in_critical_section th = true
            /\ forall j th', j <> i -> c.2 !! j = Some th' -> in_critical_section th' = false
     else forall j th', c.2 !! j = Some th' -> in_critical_section th' = false.

(** ** Invariants of monadic code *)

(** [m] keeps the invariant [I], and what it returns satisfies [V]. *)
Definition keeps {S A} (I : S -> Prop) (m : M S A) (V : A -> Prop) : Prop :=
  forall s, I s -> I (m s).2 /\ forall a, (m s).1 = Ok a -> V a.

(** [m] waits for no lock. *)
Definition nohang {S A} (m : M S A) : Prop := forall s, (m s).1 <> Hang.

(** ** Concrete inputs *)

(** The constants of nng 1.x. *)
Definition nng_1 : NngLib :=
  {| NNG_FLAG_NONBLOCK := 2; NNG_ECONNREFUSED := 6; nng_pipe_id := fun lib_pipe => lib_pipe |}.

(** A callback that rejects the connection: [lambda pipe: pipe.close()]. *)
Definition closing_hook : hook := mkHook 0 (fun _ => [HClose 0]).

(** A callback that fails: [raise ValueError]. *)
Definition failing_hook : hook := mkHook 1 (fun _ => [HRaise ValueError]).

(** A callback that does nothing. *)
Definition quiet_hook : hook := mkHook 2 (fun _ => []).



(** A store with one open socket (object 100, native handle 7) that has one
    dialer and one listener, registered under its [id()]. *)
Definition one_socket (pre post rem : list hook) (table : gmap Z nat) (ps : list Pipe) : World :=
  mkWorld
    {[ 100%Z := mkSocket {[ 3%Z := mkDialer 3 100 ]} {[ 4%Z := mkListener 4 100 ]} table
                         pre post rem false (Some 7%Z) ]}
    {[ 100%Z := 100%Z ]}
    ps [] [] [].

(** The store the witnesses start from: the socket has three pre-add
    callbacks (one fails, one closes the pipe, one does nothing) and one for
    each of the other events; it has seen no pipe yet. *)
Definition listening : World :=
  one_socket [failing_hook; closing_hook; quiet_hook] [failing_hook; quiet_hook]
             [failing_hook; quiet_hook] ∅ [].

(** The same socket with the pipe 5 attached. *)
Definition connected : World :=
  one_socket [] [failing_hook; quiet_hook] [failing_hook; quiet_hook]
             {[ 5%Z := 0%nat ]} [mkPipe 5 100 false].



(** The engine accepts a dial and creates dialer 9, or refuses it. *)
Definition accepted : native_result := mkNativeResult [] 0 9.

Definition refused : native_result := mkNativeResult [] 6 0.

(** [Pair0(dial=address, block_on_dial=True)]: the peer is listening, and the
    engine reports the new pipe 1 (pre-add, then post-add) to the callback
    registered for the socket under construction before [nng_dial]
    returns. *)
Definition dial_kwargs : kwargs :=
  mkKwargs (Some "tcp://127.0.0.1:13131") None true 0 (Some true).

Definition peer_is_listening : construction :=
  mkConstruction (0%Z, 7%Z) [] (0%Z, 0%Z, 0%Z) accepted
    (mkNativeResult [(1%Z, NNG_PIPE_EV_ADD_PRE, 100%Z); (1%Z, NNG_PIPE_EV_ADD_POST, 100%Z)] 0 9)
    accepted.

(** * The rest of the module

    The methods of [Socket], [Pipe], [Dialer], [Listener], [Context] and
    [Message] that the development above does not need, and what they keep
    and guarantee. *)

(** ** Every update of the store, one at a time

    The assignments and container updates that the methods above perform on
    the store, each as the source writes it.  A property that each of them
    keeps is kept by every method and by every callback of the engine. *)
Inductive update `{NngLib} : World -> World -> Prop :=
| U_log w r :                               (* a [logging] or stderr record *)
    update w (add_log r w)
| U_native w c :                            (* a call into the engine *)
    update w (add_native_call c w)
| U_call w ev cb p x :                      (* [cb(pipe)] starts *)
    pipes w !! p = Some x ->
    update w (add_hook_call (ev, hk_id cb, p) w)
| U_pipe_closed w p :                       (* [self._closed = True] *)
    update w (set_pipes (alter (fun x => mkPipe (pipe x) (pipe_socket x) true) p) w)
| U_add_pipe w sid lib_pipe :               (* [Socket._add_pipe] *)
    update w
      (set_sockets
         (alter (fun s => with_pipes (<[nng_pipe_id lib_pipe := length (pipes w)]> (_pipes s)) s)
                sid)
         (set_pipes (fun ps => ps ++ [mkPipe lib_pipe sid false]) w))
| U_remove_pipe w sid pid :                 (* [del self._pipes[pipe_id]] *)
    update w (set_sockets (alter (fun s => with_pipes (delete pid (_pipes s)) s) sid) w)
| U_lock w sid b :                          (* [_pipe_notify_lock] taken or released *)
    update w (set_sockets (alter (with_pipe_notify_lock b) sid) w)
| U_dialer w sid d :                        (* [self._dialers[d_id] = Dialer(dialer, self)] *)
    update w (set_sockets
                (alter (fun s => with_dialers (<[d := mkDialer d sid]> (_dialers s)) s) sid) w)
| U_listener w sid l :                      (* [self._listeners[l_id] = Listener(listener, self)] *)
    update w (set_sockets
                (alter (fun s => with_listeners (<[l := mkListener l sid]> (_listeners s)) s) sid) w)
| U_no_listeners w sid :                    (* [self._listeners = {}] *)
    update w (set_sockets (alter (with_listeners ∅) sid) w)
| U_no_dialers w sid :                      (* [self._dialers = {}] *)
    update w (set_sockets (alter (with_dialers ∅) sid) w)
| U_hooks w event f sid :                   (* [append] to or [remove] from a callback list *)
    update w (set_sockets (alter (with_hooks event f) sid) w)
| U_new w self :                            (* the attributes [__init__] assigns first *)
    update w (set_sockets (<[self := mkSocket ∅ ∅ ∅ [] [] [] false None]>) w)
| U_handle w self h :                       (* [self._socket] assigned, or written by the opener *)
    update w (set_sockets (alter (with_socket (Some h)) self) w)
| U_collected w self :                      (* the object is gone *)
    update w (set_sockets (delete self) w)
| U_registered w self :                     (* [_live_sockets[id(self)] = self] *)
    update w (set_live_sockets (<[self := self]>) w)
| U_unregistered w self :                   (* the weak entry of a dead object *)
    update w (set_live_sockets (delete self) w).

(** ** Socket as a context manager, and the endpoints of a pipe *)

(** [Socket.__enter__] *)
Definition Socket___enter__ (self : Z) : M World Z := ret self.

(** [Socket.__exit__]; it returns [None], so an exception of the block is
    not suppressed. *)
Definition Socket___exit__ `{NngLib} (self : Z) (evs : list pipe_event) : M World unit :=
  Socket_close self evs.

(** [with sock as s: body]: [__exit__] runs when the block returns and when
    it raises; it does not swallow the exception, and an exception of its own
    replaces the one of the block. *)
Definition with_Socket `{NngLib} {A} (sock : Z) (evs : list pipe_event)
    (body : Z -> M World A) : M World A :=
  s <~ Socket___enter__ sock ;;
  try_finally (body s) (Socket___exit__ sock evs).

(** The property [Pipe.dialer].  [d_id] is what the engine answers to
    [lib.nng_dialer_id(lib.nng_pipe_dialer(self.pipe))]. *)
Definition Pipe_dialer (self : nat) (d_id : Z) : M World Dialer :=
  if (d_id <? 0)%Z then raise TypeError
  else
    socket <~ Pipe_get self pipe_socket ;;
    ds <~ Socket_get socket _dialers ;;
    match ds !! d_id with
    | Some d => ret d
    | None => raise KeyError
    end.

(** The property [Pipe.listener], with the engine's answer [l_id] to
    [lib.nng_listener_id(lib.nng_pipe_listener(self.pipe))]. *)
Definition Pipe_listener (self : nat) (l_id : Z) : M World Listener :=
  if (l_id <? 0)%Z then raise TypeError
  else
    socket <~ Pipe_get self pipe_socket ;;
    ls <~ Socket_get socket _listeners ;;
    match ls !! l_id with
    | Some l => ret l
    | None => raise KeyError
    end.

(** Every table entry is filed under the id of its object and points back
    to the socket that holds the table. *)
Definition tables_consistent `{NngLib} (w : World) : Prop :=
  forall sid s, sockets w !! sid = Some s ->
    (forall pid r, _pipes s !! pid = Some r ->
       exists p, pipes w !! r = Some p /\ pipe_socket p = sid /\ nng_pipe_id (pipe p) = pid)
    /\ (forall d x, _dialers s !! d = Some x -> x = mkDialer d sid)
    /\ (forall l x, _listeners s !! l = Some x -> x = mkListener l sid).

(** The pipe objects of [w] are still there in [w'], with the same native
    pipe and socket; a pipe that was closed is closed. *)
Definition pipes_grow (w w' : World) : Prop :=
  forall r p, pipes w !! r = Some p ->
    exists p', pipes w' !! r = Some p' /\ pipe p' = pipe p /\ pipe_socket p' = pipe_socket p
               /\ (_closed p = true -> _closed p' = true).

(** What a constructor leaves in the registry [_live_sockets], which held
    [L] before: the entry of the new socket when the constructor returned,
    and nothing new when it did not. *)
Definition registry_after (self : Z) (L : gmap Z Z) (r : outcome unit * World) : Prop :=
  (r.1 = Ok tt -> _live_sockets r.2 = <[self := self]> L)
  /\ (r.1 <> Ok tt -> _live_sockets r.2 = L).

(** ** Reading a message, and sending it from a pipe *)

(** The property [Message._buffer].  [body] stands for what the engine holds
    for the message: the [nng_msg_len] bytes at [nng_msg_body].  A message
    that was given away has no buffer to show, and the property falls off the
    end of the [with] block, returning [None]. *)
Definition Message__buffer (body : list Z) : M MsgSt (option (list Z)) :=
  with_mem_freed_lock (
    freed <~ gets (fun st => _mem_freed (msg st)) ;;
    if negb freed then ret (Some body) else ret None).

(** The property [Message.bytes]: [bytes(self._buffer)]; [bytes(None)] is a
    [TypeError]. *)
Definition Message_bytes (body : list Z) : M MsgSt (list Z) :=
  buffer <~ Message__buffer body ;;
  match buffer with
  | Some data => ret data
  | None => raise TypeError
  end.

(** [Pipe.send_msg(msg)] for the pipe object [self] of the socket with the
    native handle [sock]: [msg.pipe = self], then [self.socket.send_msg(msg)].
    [r_set] and [r_send] are the codes of [nng_msg_set_pipe] and
    [nng_sendmsg]. *)
Definition Pipe_send_msg `{NngLib} (self : nat) (sock : Z) (r_set r_send : Z) : M MsgSt unit :=
  Message_pipe_setter (PyPipe self) r_set ;;;
  Socket_send_msg sock true r_send.

(** The call hands out an asynchronous-I/O handle, or takes one back. *)
Definition allocates_or_frees_aio (c : native_call) : bool :=
  match c with
  | Nng_aio_alloc _ | Nng_aio_free => true
  | _ => false
  end.

(** ** Closing a dialer or a listener *)

(** The two engine calls of [Dialer.close] and [Listener.close]. *)
Inductive endpoint_call : Type :=
| Nng_dialer_close (dialer : Z)
| Nng_listener_close (listener : Z).

(** The store together with the trace of these calls. *)
Definition Endpoints : Type := World * list endpoint_call.

(** A method of the store, run on the store with its endpoint trace. *)
Definition in_world {A} (m : M World A) : M Endpoints A :=
  fun s => ((m s.1).1, ((m s.1).2, s.2)).

Definition endpoint_native (c : endpoint_call) : M Endpoints unit :=
  modify (fun s => (s.1, s.2 ++ [c])).

(** [Dialer.close()].  A [Dialer] is filed under [lib.nng_dialer_id] of its
    native dialer, which [Socket._dial] takes for both, so [self.id] is
    [_dialer self].  [evs] are the pipe events the engine completes during
    [nng_dialer_close]. *)
Definition Dialer_close `{NngLib} (self : Dialer) (evs : list pipe_event) : M Endpoints unit :=
  endpoint_native (Nng_dialer_close (_dialer self)) ;;;
  in_world (engine_calls_back evs) ;;;
  let id := _dialer self in
  ds <~ in_world (Socket_get (dialer_socket self) _dialers) ;;
  match ds !! id with
  | Some _ =>
      in_world (Socket_set (dialer_socket self)
                  (fun s => with_dialers (delete id (_dialers s)) s))
  | None => raise KeyError
  end.

(** [Listener.close()] *)
Definition Listener_close `{NngLib} (self : Listener) (evs : list pipe_event) : M Endpoints unit :=
  endpoint_native (Nng_listener_close (_listener self)) ;;;
  in_world (engine_calls_back evs) ;;;
  let id := _listener self in
  ls <~ in_world (Socket_get (listener_socket self) _listeners) ;;
  match ls !! id with
  | Some _ =>
      in_world (Socket_set (listener_socket self)
                  (fun s => with_listeners (delete id (_listeners s)) s))
  | None => raise KeyError
  end.

(** ** Contexts *)

(** [lib.nng_ctx_id], which like [nng_pipe_id] only reads the struct it is
    given: the id, or -1 for a struct that names no context. *)
Class NngCtxLib : Type := {
  nng_ctx_id : Z -> Z
}.

(** The engine calls that open and close a context. *)
Inductive ctx_call : Type :=
| Nng_ctx_open (sock rv : Z)
| Nng_ctx_close (ctx rv : Z).

#[global] Instance ctx_call_eq_dec : EqDecision ctx_call.
Proof. solve_decision. Defined.

(** A [Context] object: [_context] is [None] or the [nng_ctx] struct, and
    [_socket] the socket it was made for, once assigned. *)
Record Context : Type := mkContext {
  _context : option Z;
  context_socket : option Z
}.

(** The [Context] objects, in the order they were created, and the trace of
    the engine calls made for them. *)
Record Contexts : Type := mkContexts {
  contexts : list Context;
  ctx_calls : list ctx_call
}.

Definition Context_get {A} (self : nat) (field : Context -> A) : M Contexts A :=
  fun s =>
    match contexts s !! self with
    | Some c => (Ok (field c), s)
    | None => (Raise DanglingReference, s)
    end.

Definition Context_set (self : nat) (f : Context -> Context) : M Contexts unit :=
  modify (fun s => mkContexts (alter f self (contexts s)) (ctx_calls s)).

Definition ctx_native (c : ctx_call) : M Contexts unit :=
  modify (fun s => mkContexts (contexts s) (ctx_calls s ++ [c])).

(** The property [Context.context]: [self._context[0]], which cannot be
    taken of [None]. *)
Definition Context_context (self : nat) : M Contexts Z :=
  c <~ Context_get self _context ;;
  match c with
  | Some h => ret h
  | None => raise TypeError
  end.

(** [Context.__init__(socket)] on the fresh object [self].  [socket] is
    [Some (id, handle)] for a [Socket] object and its native handle, [None]
    for any other value; [r_open] is the code of [nng_ctx_open], which on
    success has written [opened] into the struct. *)
Definition Context___init__ `{NngCtxLib} (self : nat) (socket : option (Z * Z))
    (r_open opened : Z) : M Contexts unit :=
  Context_set self (fun c => mkContext None (context_socket c)) ;;;
  match socket with
  | None => raise AssertionError
  | Some (socket_id, sock) =>
      Context_set self (fun c => mkContext (_context c) (Some socket_id)) ;;;
      Context_set self (fun c => mkContext (Some 0%Z) (context_socket c)) ;;;
      ctx_native (Nng_ctx_open sock r_open) ;;;
      (if (r_open =? 0)%Z
       then Context_set self (fun c => mkContext (Some opened) (context_socket c))
       else ret tt) ;;;
      check_err r_open ;;;
      h <~ Context_context self ;;
      if (nng_ctx_id h =? -1)%Z then raise AssertionError else ret tt
  end.

(** [Context(socket)]: a new object, initialised, returned by reference. *)
Definition Context_new `{NngCtxLib} (socket : option (Z * Z)) (r_open opened : Z)
    : M Contexts nat :=
  self <~ (fun s => (Ok (length (contexts s)),
                     mkContexts (contexts s ++ [mkContext None None]) (ctx_calls s))) ;;
  Context___init__ self socket r_open opened ;;;
  ret self.

(** [Context._free()]; [r_close] is the code of [nng_ctx_close]. *)
Definition Context__free `{NngCtxLib} (self : nat) (r_close : Z) : M Contexts unit :=
  c <~ Context_get self _context ;;
  match c with
  | None => ret tt
  | Some h =>
      if (nng_ctx_id h =? -1)%Z then ret tt
      else
        ctx_native (Nng_ctx_close h r_close) ;;;
        Context_set self (fun c => mkContext None (context_socket c)) ;;;
        check_err r_close
  end.

(** [Context.__exit__] and [Context.__del__] *)
Definition Context___exit__ `{NngCtxLib} (self : nat) (r_close : Z) : M Contexts unit :=
  Context__free self r_close.

Definition Context___del__ `{NngCtxLib} (self : nat) (r_close : Z) : M Contexts unit :=
  Context__free self r_close.

(** [Socket.new_context()] of the socket [socket_id] with handle [sock]. *)
Definition Socket_new_context `{NngCtxLib} (socket_id sock : Z) (r_open opened : Z)
    : M Contexts nat :=
  Context_new (Some (socket_id, sock)) r_open opened.

(** [Socket.new_contexts(n)]: [[self.new_context() for _ in range(n)]], the
    engine answering the [n] calls of [nng_ctx_open] with [answers]. *)
Fixpoint Socket_new_contexts `{NngCtxLib} (socket_id sock : Z) (answers : list (Z * Z))
    : M Contexts (list nat) :=
  match answers with
  | [] => ret []
  | (r_open, opened) :: rest =>
      c <~ Socket_new_context socket_id sock r_open opened ;;
      cs <~ Socket_new_contexts socket_id sock rest ;;
      ret (c :: cs)
  end.

(** Releasing the context [self] again and again, by [__exit__], [__del__] or
    [_free()], the engine answering the closes with [answers]; what each
    call raises goes to its caller. *)
Definition release_all `{NngCtxLib} (self : nat) (answers : list Z) (s : Contexts) : Contexts :=
  foldl (fun s r => (Context__free self r s).2) s answers.

(** Collecting the context objects [from], [from + 1], ..., each by its
    [__del__]. *)
Fixpoint collect_from `{NngCtxLib} (from : nat) (answers : list Z) (s : Contexts) : Contexts :=
  match answers with
  | [] => s
  | r :: rest => collect_from (S from) rest (Context___del__ from r s).2
  end.

(** The nng library: a context id is positive, and a zeroed struct names no
    context. *)
Definition nng_ctx_1 : NngCtxLib :=
  {| nng_ctx_id := fun c => if (0 <? c)%Z then c else (-1)%Z |}.

(** The object holds a context of the engine that is to be closed. *)
Definition holds_context `{NngCtxLib} (c : Context) : bool :=
  match _context c with
  | Some h => negb (nng_ctx_id h =? -1)%Z
  | None => false
  end.

(** The [nng_ctx_close] that releasing the object [c] makes, the engine
    answering [r]: one call, if the object holds a context. *)
Definition close_call `{NngCtxLib} (c : Context) (r : Z) : list ctx_call :=
  match _context c with
  | Some h => if (nng_ctx_id h =? -1)%Z then [] else [Nng_ctx_close h r]
  | None => []
  end.

(** ** Building a message: the sends that make one, and the receives *)

(** The engine calls that hand out a message or copy into one. *)
Inductive buffer_call : Type :=
| Nng_msg_alloc (rv : Z)
| Nng_msg_append (msg : Z) (len : nat) (rv : Z)
| Nng_recvmsg (sock flags rv : Z)
| Nng_ctx_recv (ctx rv : Z).

(** What a [Message] is made from: a [struct nng_msg *] that the engine
    handed out, or bytes to copy. *)
Inductive msg_source : Type :=
| FromEngine (nng_msg : Z)
| FromBytes (data : list Z).

(** What the callers of the send methods pass: [str] or [bytes]. *)
Inductive payload : Type :=
| Text (s : string)
| Bytes (b : list Z).

(** A [Message] object from the moment it exists: the object and its
    engine trace, whether the attribute [_nng_msg] has been assigned yet, the
    trace of the buffer calls, and the pipe ids that [logger.warning] was
    called with. *)
Record NewMessage : Type := mkNewMessage {
  message : MsgSt;
  has_nng_msg : bool;
  buffer_calls : list buffer_call;
  warnings : list Z
}.

(** A method of the message, run on the object. *)
Definition on_message {A} (m : M MsgSt A) : M NewMessage A :=
  fun n => ((m (message n)).1,
            mkNewMessage (m (message n)).2 (has_nng_msg n) (buffer_calls n) (warnings n)).

Definition buffer_native (c : buffer_call) : M NewMessage unit :=
  modify (fun n => mkNewMessage (message n) (has_nng_msg n) (buffer_calls n ++ [c]) (warnings n)).

(** [logger.warning("Could not associate msg with pipe (pipe_id == %d)", pipe_id)] *)
Definition logger_warning (pipe_id : Z) : M NewMessage unit :=
  modify (fun n => mkNewMessage (message n) (has_nng_msg n) (buffer_calls n)
                                (warnings n ++ [pipe_id])).

(** [self._nng_msg = h] *)
Definition assign_nng_msg (h : Z) : M NewMessage unit :=
  modify (fun n =>
    mkNewMessage
      (mkMsgSt (mkMessage (_mem_freed (msg (message n))) (_mem_freed_lock (msg (message n)))
                          h (_pipe (msg (message n))))
               (msg_calls (message n)))
      true (buffer_calls n) (warnings n)).

(** The object [Message(...)] starts from, with the engine trace so far. *)
Definition blank_message (calls : list native_call) (bufs : list buffer_call) : NewMessage :=
  mkNewMessage (mkMsgSt (mkMessage false false 0 None) calls) false bufs [].

(** [Message.__init__(data, pipe)].  [r_alloc] and [r_append] are the codes
    of [nng_msg_alloc], which on success has handed out [allocated], and of
    [nng_msg_append]; [r_set] is the code of [nng_msg_set_pipe]. *)
Definition Message___init__ (data : msg_source) (pipe : pyval)
    (r_alloc allocated r_append r_set : Z) : M NewMessage unit :=
  on_message (modify (set_mem_freed false)) ;;;
  on_message (modify (set_mem_freed_lock false)) ;;;
  match data with
  | FromEngine h => assign_nng_msg h
  | FromBytes bytes =>
      buffer_native (Nng_msg_alloc r_alloc) ;;;
      check_err r_alloc ;;;
      buffer_native (Nng_msg_append allocated (length bytes) r_append) ;;;
      check_err r_append ;;;
      assign_nng_msg allocated
  end ;;;
  match pipe with
  | PyNone => on_message (modify (set_pipe None))
  | _ => on_message (Message_pipe_setter pipe r_set)
  end.

(** [Message.__del__] on an object whose constructor may not have come to
    assign [_nng_msg]: the attribute is read in the branch that frees. *)
Definition Message___del___of_new : M NewMessage unit :=
  fun n =>
    if has_nng_msg n then on_message Message___del__ n
    else
      on_message
        (with_mem_freed_lock (
           freed <~ gets (fun st => _mem_freed (msg st)) ;;
           if freed then ret tt else raise AttributeError)) n.

(** The module's [_ensure_can_send(thing)] *)
Definition _ensure_can_send {S} (thing : payload) : M S unit :=
  match thing with
  | Text _ => raise ValueError
  | Bytes _ => ret tt
  end.

(** [Context.send(data)]: [_ensure_can_send(data)], [msg = Message(data)],
    [self.send_msg(msg)]; only [bytes] get past the first.  The answers of
    the engine are those of [Message.__init__] and of [Context.send_msg]. *)
Definition Context_send (data : payload) (ctx : Z) (r_msg_alloc allocated r_append : Z)
    (r_alloc r_set r_send r_wait r_result : Z) : M NewMessage unit :=
  _ensure_can_send data ;;;
  match data with
  | Text _ => ret tt
  | Bytes b =>
      Message___init__ (FromBytes b) PyNone r_msg_alloc allocated r_append 0 ;;;
      on_message (Context_send_msg ctx r_alloc r_set r_send r_wait r_result)
  end.

(** [Pipe.send(data)] of the pipe object [self] on the socket with the native
    handle [sock]: [Message(data, self)], then [self.socket.send_msg(msg)]. *)
Definition Pipe_send `{NngLib} (data : payload) (self : nat) (sock : Z)
    (r_msg_alloc allocated r_append r_set r_send : Z) : M NewMessage unit :=
  _ensure_can_send data ;;;
  match data with
  | Text _ => ret tt
  | Bytes b =>
      Message___init__ (FromBytes b) (PyPipe self) r_msg_alloc allocated r_append r_set ;;;
      on_message (Socket_send_msg sock true r_send)
  end.

(** [Socket._try_associate_msg_with_pipe(msg)].  [table] is the socket's
    [_pipes] when the method runs, [lib_pipe] the engine's answer to
    [nng_msg_get_pipe(msg._nng_msg)], and [r_set] the code of
    [nng_msg_set_pipe]. *)
Definition Socket__try_associate_msg_with_pipe `{NngLib} (table : gmap Z nat)
    (lib_pipe r_set : Z) : M NewMessage unit :=
  let pipe_id := nng_pipe_id lib_pipe in
  try_except
    (match table !! pipe_id with
     | Some pipe => on_message (Message_pipe_setter (PyPipe pipe) r_set)
     | None => raise KeyError
     end)
    is_KeyError
    (fun _ => if (0 <=? pipe_id)%Z then logger_warning pipe_id else ret tt).

(** [Socket.recv_msg(block)] on the socket with the native handle [sock]; on
    success the engine has handed out the message [received].  The message
    returned is the object of the state. *)
Definition Socket_recv_msg `{NngLib} (table : gmap Z nat) (sock : Z) (block : bool)
    (r_recv received lib_pipe r_set : Z) : M NewMessage unit :=
  let flags := 0%Z in
  let flags := if negb block then Z.lor flags NNG_FLAG_NONBLOCK else flags in
  buffer_native (Nng_recvmsg sock flags r_recv) ;;;
  check_err r_recv ;;;
  Message___init__ (FromEngine received) PyNone 0 0 0 0 ;;;
  Socket__try_associate_msg_with_pipe table lib_pipe r_set.

(** [Context.recv_msg()] on the context with the native handle [ctx], whose
    socket has the pipe table [table]. *)
Definition Context_recv_msg `{NngLib} (table : gmap Z nat) (ctx : Z)
    (r_alloc r_recv r_wait r_result received lib_pipe r_set : Z) : M NewMessage unit :=
  on_message (msg_native (Nng_aio_alloc r_alloc)) ;;;
  check_err r_alloc ;;;
  try_finally (
    buffer_native (Nng_ctx_recv ctx r_recv) ;;;
    check_err r_recv ;;;
    on_message (msg_native (Nng_aio_wait r_wait)) ;;;
    check_err r_wait ;;;
    on_message (msg_native (Nng_aio_result r_result)) ;;;
    check_err r_result ;;;
    Message___init__ (FromEngine received) PyNone 0 0 0 0 ;;;
    Socket__try_associate_msg_with_pipe table lib_pipe r_set)
  (on_message (msg_native Nng_aio_free)).

(** [Context.recv()]: [self.recv_msg().bytes]; [body] is the content of the
    message received. *)
Definition Context_recv `{NngLib} (table : gmap Z nat) (ctx : Z)
    (r_alloc r_recv r_wait r_result received lib_pipe r_set : Z) (body : list Z)
    : M NewMessage (list Z) :=
  Context_recv_msg table ctx r_alloc r_recv r_wait r_result received lib_pipe r_set ;;;
  on_message (Message_bytes body).

(** * Messages: one disposal, whatever the threads do *)

Section MessageFacts.
Context `{NngLib}.

Lemma disposals_snoc calls c :
  disposals (calls ++ [c]) = (disposals calls + b2n (gives_up_buffer c))%nat.
Proof.
  unfold disposals. rewrite filter_app, length_app. f_equal.
  destruct (gives_up_buffer c) eqn:E; simpl.
  - rewrite filter_cons_True by done. reflexivity.
  - rewrite filter_cons_False by (rewrite E; done). reflexivity.
Qed.

Lemma suffix_cons_cases {A} (l : list A) x p :
  l `suffix_of` x :: p -> l = x :: p \/ l `suffix_of` p.
Proof.
  destruct l as [ | y l]; [ right; apply suffix_nil | apply suffix_cons_inv ].
Qed.

Ltac suffix_cases Hs :=
  repeat (apply suffix_cons_cases in Hs; destruct Hs as [Hs | Hs]; [ | ]);
  try (apply suffix_nil_inv in Hs).

Ltac solve_suffix :=
  simpl; repeat match goal with |- context [if ?b then _ else _] => destruct b end;
  first [ apply suffix_nil | reflexivity | apply suffix_cons_r; solve_suffix ].

(* one step of a thread in its critical section *)
Lemma holder_step st op code e st' th' :
  code `suffix_of` program op ->
  in_critical_section (mkThread code e) = true ->
  _mem_freed_lock (msg st) = true ->
  holder_ok st code ->
  (op = OpDel -> del_done code = true -> _mem_freed (msg st) = true) ->
  thread_step st (mkThread code e) = Some (st', th') ->
  th_code th' `suffix_of` program op /\
  (_mem_freed (msg st) = true -> _mem_freed (msg st') = true) /\
  (op = OpDel -> del_done (th_code th') = true -> _mem_freed (msg st') = true) /\
  ((in_critical_section th' = true /\ _mem_freed_lock (msg st') = true /\ holder_ok st' (th_code th'))
   \/ (th_code th' = [] /\ _mem_freed_lock (msg st') = false
       /\ disposals (msg_calls st') = b2n (_mem_freed (msg st')))).
Proof.
  intros Hs Hcs Hl Hok Hdel Hstep.
  destruct st as [[f l h p] calls]. simpl in Hl. subst l.
  destruct op as [ | sock [|] rv | ctx r0 r1 r2 r3 r4]; simpl in Hs.
  all: suffix_cases Hs; subst code; try discriminate Hcs.
  all: unfold thread_step, exec_instr, Message__ensure_can_send, bind, gets, modify,
         msg_native, ret, raise, check_err in Hstep; simpl in Hstep.
  all: repeat match type of Hstep with
       | context [(?r =? 0)%Z] => destruct (Z.eqb_spec r 0); simpl in Hstep
       | context [if ?b then _ else _] => destruct b eqn:?; simpl in Hstep
       end.
  all: inversion Hstep; subst; clear Hstep; simpl.
  all: unfold holder_ok in *; simpl in *; rewrite ?disposals_snoc; simpl.
  all: repeat match goal with
       | |- context [(?r =? 0)%Z] => destruct (Z.eqb_spec r 0); simpl; try congruence
       end.
  all: destruct Hok as [Hok1 Hok2].
  all: split; [ solve_suffix | ].
  all: try (destruct f; simpl in *; try discriminate; try (specialize (Hok2 eq_refl); discriminate)).
  all: try (specialize (Hdel eq_refl eq_refl); discriminate).
  all: repeat split; try done; try lia.
  all: try (left; repeat split; try done; lia).
  all: try (right; repeat split; try done; lia).
Qed.

Lemma outside_cases op code :
  code `suffix_of` program op ->
  in_critical_section (mkThread code None) = false ->
  code = program op \/ code = [].
Proof.
  intros Hs Hcs.
  destruct op as [ | sock [|] rv | ctx r0 r1 r2 r3 r4]; simpl in Hs.
  all: suffix_cases Hs; subst code; try discriminate Hcs; auto.
Qed.

Lemma in_critical_section_code th e :
  in_critical_section th = in_critical_section (mkThread (th_code th) e).
Proof. reflexivity. Qed.

Lemma program_head op : exists c k, program op = IAcquire :: c :: k
  /\ (c = IIfFreedReturn \/ c = IEnsureCanSend) /\ k <> [].
Proof. destruct op; simpl; do 2 eexists; repeat split; auto. Qed.

Lemma inv_initial h p ops : inv ops (initial h p ops).
Proof.
  unfold inv, initial; simpl. split; [ by rewrite length_map | ].
  split.
  - intros i op th Hop Hth. rewrite list_lookup_fmap, Hop in Hth.
    inversion Hth; subst. split; simpl; [ done | ].
    intros _. destruct (program_head op) as (c & k & -> & _ & Hk). simpl.
    destruct k; [ done | discriminate ].
  - split; [ | reflexivity ].
    intros j th Hth. rewrite list_lookup_fmap in Hth.
    destruct (ops !! j) as [op|]; [ | discriminate ].
    inversion Hth; subst. unfold in_critical_section, start; simpl.
    destruct (program_head op) as (c & k & -> & _). reflexivity.
Qed.

Lemma inv_step ops i c : inv ops c -> inv ops (sched_step i c).
Proof.
  destruct c as [st ths]. intros (Hlen & Hth & Hlock); simpl in *.
  unfold sched_step; simpl.
  destruct (ths !! i) as [th|] eqn:Hi; [ | exact (conj Hlen (conj Hth Hlock)) ].
  destruct (thread_step st th) as [[st' th']|] eqn:Hstep; [ | exact (conj Hlen (conj Hth Hlock)) ].
  assert (exists op, ops !! i = Some op) as [op Hop].
  { apply lookup_lt_is_Some. rewrite <- Hlen. eapply lookup_lt_Some; eauto. }
  destruct (Hth i op th Hop Hi) as [Hsuf Hdel].
  assert (Hi_lt : (i < length ths)%nat) by (eapply lookup_lt_Some; eauto).
  destruct (in_critical_section th) eqn:Hcs.
  - destruct (_mem_freed_lock (msg st)) eqn:Hl.
    2: { destruct Hlock as [Hnone _]. rewrite (Hnone i th Hi) in Hcs. done. }
    destruct Hlock as (h & thh & Hh & Hcsh & Hok & Hothers).
    assert (i = h) as <-.
    { destruct (decide (i = h)) as [ | Hne]; [ done | ].
      rewrite (Hothers i th Hne Hi) in Hcs. done. }
    rewrite Hi in Hh; inversion Hh; subst thh; clear Hh.
    destruct th as [code e]; simpl in *.
    destruct (holder_step st op code e st' th' Hsuf Hcs Hl Hok Hdel Hstep)
      as (Hsuf' & Hmono & Hdel' & Hcase).
    unfold inv; simpl. split; [ by rewrite length_insert | ].
    split.
    + intros j opj thj Hopj Hthj.
      destruct (decide (i = j)) as [<- | Hne].
      * rewrite list_lookup_insert_eq in Hthj by done. inversion Hthj; subst thj.
        rewrite Hop in Hopj; inversion Hopj; subst opj. split; done.
      * rewrite list_lookup_insert_ne in Hthj by done.
        destruct (Hth j opj thj Hopj Hthj) as [Hs1 Hd1]. split; [ done | ].
        intros Ho Hd. apply Hmono. by apply Hd1.
    + destruct Hcase as [(Hcs' & Hl' & Hok') | (Hnil & Hl' & Hd')].
      * rewrite Hl'. exists i, th'. rewrite list_lookup_insert_eq by done.
        repeat split; try done.
        intros j thj Hne Hthj. rewrite list_lookup_insert_ne in Hthj by done.
        by apply (Hothers j thj).
      * rewrite Hl'. split; [ | done ].
        intros j thj Hthj.
        destruct (decide (i = j)) as [<- | Hne].
        -- rewrite list_lookup_insert_eq in Hthj by done. inversion Hthj; subst thj.
           unfold in_critical_section. by rewrite Hnil.
        -- rewrite list_lookup_insert_ne in Hthj by done. by apply (Hothers j thj).
  - destruct th as [code e]; simpl in *.
    destruct (outside_cases op code Hsuf Hcs) as [-> | ->]; [ | discriminate Hstep ].
    destruct (program_head op) as (c & k & Hk & Hc & Hknil).
    unfold thread_step in Hstep; simpl in Hstep. rewrite Hk in Hstep.
    destruct (_mem_freed_lock (msg st)) eqn:Hl; [ discriminate | ].
    inversion Hstep; subst st' th'; clear Hstep.
    destruct Hlock as [Hnone Hdisp].
    unfold inv; simpl. split; [ by rewrite length_insert | ].
    split.
    + intros j opj thj Hopj Hthj.
      destruct (decide (i = j)) as [<- | Hne].
      * rewrite list_lookup_insert_eq in Hthj by done. inversion Hthj; subst thj.
        rewrite Hop in Hopj; inversion Hopj; subst opj. split; simpl.
        -- rewrite Hk. by apply suffix_cons_r.
        -- intros _ Hd. destruct Hc as [-> | ->]; destruct k; done.
      * rewrite list_lookup_insert_ne in Hthj by done.
        destruct (Hth j opj thj Hopj Hthj) as [Hs1 Hd1]. split; [ done | ].
        destruct st as [[f l h p] calls]; simpl in *. done.
    + destruct st as [[f l h p] calls]; simpl in *.
      exists i, (mkThread (c :: k) e). rewrite list_lookup_insert_eq by done.
      split; [ done | ]. split; [ by destruct Hc as [-> | ->] | ].
      split.
      * unfold holder_ok; simpl. destruct Hc as [-> | ->]; simpl; by split.
      * intros j thj Hne Hthj. rewrite list_lookup_insert_ne in Hthj by done.
        by apply (Hnone j thj).
Qed.

Lemma inv_run ops sched c : inv ops c -> inv ops (run_schedule sched c).
Proof.
  revert c. induction sched as [ | i sched IH]; intros c Hc; simpl; [ done | ].
  apply IH. by apply inv_step.
Qed.

Lemma frees_le_disposals calls : (frees calls <= disposals calls)%nat.
Proof.
  unfold frees, disposals. induction calls as [ | c calls IH]; simpl; [ done | ].
  rewrite !filter_cons.
  destruct (decide (is_msg_free c = true)) as [Hf | Hf];
    destruct (decide (gives_up_buffer c = true)) as [Hg | Hg]; simpl; try lia.
  destruct c; simpl in *; done.
Qed.

Lemma inv_disposals ops c : inv ops c -> (disposals (msg_calls c.1) <= 1)%nat.
Proof.
  destruct c as [st ths]. intros (_ & _ & Hlock); simpl in *.
  destruct (_mem_freed_lock (msg st)).
  - destruct Hlock as (i & th & _ & _ & Hok & _).
    unfold holder_ok in Hok. destruct (th_code th) as [ | [] k]; destruct Hok as [Hd1 Hd2];
      try lia; rewrite Hd1; destruct (_mem_freed (msg st)); simpl; lia.
  - destruct Hlock as [_ ->]. destruct (_mem_freed (msg st)); simpl; lia.
Qed.

Lemma inv_del_finished ops c i th :
  inv ops c -> ops !! i = Some OpDel -> c.2 !! i = Some th -> finished th = true ->
  disposals (msg_calls c.1) = 1%nat.
Proof.
  destruct c as [st ths]. intros (_ & Hth & Hlock) Hop Hi Hfin; simpl in *.
  destruct (Hth i OpDel th Hop Hi) as [_ Hdel].
  assert (Hf : _mem_freed (msg st) = true).
  { apply Hdel; [ done | ]. unfold finished in Hfin. by destruct (th_code th). }
  destruct (_mem_freed_lock (msg st)).
  - destruct Hlock as (j & thj & _ & _ & Hok & _).
    unfold holder_ok in Hok. rewrite Hf in Hok.
    destruct (th_code thj) as [ | [] k]; destruct Hok as [Hd1 Hd2]; done.
  - destruct Hlock as [_ ->]. by rewrite Hf.
Qed.

Lemma inv_mutex ops c i th :
  inv ops c -> c.2 !! i = Some th -> in_critical_section th = true ->
  _mem_freed_lock (msg c.1) = true
  /\ forall j th', j <> i -> c.2 !! j = Some th' -> thread_step c.1 th' = None.
Proof.
  destruct c as [st ths]. intros (Hlen & Hth & Hlock) Hi Hcs; simpl in *.
  destruct (_mem_freed_lock (msg st)) eqn:Hl.
  2: { destruct Hlock as [Hnone _]. rewrite (Hnone i th Hi) in Hcs. done. }
  split; [ done | ].
  destruct Hlock as (h & thh & Hh & Hcsh & Hok & Hothers).
  assert (i = h) as <-.
  { destruct (decide (i = h)) as [ | Hne]; [ done | ].
    rewrite (Hothers i th Hne Hi) in Hcs. done. }
  intros j thj Hne Hj.
  assert (exists op, ops !! j = Some op) as [op Hop].
  { apply lookup_lt_is_Some. rewrite <- Hlen. eapply lookup_lt_Some; eauto. }
  destruct (Hth j op thj Hop Hj) as [Hsuf _].
  specialize (Hothers j thj Hne Hj).
  destruct thj as [code e]; simpl in *.
  destruct (outside_cases op code Hsuf Hothers) as [-> | ->]; [ | done ].
  destruct (program_head op) as (c & k & -> & _).
  unfold thread_step; simpl. by rewrite Hl.
Qed.

Ltac msg_unfold :=
  unfold Socket_send_msg, Context_send_msg, Socket_asend_msg, Context_asend_msg,
    Message___del__, Message_pipe_setter, with_mem_freed_lock, with_lock, try_finally,
    bind, gets, modify, msg_native, Message__ensure_can_send, ret, raise, check_err;
  simpl.

Ltac case_codes :=
  repeat match goal with
  | |- context [(?r =? 0)%Z] => destruct (Z.eqb_spec r 0); simpl; try congruence
  end.

Lemma run_alone_agrees op st :
  _mem_freed_lock (msg st) = false ->
  run_alone (length (program op)) st (start op)
  = match op with
    | OpDel => ((Message___del__ st).2, mkThread [] (exc_of (Message___del__ st).1))
    | OpSocketSend sock block rv =>
        ((Socket_send_msg sock block rv st).2,
         mkThread [] (exc_of (Socket_send_msg sock block rv st).1))
    | OpContextSend ctx r0 r1 r2 r3 r4 =>
        ((Context_send_msg ctx r0 r1 r2 r3 r4 st).2,
         mkThread [] (exc_of (Context_send_msg ctx r0 r1 r2 r3 r4 st).1))
    end.
Proof.
  destruct st as [[f l h p] calls]; simpl. intros ->.
  destruct op as [ | sock [|] rv | ctx r0 r1 r2 r3 r4]; destruct f; msg_unfold.
  all: unfold thread_step, exec_instr; msg_unfold; case_codes; try reflexivity.
Qed.

Lemma frees_snoc calls c :
  frees (calls ++ [c]) = (frees calls + b2n (is_msg_free c))%nat.
Proof.
  unfold frees. rewrite filter_app, length_app. f_equal.
  destruct (is_msg_free c) eqn:E; simpl.
  - rewrite filter_cons_True by done. reflexivity.
  - rewrite filter_cons_False by (rewrite E; done). reflexivity.
Qed.

Lemma unlocked_eta st :
  _mem_freed_lock (msg st) = false ->
  set_mem_freed_lock false (set_mem_freed_lock true st) = st.
Proof. destruct st as [[f l h p] calls]; simpl. by intros ->. Qed.

Lemma send_on_freed st (body : M MsgSt unit) :
  _mem_freed (msg st) = true -> _mem_freed_lock (msg st) = false ->
  with_mem_freed_lock (Message__ensure_can_send ;;; body) st = (Raise MessageStateError, st).
Proof.
  destruct st as [[f l h p] calls]; simpl. intros -> ->. reflexivity.
Qed.

(** C2. [Message.__del__] on a message that is already disposed does
    nothing; on one that is not, it frees the buffer once and sets the flag.
    Its steps are taken with the lock held, and in every schedule of threads
    that send, free or collect the same message the buffer is given away at
    most once, and exactly once as soon as one [__del__] has finished. *)
Theorem C2_disposal_exactly_once :
  (forall st, _mem_freed (msg st) = true -> _mem_freed_lock (msg st) = false ->
     Message___del__ st = (Ok tt, st))
  /\ (forall st, _mem_freed (msg st) = false -> _mem_freed_lock (msg st) = false ->
     Message___del__ st =
     (Ok tt, mkMsgSt (mkMessage true false (_nng_msg (msg st)) (_pipe (msg st)))
                     (msg_calls st ++ [Nng_msg_free (_nng_msg (msg st))])))
  /\ (forall st, _mem_freed_lock (msg st) = false ->
     run_alone 5 st (start OpDel) = ((Message___del__ st).2, mkThread [] None))
  /\ (forall h p ops sched,
     let c := run_schedule sched (initial h p ops) in
     (disposals (msg_calls c.1) <= 1)%nat
     /\ (frees (msg_calls c.1) <= 1)%nat
     /\ (forall i th, ops !! i = Some OpDel -> c.2 !! i = Some th -> finished th = true ->
           disposals (msg_calls c.1) = 1%nat)
     /\ (forall i th, c.2 !! i = Some th -> in_critical_section th = true ->
           _mem_freed_lock (msg c.1) = true
           /\ forall j th', j <> i -> c.2 !! j = Some th' -> thread_step c.1 th' = None)).
Proof.
  split; [ | split; [ | split ] ].
  - intros [[f l h p] calls]; simpl. intros -> ->. reflexivity.
  - intros [[f l h p] calls]; simpl. intros -> ->. reflexivity.
  - intros st Hl. pose proof (run_alone_agrees OpDel st Hl) as Ha.
    change (length (program OpDel)) with 5%nat in Ha. rewrite Ha. f_equal. f_equal.
    destruct st as [[[|] l h p] calls]; simpl in *; subst; reflexivity.
  - intros h p ops sched c.
    assert (Hinv : inv ops c) by apply inv_run, inv_initial.
    split; [ by eapply inv_disposals | ].
    split; [ etransitivity; [ apply frees_le_disposals | by eapply inv_disposals ] | ].
    split.
    + intros i th Hop Hi Hfin. by eapply inv_del_finished.
    + intros i th Hi Hcs. by eapply inv_mutex.
Qed.

(* the asynchronous sends, step by step *)

Lemma exec_instr_keeps_lock i st :
  lock_step i = false ->
  _mem_freed_lock (msg (exec_instr i st).2) = _mem_freed_lock (msg st)
  /\ (exec_instr i st).1 <> Hang.
Proof.
  intros Hi. destruct st as [[f l h p] calls].
  destruct i; try discriminate Hi; simpl;
    repeat progress
      (unfold bind, gets, modify, msg_native, ret, raise, check_err, Message__ensure_can_send;
       simpl);
    repeat match goal with
    | |- context [(?r =? 0)%Z] => destruct (r =? 0)%Z; simpl
    | |- context [if ?b then _ else _] => destruct b; simpl
    end; done.
Qed.

Lemma thread_step_inside i k e st :
  lock_step i = false ->
  thread_step st (mkThread (i :: k) e)
  = match exec_instr i st with
    | (Ok true, st') => Some (st', mkThread k e)
    | (Ok false, st') => Some (st', mkThread (unwind 0 k) e)
    | (Raise e', st') => Some (st', mkThread (unwind 0 k) (Some e'))
    | (Hang, _) => None
    end.
Proof. intros Hi. destruct i; try discriminate Hi; reflexivity. Qed.

Lemma unwind_lock_free d k : lock_free k -> lock_free (unwind d k).
Proof.
  intros Hk. revert d. induction Hk as [ | i k Hi Hk IH]; intros d; simpl; [ constructor | ].
  destruct i; try discriminate Hi; try apply IH.
  destruct d; [ by constructor | apply IH ].
Qed.

Lemma unwind_release d k :
  lock_free k -> unwind d (k ++ [IRelease]) = unwind d k ++ [IRelease].
Proof.
  intros Hk. revert d. induction Hk as [ | i k Hi Hk IH]; intros d; simpl; [ done | ].
  destruct i; try discriminate Hi; try apply IH.
  destruct d; [ done | apply IH ].
Qed.

Lemma inside_critical body e :
  lock_free body -> in_critical_section (mkThread (body ++ [IRelease]) e) = true.
Proof.
  intros Hb. destruct Hb as [ | i k Hi Hk]; [ done | ]. simpl.
  unfold in_critical_section; simpl. by destruct i.
Qed.

Lemma stage_critical code e :
  stage code -> in_critical_section (mkThread code e) = true ->
  exists body, code = body ++ [IRelease] /\ lock_free body.
Proof.
  intros [body Hb | body Hb | ] Hcs; try discriminate Hcs. by exists body.
Qed.

Lemma stage_outside code e st :
  stage code -> in_critical_section (mkThread code e) = false ->
  _mem_freed_lock (msg st) = true -> thread_step st (mkThread code e) = None.
Proof.
  intros [body Hb | body Hb | ] Hcs Hl.
  - unfold thread_step; simpl. by rewrite Hl.
  - by rewrite inside_critical in Hcs.
  - done.
Qed.

(* one step of the thread inside its block *)
Lemma inside_step body e st st' th' :
  lock_free body ->
  thread_step st (mkThread (body ++ [IRelease]) e) = Some (st', th') ->
  (stage (th_code th') /\ in_critical_section th' = true
   /\ _mem_freed_lock (msg st') = _mem_freed_lock (msg st))
  \/ (th_code th' = [] /\ _mem_freed_lock (msg st') = false).
Proof.
  intros Hb Hstep. destruct Hb as [ | i k Hi Hk]; simpl in Hstep.
  - right. destruct st as [[f l h p] calls]. inversion Hstep; subst. done.
  - left. rewrite (thread_step_inside _ _ _ _ Hi) in Hstep.
    destruct (exec_instr_keeps_lock i st Hi) as [Hlock Hnh].
    destruct (exec_instr i st) as [[[|] | e' | ] st1]; simpl in *; [ | | | done ].
    all: inversion Hstep; subst; simpl.
    + split; [ by apply stage_inside | ]. split; [ by apply inside_critical | done ].
    + rewrite (unwind_release 0 k Hk).
      split; [ apply stage_inside; by apply unwind_lock_free | ].
      split; [ apply inside_critical; by apply unwind_lock_free | done ].
    + rewrite (unwind_release 0 k Hk).
      split; [ apply stage_inside; by apply unwind_lock_free | ].
      split; [ apply inside_critical; by apply unwind_lock_free | done ].
Qed.

Lemma one_holder_step i c : one_holder c -> one_holder (sched_step i c).
Proof.
  destruct c as [st ths]. intros [Hst Hlock]; simpl in *.
  unfold sched_step; simpl.
  destruct (ths !! i) as [th | ] eqn:Hi; [ | by split ].
  destruct (thread_step st th) as [[st' th'] | ] eqn:Hstep; [ | by split ].
  assert (Hi_lt : (i < length ths)%nat) by (eapply lookup_lt_Some; eauto).
  pose proof (Hst i th Hi) as Hstage. destruct th as [code e]; simpl in *.
  destruct (in_critical_section (mkThread code e)) eqn:Hcs.
  - destruct (stage_critical code e Hstage Hcs) as (body & -> & Hb).
    destruct (_mem_freed_lock (msg st)) eqn:Hl.
    2: { by rewrite (Hlock i _ Hi) in Hcs. }
    destruct Hlock as (h & thh & Hh & Hcsh & Hothers).
    assert (i = h) as <-.
    { destruct (decide (i = h)) as [ | Hne]; [ done | ].
      by rewrite (Hothers i _ Hne Hi) in Hcs. }
    destruct (inside_step body e st st' th' Hb Hstep) as [(Hs' & Hcs' & Hl') | (Hnil & Hl')].
    + split; simpl.
      * intros j thj Hj. destruct (decide (i = j)) as [<- | Hne].
        -- rewrite list_lookup_insert_eq in Hj by done. by inversion Hj; subst.
        -- rewrite list_lookup_insert_ne in Hj by done. by apply (Hst j).
      * rewrite Hl', Hl. exists i, th'. rewrite list_lookup_insert_eq by done.
        split; [ done | ]. split; [ done | ].
        intros j thj Hne Hj. rewrite list_lookup_insert_ne in Hj by done. by apply (Hothers j).
    + split; simpl.
      * intros j thj Hj. destruct (decide (i = j)) as [<- | Hne].
        -- rewrite list_lookup_insert_eq in Hj by done. inversion Hj; subst.
           rewrite Hnil. constructor.
        -- rewrite list_lookup_insert_ne in Hj by done. by apply (Hst j).
      * rewrite Hl'. intros j thj Hj. destruct (decide (i = j)) as [<- | Hne].
        -- rewrite list_lookup_insert_eq in Hj by done. inversion Hj; subst.
           unfold in_critical_section. by rewrite Hnil.
        -- rewrite list_lookup_insert_ne in Hj by done. by apply (Hothers j).
  - destruct (_mem_freed_lock (msg st)) eqn:Hl.
    { by rewrite (stage_outside code e st Hstage Hcs Hl) in Hstep. }
    destruct Hstage as [body Hb | body Hb | ]; [ | by rewrite inside_critical in Hcs | done ].
    unfold thread_step in Hstep; simpl in Hstep. rewrite Hl in Hstep.
    inversion Hstep; subst st' th'; clear Hstep.
    split; simpl.
    + intros j thj Hj. destruct (decide (i = j)) as [<- | Hne].
      * rewrite list_lookup_insert_eq in Hj by done. inversion Hj; subst. by apply stage_inside.
      * rewrite list_lookup_insert_ne in Hj by done. by apply (Hst j).
    + destruct st as [[f l h p] calls]; simpl in *.
      exists i, (mkThread (body ++ [IRelease]) e). rewrite list_lookup_insert_eq by done.
      split; [ done | ]. split; [ by apply inside_critical | ].
      intros j thj Hne Hj. rewrite list_lookup_insert_ne in Hj by done. by apply (Hlock j).
Qed.

Lemma one_holder_run sched c : one_holder c -> one_holder (run_schedule sched c).
Proof.
  revert c. induction sched as [ | i sched IH]; intros c Hc; simpl; [ done | ].
  apply IH. by apply one_holder_step.
Qed.

Lemma forallb_all {A} (f : A -> bool) (l : list A) :
  forallb f l = true -> Forall (fun x => f x = true) l.
Proof.
  induction l as [ | x l IH]; simpl; [ constructor | ].
  intros [Hx Hl]%andb_true_iff. constructor; [ done | by apply IH ].
Qed.

Lemma helper_ok_lock_free helper : helper_ok helper = true -> lock_free helper.
Proof.
  unfold helper_ok. intros [Hf _]%andb_true_iff.
  apply forallb_all in Hf. eapply Forall_impl; [ exact Hf | ].
  intros i Hi. simpl in Hi. by destruct (lock_step i).
Qed.

Lemma sender_program_stage s : sender_ok s = true -> stage (sender_program s).
Proof.
  destruct s as [[ | sock block rv | ctx r0 r1 r2 r3 r4] | helper]; simpl; intros Hok.
  - apply (stage_waiting [IIfFreedReturn; IMsgFree; ISetFreed]). by repeat constructor.
  - apply (stage_waiting [IEnsureCanSend; ISendmsg _ _ _; ISetFreed]). by repeat constructor.
  - apply (stage_waiting [IEnsureCanSend; IAioAlloc _; ITry; IAioSetMsg _; ICtxSend _ _; ISetFreed;
                          IAioWait _; IAioResult _; IFinallyAioFree]).
    by repeat constructor.
  - apply (stage_waiting (IEnsureCanSend :: helper)). constructor; [ done | ].
    by apply helper_ok_lock_free.
Qed.

Lemma one_holder_start st senders :
  _mem_freed_lock (msg st) = false -> forallb sender_ok senders = true ->
  one_holder (senders_start st senders).
Proof.
  intros Hl Hok. unfold one_holder, senders_start; simpl. rewrite Hl.
  apply forallb_all in Hok.
  assert (Hall : forall j th, map (fun s => mkThread (sender_program s) None) senders !! j = Some th ->
                              stage (th_code th) /\ in_critical_section th = false).
  { intros j th Hj. rewrite list_lookup_fmap in Hj.
    destruct (senders !! j) as [s | ] eqn:Hs; [ | discriminate ]. inversion Hj; subst; simpl.
    assert (Hs_ok : sender_ok s = true).
    { by apply (Forall_lookup_1 _ _ _ _ Hok Hs). }
    pose proof (sender_program_stage s Hs_ok) as Hst. split; [ done | ].
    unfold in_critical_section; simpl.
    destruct s as [[ | | ] | ]; reflexivity. }
  split; intros j th Hj; by apply Hall in Hj as [? ?].
Qed.

(* the mutual exclusion of the threads on one message *)
Lemma one_holder_mutex c i th :
  one_holder c -> c.2 !! i = Some th -> in_critical_section th = true ->
  _mem_freed_lock (msg c.1) = true
  /\ forall j th', j <> i -> c.2 !! j = Some th' -> thread_step c.1 th' = None.
Proof.
  destruct c as [st ths]. intros [Hst Hlock] Hi Hcs; simpl in *.
  destruct (_mem_freed_lock (msg st)) eqn:Hl.
  2: { by rewrite (Hlock i th Hi) in Hcs. }
  split; [ done | ].
  destruct Hlock as (h & thh & Hh & Hcsh & Hothers).
  assert (i = h) as <-.
  { destruct (decide (i = h)) as [ | Hne]; [ done | ]. by rewrite (Hothers i th Hne Hi) in Hcs. }
  intros j [code e] Hne Hj. apply stage_outside; [ by apply (Hst j _ Hj) | | done ].
  by apply (Hothers j _ Hne Hj).
Qed.

Lemma run_alone_nil n st e : run_alone n st (mkThread [] e) = (st, mkThread [] e).
Proof. by destruct n. Qed.

Lemma run_alone_S n st th :
  run_alone (S n) st th
  = match thread_step st th with
    | Some (st', th') => run_alone n st' th'
    | None => (st, th)
    end.
Proof. reflexivity. Qed.

Lemma unwind_length d k : (length (unwind d k) <= length k)%nat.
Proof.
  revert d. induction k as [ | i k IH]; intros d; simpl; [ done | ].
  destruct i; simpl; try (etransitivity; [ apply IH | lia ]); try lia.
  destruct d; simpl; [ lia | etransitivity; [ apply IH | lia ] ].
Qed.

(* a thread inside its block runs the steps of the block, then releases *)
Lemma run_alone_release n k st e :
  lock_free k -> (length k <= n)%nat ->
  run_alone (S n) st (mkThread (k ++ [IRelease]) e)
  = (set_mem_freed_lock false (run_alone n st (mkThread k e)).1,
     mkThread [] (th_exc (run_alone n st (mkThread k e)).2)).
Proof.
  revert k st e. induction n as [ | n IH]; intros k st e Hk Hlen.
  - destruct k; [ | simpl in Hlen; lia ]. reflexivity.
  - destruct Hk as [ | i k Hi Hk].
    + simpl. rewrite ?run_alone_nil. reflexivity.
    + simpl in Hlen.
      change (run_alone (S (S n)) st (mkThread ((i :: k) ++ [IRelease]) e))
        with (match thread_step st (mkThread (i :: k ++ [IRelease]) e) with
              | None => (st, mkThread (i :: k ++ [IRelease]) e)
              | Some (st', th') => run_alone (S n) st' th'
              end).
      change (run_alone (S n) st (mkThread (i :: k) e))
        with (match thread_step st (mkThread (i :: k) e) with
              | None => (st, mkThread (i :: k) e)
              | Some (st', th') => run_alone n st' th'
              end).
      rewrite !(thread_step_inside _ _ _ _ Hi).
      destruct (exec_instr_keeps_lock i st Hi) as [_ Hnh].
      destruct (exec_instr i st) as [[[|] | e' | ] st1]; simpl in Hnh; [ | | | done ].
      * apply IH; [ done | lia ].
      * rewrite (unwind_release 0 k Hk).
        apply IH; [ by apply unwind_lock_free | ].
        pose proof (unwind_length 0 k). lia.
      * rewrite (unwind_release 0 k Hk).
        apply IH; [ by apply unwind_lock_free | ].
        pose proof (unwind_length 0 k). lia.
Qed.

Lemma helper_ok_block helper : helper_ok helper = true -> unwind 0 helper = [].
Proof.
  unfold helper_ok. intros [_ Hb]%andb_true_iff. by apply bool_decide_eq_true in Hb.
Qed.

(* the steps of an asynchronous send on a message that was sent *)
Lemma asend_on_freed helper st :
  _mem_freed_lock (msg st) = false -> _mem_freed (msg st) = true ->
  helper_ok helper = true ->
  run_alone 2 st (mkThread (asend_program helper) None)
  = (set_mem_freed_lock true st, mkThread [IRelease] (Some MessageStateError))
  /\ run_alone 3 st (mkThread (asend_program helper) None)
     = (st, mkThread [] (Some MessageStateError)).
Proof.
  intros Hl Hf Hok.
  pose proof (unwind_release 0 helper (helper_ok_lock_free helper Hok)) as Hu.
  rewrite (helper_ok_block helper Hok) in Hu. simpl in Hu.
  destruct st as [[f l h p] calls]; simpl in *; subst f l.
  unfold asend_program. simpl. unfold thread_step; simpl. rewrite Hu. done.
Qed.

(* the steps of an asynchronous send are the method *)
Lemma asend_agrees helper st :
  _mem_freed_lock (msg st) = false -> helper_ok helper = true ->
  run_alone (length (asend_program helper)) st (mkThread (asend_program helper) None)
  = ((Socket_asend_msg (run_code helper) st).2,
     mkThread [] (exc_of (Socket_asend_msg (run_code helper) st).1)).
Proof.
  intros Hl Hok.
  pose proof (helper_ok_lock_free helper Hok) as Hfree.
  pose proof (unwind_release 0 helper Hfree) as Hu.
  rewrite (helper_ok_block helper Hok) in Hu. simpl in Hu.
  assert (Hlen : length (asend_program helper) = S (S (S (length helper)))).
  { unfold asend_program. simpl. rewrite length_app. simpl. lia. }
  rewrite Hlen.
  destruct st as [[f l h p] calls]; simpl in Hl; subst l.
  unfold asend_program.
  change (run_alone (S (S (S (length helper))))
            (mkMsgSt (mkMessage f false h p) calls)
            (mkThread (IAcquire :: IEnsureCanSend :: helper ++ [IRelease]) None))
    with (run_alone (S (S (length helper)))
            (mkMsgSt (mkMessage f true h p) calls)
            (mkThread (IEnsureCanSend :: helper ++ [IRelease]) None)).
  unfold Socket_asend_msg, with_mem_freed_lock, with_lock, bind, Message__ensure_can_send, gets,
    raise, ret; simpl.
  destruct f; simpl; rewrite <- run_alone_S.
  - rewrite Hu.
    etransitivity; [ apply (run_alone_release (length helper) []); [ constructor | simpl; lia ] | ].
    by rewrite run_alone_nil.
  - rewrite (run_alone_release _ helper _ _ Hfree) by lia.
    unfold run_code. simpl.
    destruct (run_alone (length helper) _ _) as [st2 [code2 [e2 | ]]]; reflexivity.
Qed.

Lemma send_when_locked {A} st (body : M MsgSt A) :
  _mem_freed_lock (msg st) = true -> with_mem_freed_lock body st = (Hang, st).
Proof. intros Hl. unfold with_mem_freed_lock, with_lock. by rewrite Hl. Qed.

Lemma asend_hands_off st (aio : M MsgSt unit) :
  _mem_freed (msg st) = false -> _mem_freed_lock (msg st) = false ->
  with_mem_freed_lock (Message__ensure_can_send ;;; aio) st
  = match aio (set_mem_freed_lock true st) with
    | (Hang, st') => (Hang, st')
    | (o, st') => (o, set_mem_freed_lock false st')
    end.
Proof.
  destruct st as [[f l h p] calls]; simpl. intros -> ->.
  unfold with_mem_freed_lock, with_lock, bind, Message__ensure_can_send, gets, ret; simpl.
  reflexivity.
Qed.

(** C3. Once a message has been sent (the flag [_mem_freed] is set), every
    further send, on a socket or a context, blocking or asynchronous, raises
    [MessageStateError] and changes nothing.  Each of the four methods takes
    the lock first: it waits when the lock is taken, the check that raises
    runs with the lock held, and an asynchronous send hands the message to
    the aio helper inside the same block, right after the check, and
    releases the lock after the helper.  Step by step a send is its method;
    on a sent message the asynchronous one raises at its second step, the
    lock held, and passes the helper by.  While one thread, blocking or
    asynchronous, is between taking and releasing the lock, no other thread
    can take a step on the message. *)
Theorem C3_send_after_sent :
  (forall st sock block rv st',
     Socket_send_msg sock block rv st = (Ok tt, st') -> _mem_freed (msg st') = true)
  /\ (forall st ctx r0 r1 r2 r3 r4 st',
     Context_send_msg ctx r0 r1 r2 r3 r4 st = (Ok tt, st') -> _mem_freed (msg st') = true)
  /\ (forall st, _mem_freed (msg st) = true -> _mem_freed_lock (msg st) = false ->
     (forall sock block rv, Socket_send_msg sock block rv st = (Raise MessageStateError, st))
     /\ (forall ctx r0 r1 r2 r3 r4,
           Context_send_msg ctx r0 r1 r2 r3 r4 st = (Raise MessageStateError, st))
     /\ (forall aio, Socket_asend_msg aio st = (Raise MessageStateError, st))
     /\ (forall aio, Context_asend_msg aio st = (Raise MessageStateError, st)))
  /\ (forall st st', Message__ensure_can_send st = (Raise MessageStateError, st') ->
     _mem_freed_lock (msg st) = true /\ st' = st)
  /\ (forall sock block rv st, _mem_freed_lock (msg st) = false ->
     run_alone 5 st (start (OpSocketSend sock block rv))
     = ((Socket_send_msg sock block rv st).2,
        mkThread [] (exc_of (Socket_send_msg sock block rv st).1)))
  /\ (forall h p ops sched i th,
     let c := run_schedule sched (initial h p ops) in
     c.2 !! i = Some th -> in_critical_section th = true ->
     _mem_freed_lock (msg c.1) = true
     /\ forall j th', j <> i -> c.2 !! j = Some th' -> thread_step c.1 th' = None)
  /\ (forall st, _mem_freed_lock (msg st) = true ->
     (forall sock block rv, Socket_send_msg sock block rv st = (Hang, st))
     /\ (forall ctx r0 r1 r2 r3 r4, Context_send_msg ctx r0 r1 r2 r3 r4 st = (Hang, st))
     /\ (forall aio, Socket_asend_msg aio st = (Hang, st))
     /\ (forall aio, Context_asend_msg aio st = (Hang, st)))
  /\ (forall st aio, _mem_freed (msg st) = false -> _mem_freed_lock (msg st) = false ->
     let handed := match aio (set_mem_freed_lock true st) with
                   | (Hang, st') => (Hang, st')
                   | (o, st') => (o, set_mem_freed_lock false st')
                   end in
     Socket_asend_msg aio st = handed /\ Context_asend_msg aio st = handed)
  /\ (forall ctx r0 r1 r2 r3 r4 st, _mem_freed_lock (msg st) = false ->
     run_alone 11 st (start (OpContextSend ctx r0 r1 r2 r3 r4))
     = ((Context_send_msg ctx r0 r1 r2 r3 r4 st).2,
        mkThread [] (exc_of (Context_send_msg ctx r0 r1 r2 r3 r4 st).1)))
  /\ (forall helper st, helper_ok helper = true -> _mem_freed_lock (msg st) = false ->
     run_alone (length (asend_program helper)) st (mkThread (asend_program helper) None)
     = ((Socket_asend_msg (run_code helper) st).2,
        mkThread [] (exc_of (Socket_asend_msg (run_code helper) st).1))
     /\ run_alone (length (asend_program helper)) st (mkThread (asend_program helper) None)
        = ((Context_asend_msg (run_code helper) st).2,
           mkThread [] (exc_of (Context_asend_msg (run_code helper) st).1))
     /\ (_mem_freed (msg st) = true ->
         run_alone 2 st (mkThread (asend_program helper) None)
         = (set_mem_freed_lock true st, mkThread [IRelease] (Some MessageStateError))
         /\ run_alone 3 st (mkThread (asend_program helper) None)
            = (st, mkThread [] (Some MessageStateError))))
  /\ (forall st senders sched i th,
     _mem_freed_lock (msg st) = false -> forallb sender_ok senders = true ->
     let c := run_schedule sched (senders_start st senders) in
     c.2 !! i = Some th -> in_critical_section th = true ->
     _mem_freed_lock (msg c.1) = true
     /\ forall j th', j <> i -> c.2 !! j = Some th' -> thread_step c.1 th' = None).
Proof.
  split; [ | split; [ | split; [ | split; [ | split; [ | split; [ | split; [ | split;
    [ | split; [ | split ] ] ] ] ] ] ] ] ].
  - intros [[f l h p] calls] sock block rv st'.
    unfold Socket_send_msg, with_mem_freed_lock, with_lock, bind, gets, modify, msg_native,
      Message__ensure_can_send, ret, raise, check_err; simpl.
    destruct l, f; simpl; try discriminate.
    destruct (Z.eqb_spec rv 0); simpl; try discriminate. intros [= <-]. reflexivity.
  - intros [[f l h p] calls] ctx r0 r1 r2 r3 r4 st'.
    unfold Context_send_msg, with_mem_freed_lock, with_lock, try_finally, bind, gets, modify,
      msg_native, Message__ensure_can_send, ret, raise, check_err; simpl.
    destruct l, f; simpl; try discriminate.
    repeat match goal with
           | |- context [(?r =? 0)%Z] => destruct (Z.eqb_spec r 0); simpl; try discriminate
           end.
    intros [= <-]. reflexivity.
  - intros st Hf Hl. repeat split; intros.
    + unfold Socket_send_msg. by apply send_on_freed.
    + unfold Context_send_msg. by apply send_on_freed.
    + unfold Socket_asend_msg. by apply send_on_freed.
    + unfold Context_asend_msg. by apply send_on_freed.
  - intros [[f l h p] calls] st'.
    unfold Message__ensure_can_send, bind, gets, ret, raise; simpl.
    destruct l, f; simpl; try discriminate. intros [= <-]. done.
  - intros sock block rv st Hl.
    apply (run_alone_agrees (OpSocketSend sock block rv) st Hl).
  - intros h p ops sched i th c Hi Hcs.
    assert (Hinv : inv ops c) by apply inv_run, inv_initial.
    by eapply inv_mutex.
  - intros st Hl. repeat split; intros.
    + unfold Socket_send_msg. by apply send_when_locked.
    + unfold Context_send_msg. by apply send_when_locked.
    + unfold Socket_asend_msg. by apply send_when_locked.
    + unfold Context_asend_msg. by apply send_when_locked.
  - intros st aio Hf Hl handed.
    split; [ unfold Socket_asend_msg | unfold Context_asend_msg ]; by apply asend_hands_off.
  - intros ctx r0 r1 r2 r3 r4 st Hl.
    apply (run_alone_agrees (OpContextSend ctx r0 r1 r2 r3 r4) st Hl).
  - intros helper st Hok Hl.
    split; [ by apply asend_agrees | split; [ by apply asend_agrees | ] ].
    intros Hf. by apply asend_on_freed.
  - intros st senders sched i th Hl Hok c Hi Hcs.
    assert (Hone : one_holder c) by (apply one_holder_run; by apply one_holder_start).
    by eapply one_holder_mutex.
Qed.

(** C10. When the native send of [Socket.send_msg] fails, the error reaches
    the caller, the flag stays clear and nothing but the failed call is left
    behind, so the message can still be sent or freed; the flag is set only
    when the send succeeded.  [Context.send_msg] sets the flag once the
    send is issued, whatever the wait and the result report afterwards. *)
Theorem C10_failed_send_keeps_message :
  forall st, _mem_freed (msg st) = false -> _mem_freed_lock (msg st) = false ->
  (forall sock block rv, rv <> 0%Z ->
     exists call,
       Socket_send_msg sock block rv st
       = (Raise (NNGException rv), mkMsgSt (msg st) (msg_calls st ++ [call]))
       /\ gives_up_buffer call = false
       /\ (forall sock' block',
             exists st', Socket_send_msg sock' block' 0 (mkMsgSt (msg st) (msg_calls st ++ [call]))
                         = (Ok tt, st') /\ _mem_freed (msg st') = true)
       /\ (exists st', Message___del__ (mkMsgSt (msg st) (msg_calls st ++ [call])) = (Ok tt, st')
                       /\ _mem_freed (msg st') = true
                       /\ frees (msg_calls st') = S (frees (msg_calls st))))
  /\ (forall sock block,
     exists st', Socket_send_msg sock block 0 st = (Ok tt, st') /\ _mem_freed (msg st') = true)
  /\ (forall ctx r_wait r_result,
     exists o st',
       Context_send_msg ctx 0 0 0 r_wait r_result st = (o, st')
       /\ _mem_freed (msg st') = true
       /\ (r_wait <> 0%Z -> o = Raise (NNGException r_wait))
       /\ (r_wait = 0%Z -> r_result <> 0%Z -> o = Raise (NNGException r_result))
       /\ (r_wait = 0%Z -> r_result = 0%Z -> o = Ok tt)).
Proof.
  intros [[f l h p] calls]; simpl. intros -> ->.
  split; [ | split ].
  - intros sock block rv Hrv. eexists. msg_unfold.
    destruct (Z.eqb_spec rv 0) as [ | _]; [ done | ]. simpl.
    split; [ reflexivity | ]. split.
    { simpl. by destruct (Z.eqb_spec rv 0). }
    split.
    + intros sock' block'. eexists. msg_unfold. split; reflexivity.
    + eexists. split; [ reflexivity | ]. split; [ reflexivity | ].
      unfold set_mem_freed_lock, set_mem_freed. cbn [msg_calls].
      rewrite !frees_snoc. simpl. lia.
  - intros sock block. eexists. msg_unfold. split; reflexivity.
  - intros ctx r_wait r_result. msg_unfold.
    destruct (Z.eqb_spec r_wait 0) as [-> | Hw]; simpl.
    + destruct (Z.eqb_spec r_result 0) as [-> | Hr]; simpl.
      * do 2 eexists. split; [ reflexivity | ]. repeat split; done.
      * do 2 eexists. split; [ reflexivity | ]. repeat split; done.
    + do 2 eexists. split; [ reflexivity | ]. repeat split; done.
Qed.

(** C9, amended.  Assigning a value that is not a [Pipe] to [Message.pipe]
    raises [ValueError] (which is not a [TypeError]) and leaves the message
    as it was; assigning a [Pipe], the engine call reporting no error,
    returns and associates the message with that pipe. *)
Theorem C9_pipe_setter :
  forall v rv st,
    (isinstance_Pipe v = false ->
       Message_pipe_setter v rv st = (Raise ValueError, st)
       /\ is_TypeError ValueError = false /\ is_Exception ValueError = true)
    /\ (forall r, v = PyPipe r -> rv = 0%Z ->
          exists st', Message_pipe_setter v rv st = (Ok tt, st')
            /\ _pipe (msg st') = Some r
            /\ _mem_freed (msg st') = _mem_freed (msg st)
            /\ _mem_freed_lock (msg st') = _mem_freed_lock (msg st)
            /\ _nng_msg (msg st') = _nng_msg (msg st)
            /\ msg_calls st' = msg_calls st ++ [Nng_msg_set_pipe (_nng_msg (msg st)) 0])
    /\ (forall r, v = PyPipe r -> rv <> 0%Z ->
          exists st', Message_pipe_setter v rv st = (Raise (NNGException rv), st')
            /\ msg st' = msg st).
Proof.
  intros v rv st. split; [ | split ].
  - intros Hv. unfold Message_pipe_setter. rewrite Hv. simpl. done.
  - intros r -> ->. eexists. msg_unfold. split; [ reflexivity | ]. simpl. done.
  - intros r -> Hrv. eexists. msg_unfold.
    destruct (Z.eqb_spec rv 0); [ done | ]. simpl. split; [ reflexivity | ].
    by destruct st as [[]].
Qed.

End MessageFacts.

Lemma C2_witness :
  Message___del__ (mkMsgSt (mkMessage true false 7 None) [Nng_msg_free 7])
  = (Ok tt, mkMsgSt (mkMessage true false 7 None) [Nng_msg_free 7])
  /\ Message___del__ (fresh_message 7 None)
     = (Ok tt, mkMsgSt (mkMessage true false 7 None) [Nng_msg_free 7])
  /\ disposals (msg_calls (run_schedule [0; 1; 0; 1; 0; 1; 0; 0; 1; 1; 1]%nat
                             (initial (H := nng_1) 7 None [OpDel; OpSocketSend 1 true 0])).1)
     = 1%nat.
Proof.
  destruct (C2_disposal_exactly_once (H := nng_1)) as (H1 & H2 & _ & H4).
  split; [ apply H1; reflexivity | ].
  split; [ apply (H2 (fresh_message 7 None)); reflexivity | ].
  destruct (H4 7%Z None [OpDel; OpSocketSend 1 true 0]
              [0; 1; 0; 1; 0; 1; 0; 0; 1; 1; 1]%nat) as (_ & _ & H5 & _).
  apply (H5 0%nat (mkThread [] None)); reflexivity.
Defined.

Lemma C3_witness :
  Socket_send_msg (H := nng_1) 1 true 0 (mkMsgSt (mkMessage true false 7 None) [Nng_sendmsg 1 7 0 0])
  = (Raise MessageStateError, mkMsgSt (mkMessage true false 7 None) [Nng_sendmsg 1 7 0 0])
  /\ Context_send_msg 2 0 0 0 0 0 (mkMsgSt (mkMessage true false 7 None) [Nng_sendmsg 1 7 0 0])
     = (Raise MessageStateError, mkMsgSt (mkMessage true false 7 None) [Nng_sendmsg 1 7 0 0])
  /\ _mem_freed (msg (Socket_send_msg (H := nng_1) 1 true 0 (fresh_message 7 None)).2) = true
  /\ run_alone 2 (mkMsgSt (mkMessage true false 7 None) [Nng_sendmsg 1 7 0 0])
       (mkThread (asend_program [IAioAlloc 0; ITry; IAioSetMsg 0; ISendmsg 1 0 0; ISetFreed;
                                 IAioWait 0; IAioResult 0; IFinallyAioFree]) None)
     = (mkMsgSt (mkMessage true true 7 None) [Nng_sendmsg 1 7 0 0],
        mkThread [IRelease] (Some MessageStateError))
  /\ _mem_freed_lock
       (msg (run_schedule [0; 1; 0; 1; 1; 0]%nat
               (senders_start (H := nng_1) (fresh_message 7 None)
                  [Asend [ISendmsg 1 0 0; ISetFreed]; Blocking OpDel])).1) = true.
Proof.
  destruct (C3_send_after_sent (H := nng_1)) as (H1 & _ & H3 & _ & _ & _ & _ & _ & _ & H10 & H11).
  destruct (H3 (mkMsgSt (mkMessage true false 7 None) [Nng_sendmsg 1 7 0 0]) eq_refl eq_refl)
    as (Ha & Hb & _).
  split; [ apply Ha | ]. split; [ apply Hb | ].
  split; [ apply (H1 (fresh_message 7 None) 1%Z true 0%Z); reflexivity | ].
  split.
  - destruct (H10 [IAioAlloc 0; ITry; IAioSetMsg 0; ISendmsg 1 0 0; ISetFreed;
                   IAioWait 0; IAioResult 0; IFinallyAioFree]
                (mkMsgSt (mkMessage true false 7 None) [Nng_sendmsg 1 7 0 0])
                eq_refl eq_refl) as (_ & _ & Hsent).
    destruct (Hsent eq_refl) as [Htwo _]. exact Htwo.
  - destruct (H11 (fresh_message 7 None) [Asend [ISendmsg 1 0 0; ISetFreed]; Blocking OpDel]
                [0; 1; 0; 1; 1; 0]%nat 0%nat
                (mkThread [ISetFreed; IRelease] None) eq_refl eq_refl) as [Hlock _];
      [ reflexivity | reflexivity | exact Hlock ].
Defined.

Lemma C10_witness :
  exists call,
    Socket_send_msg (H := nng_1) 1 true 5 (fresh_message 7 None)
    = (Raise (NNGException 5), mkMsgSt (msg (fresh_message 7 None)) ([] ++ [call])).
Proof.
  destruct (C10_failed_send_keeps_message (H := nng_1) (fresh_message 7 None) eq_refl eq_refl)
    as (H1 & _).
  destruct (H1 1%Z true 5%Z ltac:(discriminate)) as (call & Hc & _).
  exists call. exact Hc.
Defined.

Lemma C9_counterexample :
  isinstance_Pipe (PyStr "pipe") = false
  /\ Message_pipe_setter (PyStr "pipe") 0 (fresh_message 7 None)
     = (Raise ValueError, fresh_message 7 None)
  /\ is_TypeError ValueError = false.
Proof. repeat split. Qed.

Lemma C9_witness :
  Message_pipe_setter PyNone 0 (fresh_message 7 None) = (Raise ValueError, fresh_message 7 None)
  /\ exists st', Message_pipe_setter (PyPipe 3) 0 (fresh_message 7 None) = (Ok tt, st')
                 /\ _pipe (msg st') = Some 3%nat.
Proof.
  destruct (C9_pipe_setter PyNone 0 (fresh_message 7 None)) as (H1 & _).
  destruct (C9_pipe_setter (PyPipe 3) 0 (fresh_message 7 None)) as (_ & H2 & _).
  split; [ apply (H1 eq_refl) | ].
  destruct (H2 3%nat eq_refl eq_refl) as (st' & Hs & Hp & _).
  exists st'. split; [ exact Hs | exact Hp ].
Defined.

(** * Invariants of monadic code *)

Section Logic.
Context {S : Type} (I : S -> Prop).

Lemma keeps_ret {A} (a : A) (V : A -> Prop) : V a -> keeps I (ret a) V.
Proof. intros Ha s Hs; simpl. split; [ done | ]. intros b [= <-]. done. Qed.

Lemma keeps_raise {A} e (V : A -> Prop) : keeps I (raise e) V.
Proof. intros s Hs; simpl. split; done. Qed.

Lemma keeps_gets {A} (f : S -> A) : keeps I (gets f) (fun _ => True).
Proof. intros s Hs; simpl. split; done. Qed.

Lemma keeps_modify (f : S -> S) (V : unit -> Prop) :
  (forall s, I s -> I (f s)) -> V tt -> keeps I (modify f) V.
Proof. intros Hf Hv s Hs; simpl. split; [ by apply Hf | ]. intros [] _. done. Qed.

Lemma keeps_weaken {A} (m : M S A) (V V' : A -> Prop) :
  keeps I m V -> (forall a, V a -> V' a) -> keeps I m V'.
Proof. intros Hm Hv s Hs. destruct (Hm s Hs) as [H1 H2]. split; [ done | ]. intros a Ha. apply Hv, H2, Ha. Qed.

Lemma keeps_bind {A B} (m : M S A) (k : A -> M S B) (V : A -> Prop) (V' : B -> Prop) :
  keeps I m V -> (forall a, V a -> keeps I (k a) V') -> keeps I (bind m k) V'.
Proof.
  intros Hm Hk s Hs. unfold bind. destruct (Hm s Hs) as [H1 H2].
  destruct (m s) as [[a | e | ] s1]; simpl in *; [ | done | done ].
  apply Hk; [ by apply H2 | done ].
Qed.

Lemma keeps_try_except {A} (body : M S A) catches handler (V : A -> Prop) :
  keeps I body V -> (forall e, keeps I (handler e) V) -> keeps I (try_except body catches handler) V.
Proof.
  intros Hb Hh s Hs. unfold try_except. destruct (Hb s Hs) as [H1 H2].
  destruct (body s) as [[a | e | ] s1]; simpl in *; [ done | | done ].
  destruct (catches e); [ by apply Hh | done ].
Qed.

Lemma keeps_try_finally {A} (body : M S A) cleanup (V : A -> Prop) :
  keeps I body V -> keeps I cleanup (fun _ => True) -> keeps I (try_finally body cleanup) V.
Proof.
  intros Hb Hc s Hs. unfold try_finally. destruct (Hb s Hs) as [H1 H2].
  destruct (body s) as [[a | e | ] s1]; simpl in *; [ | | done ].
  all: destruct (Hc s1 H1) as [H3 _]; destruct (cleanup s1) as [[[] | e' | ] s2]; simpl in *; done.
Qed.

Lemma keeps_with_lock {A} locked set_locked (body : M S A) (V : A -> Prop) :
  (forall b s, I s -> I (set_locked b s)) ->
  keeps I body V -> keeps I (with_lock locked set_locked body) V.
Proof.
  intros Hl Hb s Hs. unfold with_lock. destruct (locked s); [ done | ].
  destruct (Hb (set_locked true s) (Hl _ _ Hs)) as [H1 H2].
  destruct (body (set_locked true s)) as [[a | e | ] s1]; simpl in *; [ | | done ].
  all: split; [ by apply Hl | done ].
Qed.

Lemma keeps_check_err rv : keeps I (check_err rv) (fun _ => True).
Proof. unfold check_err. destruct (rv =? 0)%Z; [ by apply keeps_ret | apply keeps_raise ]. Qed.

Lemma keeps_read {A} (f : S -> outcome A) (V : A -> Prop) :
  keeps I (fun s => (f s, s)) (fun _ => True).
Proof. intros s Hs; simpl. done. Qed.

End Logic.

Section NoHang.
Context {S : Type}.

Lemma nohang_ret {A} (a : A) : nohang (S := S) (ret a).
Proof. intros s; simpl. done. Qed.
Lemma nohang_raise {A} e : nohang (S := S) (A := A) (raise e).
Proof. intros s; simpl. done. Qed.
Lemma nohang_gets {A} (f : S -> A) : nohang (gets f).
Proof. intros s; simpl. done. Qed.
Lemma nohang_modify (f : S -> S) : nohang (modify f).
Proof. intros s; simpl. done. Qed.
Lemma nohang_bind {A B} (m : M S A) (k : A -> M S B) :
  nohang m -> (forall a, nohang (k a)) -> nohang (bind m k).
Proof.
  intros Hm Hk s. unfold bind. specialize (Hm s).
  destruct (m s) as [[a | e | ] s1]; simpl in *; [ apply Hk | done | done ].
Qed.
Lemma nohang_try_except {A} (body : M S A) catches handler :
  nohang body -> (forall e, nohang (handler e)) -> nohang (try_except body catches handler).
Proof.
  intros Hb Hh s. unfold try_except. specialize (Hb s).
  destruct (body s) as [[a | e | ] s1]; simpl in *; [ done | | done ].
  destruct (catches e); [ apply Hh | done ].
Qed.
Lemma nohang_try_finally {A} (body : M S A) cleanup :
  nohang body -> nohang cleanup -> nohang (try_finally body cleanup).
Proof.
  intros Hb Hc s. unfold try_finally. specialize (Hb s).
  destruct (body s) as [[a | e | ] s1]; simpl in *; [ | | done ].
  all: specialize (Hc s1); destruct (cleanup s1) as [[[] | e' | ] s2]; simpl in *; done.
Qed.
Lemma nohang_check_err rv : nohang (S := S) (check_err rv).
Proof. unfold check_err. destruct (rv =? 0)%Z; [ apply nohang_ret | apply nohang_raise ]. Qed.
End NoHang.

(** * The store: callbacks and the dispatcher *)

Ltac wstep :=
  repeat progress
    (unfold Socket__remove_pipe, Socket_pipes_getitem, Socket_get, Socket_set, Pipe_closed,
       Pipe_get, logger_debug, bind, modify, ret, raise, gets, set_sockets; simpl).

Section WorldFacts.
Context `{NngLib}.

Lemma alter_known {A} (f : A -> A) (k : Z) (m : gmap Z A) x :
  m !! k = Some x -> alter f k m = <[k := f x]> m.
Proof.
  intros Hk. apply map_eq. intros j. destruct (decide (k = j)) as [<- | Hne].
  - rewrite lookup_alter_eq, lookup_insert_eq, Hk. done.
  - rewrite lookup_alter_ne, lookup_insert_ne by done. done.
Qed.

Lemma list_alter_known {A} (f : A -> A) (i : nat) (l : list A) x :
  l !! i = Some x -> alter f i l = <[i := f x]> l.
Proof.
  revert i. induction l as [ | y l IH]; intros [ | i] Hi; simpl in *; try done.
  - by inversion Hi.
  - f_equal. by apply IH.
Qed.

(* the body of a callback on a live pipe *)
Lemma run_hook_body_eq r body w p :
  pipes w !! r = Some p ->
  run_hook_body r body w =
  (match body_raises body with Some e => Raise e | None => Ok tt end,
   mkWorld (sockets w) (_live_sockets w) (<[r := closed_by p body]> (pipes w))
           (log w) (hook_calls w) (native_calls w ++ body_calls (pipe p) body)).
Proof.
  revert w p. induction body as [ | [rv | e] body IH]; intros w p Hp; simpl.
  - unfold ret, closed_by; simpl. rewrite orb_false_r, app_nil_r.
    destruct p; simpl. rewrite list_insert_id by done. by destruct w.
  - unfold bind, Pipe_close, Pipe_get, bind. rewrite Hp. unfold native, modify, check_err; simpl.
    unfold closed_by, body_closes; simpl.
    destruct (Z.eqb_spec rv 0) as [-> | Hrv]; simpl.
    + unfold ret; simpl.
      erewrite IH.
      2: { simpl. rewrite (list_alter_known _ _ _ _ Hp). apply list_lookup_insert_eq. eapply lookup_lt_Some; eauto. }
      simpl. f_equal. unfold set_pipes, add_native_call; simpl.
      rewrite (list_alter_known _ _ _ _ Hp), list_insert_insert_eq, <- app_assoc. simpl.
      unfold closed_by; simpl. rewrite !orb_true_r. done.
    + unfold raise; simpl. f_equal. rewrite orb_false_r.
      destruct p; simpl. rewrite list_insert_id by done. done.
  - unfold raise, closed_by; simpl. rewrite orb_false_r, app_nil_r.
    destruct p; simpl. rewrite list_insert_id by done. by destruct w.
Qed.

Lemma body_raises_Exception body e :
  (forall e', HRaise e' ∈ body -> is_Exception e' = true) ->
  body_raises body = Some e -> is_Exception e = true.
Proof.
  induction body as [ | [rv | e'] body IH]; intros Hall Hr; simpl in Hr; [ done | | ].
  - destruct (rv =? 0)%Z.
    + apply IH; [ | done ]. intros e' He'. apply Hall. by apply list_elem_of_further.
    + inversion Hr; subst. reflexivity.
  - inversion Hr; subst. apply Hall. apply list_elem_of_here.
Qed.

Lemma closed_by_pipe p body : pipe (closed_by p body) = pipe p.
Proof. reflexivity. Qed.

Lemma call_hook_eq ev cb r w p :
  pipes w !! r = Some p ->
  call_hook ev cb r w =
  (match body_raises (hk_body cb p) with Some e => Raise e | None => Ok tt end,
   mkWorld (sockets w) (_live_sockets w) (<[r := closed_by p (hk_body cb p)]> (pipes w))
           (log w) (hook_calls w ++ [(ev, hk_id cb, r)])
           (native_calls w ++ body_calls (pipe p) (hk_body cb p))).
Proof.
  intros Hp. unfold call_hook, bind, Pipe_get. rewrite Hp. unfold modify; simpl.
  erewrite run_hook_body_eq by (simpl; eauto). reflexivity.
Qed.

Lemma run_callbacks_eq ev text cbs r w p :
  pipes w !! r = Some p ->
  Forall raises_only_Exception cbs ->
  run_callbacks ev text cbs r w =
  (Ok tt,
   mkWorld (sockets w) (_live_sockets w)
           (<[r := (after_callbacks text cbs p).1.1]> (pipes w))
           (log w ++ (after_callbacks text cbs p).1.2)
           (hook_calls w ++ map (fun cb => (ev, hk_id cb, r)) cbs)
           (native_calls w ++ (after_callbacks text cbs p).2)).
Proof.
  revert w p. induction cbs as [ | cb cbs IH]; intros w p Hp Hall; simpl.
  - unfold ret. rewrite !app_nil_r, list_insert_id by done. by destruct w.
  - inversion Hall as [ | ? ? Hcb Hrest]; subst.
    unfold bind, try_except. rewrite (call_hook_eq _ _ _ _ _ Hp).
    assert (Hlt : (r < length (pipes w))%nat) by (eapply lookup_lt_Some; eauto).
    destruct (body_raises (hk_body cb p)) as [e | ] eqn:Hr.
    + rewrite (body_raises_Exception _ _ (Hcb p) Hr).
      unfold logger_exception, modify; simpl.
      erewrite IH; [ | simpl; by apply list_lookup_insert_eq | done ].
      simpl. rewrite list_insert_insert_eq, <- !app_assoc. reflexivity.
    + erewrite IH; [ | simpl; by apply list_lookup_insert_eq | done ].
      simpl. rewrite list_insert_insert_eq, <- !app_assoc. reflexivity.
Qed.

(* whatever the callbacks do *)
Lemma run_callbacks_any ev text cbs r w p :
  pipes w !! r = Some p ->
  exists o p' lg cs nc,
    run_callbacks ev text cbs r w =
    (o, mkWorld (sockets w) (_live_sockets w) (<[r := p']> (pipes w))
                (log w ++ lg) (hook_calls w ++ cs) (native_calls w ++ nc))
    /\ o <> Hang
    /\ Forall (fun c => c.2 = r /\ c.1.1 = ev) cs
    /\ pipe p' = pipe p /\ pipe_socket p' = pipe_socket p
    /\ (_closed p = true -> _closed p' = true).
Proof.
  revert w p. induction cbs as [ | cb cbs IH]; intros w p Hp; simpl.
  - exists (Ok tt), p, [], [], []. unfold ret. rewrite !app_nil_r, list_insert_id by done.
    destruct w; repeat split; done.
  - unfold bind, try_except. rewrite (call_hook_eq _ _ _ _ _ Hp).
    assert (Hlt : (r < length (pipes w))%nat) by (eapply lookup_lt_Some; eauto).
    set (w1 := mkWorld _ _ _ _ _ _).
    destruct (body_raises (hk_body cb p)) as [e | ] eqn:Hr.
    + destruct (is_Exception e) eqn:He.
      * unfold logger_exception, modify; simpl.
        destruct (IH (add_log (LogException text e) w1) (closed_by p (hk_body cb p)))
          as (o & p' & lg & cs & nc & Heq & Ho & Hcs & Hp1 & Hp2 & Hp3).
        { simpl. by apply list_lookup_insert_eq. }
        rewrite Heq. simpl.
        exists o, p', (LogException text e :: lg), ((ev, hk_id cb, r) :: cs),
          (body_calls (pipe p) (hk_body cb p) ++ nc).
        rewrite list_insert_insert_eq, <- !app_assoc. simpl.
        repeat split; try done.
        -- constructor; done.
        -- intros Hc. apply Hp3. simpl. by rewrite Hc.
      * exists (Raise e), (closed_by p (hk_body cb p)), [], [(ev, hk_id cb, r)],
          (body_calls (pipe p) (hk_body cb p)).
        rewrite app_nil_r. repeat split; try done.
        -- constructor; done.
        -- intros Hc. simpl. by rewrite Hc.
    + destruct (IH w1 (closed_by p (hk_body cb p)))
        as (o & p' & lg & cs & nc & Heq & Ho & Hcs & Hp1 & Hp2 & Hp3).
      { simpl. by apply list_lookup_insert_eq. }
      rewrite Heq. simpl.
      exists o, p', lg, ((ev, hk_id cb, r) :: cs),
        (body_calls (pipe p) (hk_body cb p) ++ nc).
      rewrite list_insert_insert_eq, <- !app_assoc. simpl.
      repeat split; try done.
      -- constructor; done.
      -- intros Hc. apply Hp3. simpl. by rewrite Hc.
Qed.

Lemma cb_unresolved lib_pipe event arg w :
  (forall sock, _live_sockets w !! arg = Some sock -> sockets w !! sock = None) ->
  _nng_pipe_cb lib_pipe event arg w = (Raise KeyError, w).
Proof.
  intros Hno. unfold _nng_pipe_cb, bind, live_sockets_getitem.
  destruct (_live_sockets w !! arg) as [sock | ] eqn:Hreg; [ | done ].
  by rewrite (Hno sock eq_refl).
Qed.


Lemma unlock_after s T :
  _pipe_notify_lock s = false ->
  with_pipe_notify_lock false (with_pipes T (with_pipe_notify_lock true s)) = with_pipes T s.
Proof. destruct s; simpl; intros ->; reflexivity. Qed.

Lemma unlock_after_id s :
  _pipe_notify_lock s = false ->
  with_pipe_notify_lock false (with_pipe_notify_lock true s) = s.
Proof. destruct s; simpl; intros ->; reflexivity. Qed.

Lemma with_pipes_id s : with_pipes (_pipes s) s = s.
Proof. by destruct s. Qed.

Ltac cb_enter Hreg Hs Hl :=
  unfold _nng_pipe_cb, bind at 1, live_sockets_getitem; rewrite Hreg, Hs;
  unfold with_sock_pipe_notify_lock, with_lock; rewrite Hs, Hl;
  unfold pipe_cb_locked.

Lemma relock_id (m : gmap Z Socket) sock s :
  m !! sock = Some s -> _pipe_notify_lock s = false ->
  alter (with_pipe_notify_lock false) sock (alter (with_pipe_notify_lock true) sock m) = m.
Proof.
  intros Hs Hl. rewrite (alter_known _ _ _ _ Hs).
  rewrite (alter_known _ _ _ _ (lookup_insert_eq _ _ _)), insert_insert_eq.
  rewrite unlock_after_id by done. by apply insert_id.
Qed.

Lemma cb_post_add_absent lib_pipe arg w sock s :
  _live_sockets w !! arg = Some sock -> sockets w !! sock = Some s ->
  _pipe_notify_lock s = false ->
  _pipes s !! nng_pipe_id lib_pipe = None ->
  _nng_pipe_cb lib_pipe NNG_PIPE_EV_ADD_POST arg w = (Raise KeyError, w).
Proof.
  intros Hreg Hs Hl Hr. cb_enter Hreg Hs Hl. wstep.
  rewrite (alter_known _ _ _ _ Hs), lookup_insert_eq. simpl. rewrite Hr. simpl.
  rewrite (alter_known _ _ _ _ (lookup_insert_eq _ _ _)), insert_insert_eq.
  rewrite unlock_after_id by done. rewrite insert_id by done. by destruct w.
Qed.

Lemma cb_rem_post_absent lib_pipe arg w sock s :
  _live_sockets w !! arg = Some sock -> sockets w !! sock = Some s ->
  _pipe_notify_lock s = false ->
  _pipes s !! nng_pipe_id lib_pipe = None ->
  _nng_pipe_cb lib_pipe NNG_PIPE_EV_REM_POST arg w
  = (Ok tt, add_log (LogDebug "Could not find pipe for socket") w).
Proof.
  intros Hreg Hs Hl Hr. cb_enter Hreg Hs Hl. unfold try_except. wstep.
  rewrite (alter_known _ _ _ _ Hs), lookup_insert_eq. simpl. rewrite Hr. simpl.
  rewrite (alter_known _ _ _ _ (lookup_insert_eq _ _ _)), insert_insert_eq.
  rewrite unlock_after_id by done. rewrite insert_id by done. reflexivity.
Qed.

Lemma cb_rem_post_any lib_pipe arg w sock s r p :
  _live_sockets w !! arg = Some sock -> sockets w !! sock = Some s ->
  _pipe_notify_lock s = false ->
  _pipes s !! nng_pipe_id lib_pipe = Some r -> pipes w !! r = Some p ->
  exists o p' lg cs nc,
    _nng_pipe_cb lib_pipe NNG_PIPE_EV_REM_POST arg w =
    (o, mkWorld (<[sock := with_pipes (delete (nng_pipe_id lib_pipe) (_pipes s)) s]> (sockets w))
                (_live_sockets w) (<[r := p']> (pipes w)) (log w ++ lg)
                (hook_calls w ++ cs) (native_calls w ++ nc))
    /\ o <> Hang
    /\ (Forall raises_only_Exception (_on_post_pipe_remove s) ->
        let ac := after_callbacks "Exception raised in post pipe remove callback"
                    (_on_post_pipe_remove s) p in
        o = Ok tt /\ p' = ac.1.1 /\ lg = ac.1.2 /\ nc = ac.2
        /\ cs = map (fun cb => (NNG_PIPE_EV_REM_POST, hk_id cb, r)) (_on_post_pipe_remove s)).
Proof.
  intros Hreg Hs Hl Hr Hp. cb_enter Hreg Hs Hl. unfold try_except, try_finally. wstep.
  rewrite (alter_known _ _ _ _ Hs), lookup_insert_eq. simpl. rewrite Hr. simpl.
  rewrite lookup_insert_eq. simpl.
  match goal with
  | |- context [run_callbacks ?e ?t ?c ?r0 ?w0] =>
      destruct (run_callbacks_any e t c r0 w0 p Hp)
        as (o & p' & lg & cs & nc & Heq & Ho & Hcs & _)
  end.
  exists o, p', lg, cs, nc. pose proof Heq as Heq'. rewrite Heq. simpl.
  assert (Hrest :
    Forall raises_only_Exception (_on_post_pipe_remove s) ->
    let ac := after_callbacks "Exception raised in post pipe remove callback"
                (_on_post_pipe_remove s) p in
    o = Ok tt /\ p' = ac.1.1 /\ lg = ac.1.2 /\ nc = ac.2
    /\ cs = map (fun cb => (NNG_PIPE_EV_REM_POST, hk_id cb, r)) (_on_post_pipe_remove s)).
  { intros Hall ac.
    erewrite run_callbacks_eq in Heq'; [ | simpl; exact Hp | exact Hall ]. simpl in Heq'.
    inversion Heq' as [[Ho' Hpi Hlg Hcl Hnc]].
    apply app_inv_head in Hlg, Hcl, Hnc. subst.
    repeat split; try done.
    assert (Hlt : (r < length (pipes w))%nat) by (eapply lookup_lt_Some; eauto).
    apply (f_equal (fun l => l !! r)) in Hpi.
    rewrite !list_lookup_insert_eq in Hpi by done. by inversion Hpi. }
  destruct o as [[] | e | ]; [ | | done ]; simpl.
  all: rewrite lookup_insert_eq; simpl; rewrite Hr; simpl.
  all: rewrite (alter_known _ _ _ _ (lookup_insert_eq _ _ _)), insert_insert_eq; simpl.
  all: rewrite (alter_known _ _ _ _ (lookup_insert_eq _ _ _)), insert_insert_eq.
  all: rewrite unlock_after by done.
  all: split; [ reflexivity | ]; split; [ done | exact Hrest ].
Qed.

Lemma cb_other lib_pipe n arg w sock s :
  _live_sockets w !! arg = Some sock -> sockets w !! sock = Some s ->
  _pipe_notify_lock s = false ->
  _nng_pipe_cb lib_pipe (NNG_PIPE_EV_OTHER n) arg w = (Ok tt, w).
Proof.
  intros Hreg Hs Hl. cb_enter Hreg Hs Hl. wstep.
  rewrite (relock_id _ _ _ Hs Hl). by destruct w.
Qed.

End WorldFacts.

(** * The loop over the callbacks, exactly *)

Section LoopFacts.
Context `{NngLib}.

Lemma run_callbacks_exact ev text cbs r w p :
  pipes w !! r = Some p ->
  run_callbacks ev text cbs r w =
  (loop_outcome (callbacks_loop text cbs p),
   mkWorld (sockets w) (_live_sockets w)
           (<[r := le_pipe (callbacks_loop text cbs p)]> (pipes w))
           (log w ++ le_log (callbacks_loop text cbs p))
           (hook_calls w ++ map (fun cb => (ev, hk_id cb, r)) (le_called (callbacks_loop text cbs p)))
           (native_calls w ++ le_native (callbacks_loop text cbs p))).
Proof.
  revert w p. induction cbs as [ | cb cbs IH]; intros w p Hp; simpl.
  - unfold ret, loop_outcome; simpl. rewrite !app_nil_r, list_insert_id by done. by destruct w.
  - unfold bind, try_except. rewrite (call_hook_eq _ _ _ _ _ Hp).
    assert (Hlt : (r < length (pipes w))%nat) by (eapply lookup_lt_Some; eauto).
    destruct (body_raises (hk_body cb p)) as [e | ] eqn:Hr.
    + destruct (is_Exception e) eqn:He.
      * unfold logger_exception, modify; simpl.
        erewrite IH; [ | simpl; by apply list_lookup_insert_eq ].
        unfold loop_outcome; simpl. rewrite list_insert_insert_eq, <- !app_assoc. reflexivity.
      * unfold loop_outcome; simpl. rewrite app_nil_r. reflexivity.
    + erewrite IH; [ | simpl; by apply list_lookup_insert_eq ].
      unfold loop_outcome; simpl. rewrite list_insert_insert_eq, <- !app_assoc. reflexivity.
Qed.







Ltac enter_dispatch Hreg Hs Hl :=
  unfold _nng_pipe_cb, bind at 1, live_sockets_getitem; rewrite Hreg, Hs;
  unfold with_sock_pipe_notify_lock, with_lock; rewrite Hs, Hl;
  unfold pipe_cb_locked.

Lemma cb_pre_add_exact lib_pipe arg w sock s :
  _live_sockets w !! arg = Some sock -> sockets w !! sock = Some s ->
  _pipe_notify_lock s = false ->
  let r := length (pipes w) in
  let l := callbacks_loop "Exception raised in pre pipe connect callback"
             (_on_pre_pipe_add s) (mkPipe lib_pipe sock false) in
  _nng_pipe_cb lib_pipe NNG_PIPE_EV_ADD_PRE arg w =
  (loop_outcome l,
   mkWorld (<[sock := with_pipes (table_after_pre_add l (nng_pipe_id lib_pipe) r (_pipes s)) s]>
              (sockets w))
           (_live_sockets w) (pipes w ++ [le_pipe l]) (log w ++ le_log l)
           (hook_calls w ++ map (fun cb => (NNG_PIPE_EV_ADD_PRE, hk_id cb, r)) (le_called l))
           (native_calls w ++ le_native l)).
Proof.
  intros Hreg Hs Hl r l. enter_dispatch Hreg Hs Hl.
  unfold Socket__add_pipe, Pipe___init__. wstep.
  rewrite (alter_known _ _ _ _ Hs).
  rewrite (alter_known _ _ _ (with_pipe_notify_lock true s)) by apply lookup_insert_eq.
  rewrite lookup_insert_eq, insert_insert_eq. simpl.
  erewrite run_callbacks_exact; [ | simpl; apply list_lookup_middle; reflexivity ].
  simpl. fold r. fold l.
  assert (Hins : <[r := le_pipe l]> (pipes w ++ [mkPipe lib_pipe sock false]) = pipes w ++ [le_pipe l]).
  { unfold r. rewrite insert_app_r_alt by lia. by rewrite Nat.sub_diag. }
  rewrite Hins. unfold loop_outcome, table_after_pre_add.
  destruct (le_raised l) as [e | ] eqn:He; simpl.
  - rewrite (alter_known _ _ _ _ (lookup_insert_eq _ _ _)), insert_insert_eq.
    f_equal. f_equal. f_equal. destruct s; simpl in *; subst; reflexivity.
  - rewrite list_lookup_middle by reflexivity. simpl.
    destruct (_closed (le_pipe l)) eqn:Hc.
    + wstep. rewrite lookup_insert_eq. simpl. rewrite lookup_insert_eq. simpl.
      rewrite (alter_known _ _ _ _ (lookup_insert_eq _ _ _)), insert_insert_eq. simpl.
      rewrite (alter_known _ _ _ _ (lookup_insert_eq _ _ _)), insert_insert_eq.
      rewrite delete_insert_eq.
      f_equal. f_equal. f_equal. destruct s; simpl in *; subst; reflexivity.
    + simpl. rewrite (alter_known _ _ _ _ (lookup_insert_eq _ _ _)), insert_insert_eq.
      f_equal. f_equal. f_equal. destruct s; simpl in *; subst; reflexivity.
Qed.



End LoopFacts.

(** * Invariants of the dispatcher and of every action *)

Section DispatcherInv.
Context `{NngLib}.
Variable I : World -> Prop.
Variable okref : nat -> Prop.
Hypothesis I_log : forall w r, I w -> I (add_log r w).
Hypothesis I_native : forall w c, I w -> I (add_native_call c w).
Hypothesis I_call : forall w ev i p,
  okref p -> is_Some (pipes w !! p) -> I w -> I (add_hook_call (ev, i, p) w).
Hypothesis I_pipe_alter : forall w f i, I w -> I (set_pipes (alter f i) w).
Hypothesis I_add_pipe : forall w sid pid p, I w ->
  I (set_sockets (alter (fun s => with_pipes (<[pid := length (pipes w)]> (_pipes s)) s) sid)
       (set_pipes (fun ps => ps ++ [p]) w))
  /\ okref (length (pipes w)).
Hypothesis I_remove_pipe : forall w sid pid, I w ->
  I (set_sockets (alter (fun s => with_pipes (delete pid (_pipes s)) s) sid) w).
Hypothesis I_table : forall w sid s pid p, I w ->
  sockets w !! sid = Some s -> _pipes s !! pid = Some p -> okref p.

Lemma keeps_native c : keeps I (native c) (fun _ => True).
Proof. apply keeps_modify; [ intros; by apply I_native | done ]. Qed.

Lemma keeps_logger_exception text e : keeps I (logger_exception text e) (fun _ => True).
Proof. apply keeps_modify; [ intros; by apply I_log | done ]. Qed.

Lemma keeps_logger_debug text : keeps I (logger_debug text) (fun _ => True).
Proof. apply keeps_modify; [ intros; by apply I_log | done ]. Qed.

Lemma keeps_Socket_get {A} self (f : Socket -> A) : keeps I (Socket_get self f) (fun _ => True).
Proof. intros w Hw. unfold Socket_get. destruct (sockets w !! self); done. Qed.

Lemma keeps_Pipe_get {A} self (f : Pipe -> A) : keeps I (Pipe_get self f) (fun _ => True).
Proof. intros w Hw. unfold Pipe_get. destruct (pipes w !! self); done. Qed.

Lemma keeps_Pipe_close p rv : keeps I (Pipe_close p rv) (fun _ => True).
Proof.
  unfold Pipe_close.
  eapply keeps_bind; [ apply keeps_Pipe_get | intros h _ ].
  eapply keeps_bind; [ apply keeps_native | intros _ _ ].
  eapply keeps_bind; [ apply keeps_check_err | intros _ _ ].
  apply keeps_modify; [ intros; by apply I_pipe_alter | done ].
Qed.

Lemma keeps_run_hook_body p body : keeps I (run_hook_body p body) (fun _ => True).
Proof.
  induction body as [ | [rv | e] body IH]; simpl.
  - by apply keeps_ret.
  - eapply keeps_bind; [ apply keeps_Pipe_close | intros _ _; apply IH ].
  - apply keeps_raise.
Qed.

Lemma keeps_call_hook ev cb p : okref p -> keeps I (call_hook ev cb p) (fun _ => True).
Proof.
  intros Hp w Hw. unfold call_hook, bind, Pipe_get, modify.
  destruct (pipes w !! p) as [x | ] eqn:Hx; [ | done ].
  split; [ | done ].
  apply (keeps_run_hook_body p (hk_body cb x)). apply I_call; [ done | by rewrite Hx | done ].
Qed.

Lemma keeps_run_callbacks ev text cbs p :
  okref p -> keeps I (run_callbacks ev text cbs p) (fun _ => True).
Proof.
  intros Hp. induction cbs as [ | cb cbs IH]; simpl.
  - by apply keeps_ret.
  - eapply keeps_bind; [ | intros _ _; apply IH ].
    apply keeps_try_except; [ by apply keeps_call_hook | intros e; apply keeps_logger_exception ].
Qed.

Lemma keeps_add_pipe self lib_pipe : keeps I (Socket__add_pipe self lib_pipe) okref.
Proof.
  intros w Hw. unfold Socket__add_pipe, Pipe___init__, Socket_set, bind, modify, ret; simpl.
  destruct (I_add_pipe w self (nng_pipe_id lib_pipe) (mkPipe lib_pipe self false) Hw) as [H1 H2].
  split; [ exact H1 | ]. intros a [= <-]. exact H2.
Qed.

Lemma keeps_pipes_getitem self pid : keeps I (Socket_pipes_getitem self pid) okref.
Proof.
  intros w Hw. unfold Socket_pipes_getitem, Socket_get, bind.
  destruct (sockets w !! self) as [s | ] eqn:Hs; simpl; [ | done ].
  destruct (_pipes s !! pid) as [p | ] eqn:Hp; simpl; [ | done ].
  split; [ done | ]. intros a [= <-]. eapply I_table; eauto.
Qed.

Lemma keeps_remove_pipe self lib_pipe : keeps I (Socket__remove_pipe self lib_pipe) (fun _ => True).
Proof.
  unfold Socket__remove_pipe.
  eapply keeps_bind; [ apply keeps_pipes_getitem | intros _ _ ].
  apply keeps_modify; [ intros; by apply I_remove_pipe | done ].
Qed.

Lemma keeps_pipe_cb_locked sock lib_pipe event :
  keeps I (pipe_cb_locked sock lib_pipe event) (fun _ => True).
Proof.
  unfold pipe_cb_locked. destruct event.
  - eapply keeps_bind; [ apply keeps_add_pipe | intros p Hp ].
    eapply keeps_bind; [ apply keeps_Socket_get | intros cbs _ ].
    eapply keeps_bind; [ by apply keeps_run_callbacks | intros _ _ ].
    eapply keeps_bind; [ apply keeps_Pipe_get | intros c _ ].
    destruct c; [ apply keeps_remove_pipe | by apply keeps_ret ].
  - eapply keeps_bind; [ apply keeps_pipes_getitem | intros p Hp ].
    eapply keeps_bind; [ apply keeps_Socket_get | intros cbs _ ].
    by apply keeps_run_callbacks.
  - eapply keeps_bind with (V := fun o => forall p, o = Some p -> okref p).
    { apply keeps_try_except.
      - eapply keeps_bind; [ apply keeps_pipes_getitem | intros p Hp ].
        apply keeps_ret. by intros ? [= <-].
      - intros e. eapply keeps_bind; [ apply keeps_logger_debug | intros _ _ ].
        by apply keeps_ret. }
    intros [p | ] Hp; [ | by apply keeps_ret ].
    apply keeps_try_finally; [ | apply keeps_remove_pipe ].
    eapply keeps_bind; [ apply keeps_Socket_get | intros cbs _ ].
    apply keeps_run_callbacks. by apply Hp.
  - by apply keeps_ret.
Qed.

(** From here on the invariant may not depend on who holds a lock. *)
Hypothesis I_lock : forall w sid b, I w ->
  I (set_sockets (alter (with_pipe_notify_lock b) sid) w).

Lemma keeps_nng_pipe_cb lib_pipe event arg :
  keeps I (_nng_pipe_cb lib_pipe event arg) (fun _ => True).
Proof.
  unfold _nng_pipe_cb.
  eapply keeps_bind with (V := fun _ => True).
  { intros w Hw. unfold live_sockets_getitem.
    destruct (_live_sockets w !! arg) as [sock | ]; [ | done ].
    destruct (sockets w !! sock); done. }
  intros sock _. apply keeps_with_lock; [ intros; by apply I_lock | ].
  apply keeps_pipe_cb_locked.
Qed.

Lemma keeps_extern ev : keeps I (extern_nng_pipe_cb ev) (fun _ => True).
Proof.
  unfold extern_nng_pipe_cb. apply keeps_try_except; [ apply keeps_nng_pipe_cb | ].
  intros e. apply keeps_modify; [ intros; by apply I_log | done ].
Qed.

Lemma keeps_engine_calls_back evs : keeps I (engine_calls_back evs) (fun _ => True).
Proof.
  induction evs as [ | ev evs IH]; simpl; [ by apply keeps_ret | ].
  eapply keeps_bind; [ apply keeps_extern | intros _ _; apply IH ].
Qed.

(** The other actions change the remaining fields of a socket, create and
    drop sockets, and register them. *)
Hypothesis I_alter : forall w f sid, (forall s, _pipes (f s) = _pipes s) ->
  I w -> I (set_sockets (alter f sid) w).
Hypothesis I_new : forall w self, I w ->
  I (set_sockets (<[self := mkSocket ∅ ∅ ∅ [] [] [] false None]>) w).
Hypothesis I_del : forall w self, I w -> I (set_sockets (delete self) w).
Hypothesis I_live : forall w f, I w -> I (set_live_sockets f w).

Lemma keeps_Socket_set self f :
  (forall s, _pipes (f s) = _pipes s) -> keeps I (Socket_set self f) (fun _ => True).
Proof. intros Hf. apply keeps_modify; [ intros; by apply I_alter | done ]. Qed.

Lemma keeps_Socket_socket self : keeps I (Socket_socket self) (fun _ => True).
Proof.
  unfold Socket_socket. eapply keeps_bind; [ apply keeps_Socket_get | intros [h | ] _ ].
  - by apply keeps_ret.
  - apply keeps_raise.
Qed.

Lemma keeps__dial self address flags r : keeps I (Socket__dial self address flags r) (fun _ => True).
Proof.
  unfold Socket__dial.
  eapply keeps_bind; [ apply keeps_Socket_socket | intros sock _ ].
  eapply keeps_bind; [ apply keeps_native | intros _ _ ].
  eapply keeps_bind; [ apply keeps_engine_calls_back | intros _ _ ].
  eapply keeps_bind; [ apply keeps_check_err | intros _ _ ].
  apply keeps_Socket_set. by intros [].
Qed.

Lemma keeps_dial_bool self address b r : keeps I (Socket_dial_bool self address b r) (fun _ => True).
Proof. unfold Socket_dial_bool. destruct b; apply keeps__dial. Qed.

Lemma keeps_dial self address block r1 r2 :
  keeps I (Socket_dial self address block r1 r2) (fun _ => True).
Proof.
  unfold Socket_dial. destruct block as [b | ]; [ apply keeps_dial_bool | ].
  apply keeps_try_except; [ apply keeps_dial_bool | intros e ].
  eapply keeps_bind; [ apply keeps_logger_exception | intros _ _; apply keeps_dial_bool ].
Qed.

Lemma keeps_listen self address flags r : keeps I (Socket_listen self address flags r) (fun _ => True).
Proof.
  unfold Socket_listen.
  eapply keeps_bind; [ apply keeps_Socket_socket | intros sock _ ].
  eapply keeps_bind; [ apply keeps_native | intros _ _ ].
  eapply keeps_bind; [ apply keeps_engine_calls_back | intros _ _ ].
  eapply keeps_bind; [ apply keeps_check_err | intros _ _ ].
  apply keeps_Socket_set. by intros [].
Qed.

Lemma keeps_close self evs : keeps I (Socket_close self evs) (fun _ => True).
Proof.
  unfold Socket_close.
  eapply keeps_bind; [ apply keeps_Socket_get | intros [sock | ] _ ]; [ | by apply keeps_ret ].
  eapply keeps_bind; [ apply keeps_native | intros _ _ ].
  eapply keeps_bind; [ apply keeps_engine_calls_back | intros _ _ ].
  eapply keeps_bind; [ apply keeps_Socket_set; by intros [] | intros _ _ ].
  apply keeps_Socket_set; by intros [].
Qed.

Lemma keeps_set_options sock n answers : keeps I (set_options sock n answers) (fun _ => True).
Proof.
  revert answers. induction n as [ | n IH]; intros answers; simpl; [ by apply keeps_ret | ].
  eapply keeps_bind; [ apply keeps_native | intros _ _ ].
  eapply keeps_bind; [ apply keeps_check_err | intros _ _; apply IH ].
Qed.

Lemma keeps_arm self as_void answers :
  keeps I (arm_pipe_notify self as_void answers) (fun _ => True).
Proof.
  unfold arm_pipe_notify.
  repeat (first [ eapply keeps_bind;
                    [ first [ apply keeps_Socket_socket | apply keeps_native
                            | apply keeps_check_err ] | intros ? _ ]
                | apply keeps_check_err ]).
Qed.





End DispatcherInv.

(** * Two invariants of every run: well-formed stores, and a pipe that was
      dropped stays dropped *)

Section Runs.
Context `{NngLib}.




Lemma wf_empty : wf_world empty_world.
Proof. split; [ intros sid s pid r Hs; done | intros c Hc; by apply elem_of_nil in Hc ]. Qed.


End Runs.

(** * The dispatcher: what the claims say *)

Section Dispatcher.
Context `{NngLib}.



(** C8, amended.  A pipe event whose token resolves to no live socket changes
    nothing in the store; the lookup in the registry raises [KeyError], which
    leaves the body of the dispatcher before any lock is taken or callback
    called, and which the C entry point prints instead of passing it on. *)
Theorem C8_unresolved_token lib_pipe event arg w :
  (forall sock, _live_sockets w !! arg = Some sock -> sockets w !! sock = None) ->
  _nng_pipe_cb lib_pipe event arg w = (Raise KeyError, w)
  /\ extern_nng_pipe_cb (lib_pipe, event, arg) w = (Ok tt, add_log (Stderr KeyError) w).
Proof.
  intros Hno. pose proof (cb_unresolved lib_pipe event arg w Hno) as Hcb.
  split; [ exact Hcb | ].
  unfold extern_nng_pipe_cb, try_except. simpl. rewrite Hcb. reflexivity.
Qed.



End Dispatcher.

(** * Closing a socket *)

Section Close.
Context `{NngLib}.

Lemma nohang_native c : nohang (native c).
Proof. apply nohang_modify. Qed.

Lemma nohang_Socket_get {A} self (f : Socket -> A) : nohang (Socket_get self f).
Proof. intros w. unfold Socket_get. by destruct (sockets w !! self). Qed.

Lemma nohang_Pipe_get {A} self (f : Pipe -> A) : nohang (Pipe_get self f).
Proof. intros w. unfold Pipe_get. by destruct (pipes w !! self). Qed.

Lemma nohang_Pipe_close p rv : nohang (Pipe_close p rv).
Proof.
  unfold Pipe_close.
  apply nohang_bind; [ apply nohang_Pipe_get | intros h ].
  apply nohang_bind; [ apply nohang_native | intros _ ].
  apply nohang_bind; [ apply nohang_check_err | intros _ ].
  apply nohang_modify.
Qed.

Lemma nohang_run_hook_body p body : nohang (run_hook_body p body).
Proof.
  induction body as [ | [rv | e] body IH]; simpl.
  - apply nohang_ret.
  - apply nohang_bind; [ apply nohang_Pipe_close | intros _; apply IH ].
  - apply nohang_raise.
Qed.

Lemma nohang_run_callbacks ev text cbs p : nohang (run_callbacks ev text cbs p).
Proof.
  induction cbs as [ | cb cbs IH]; simpl; [ apply nohang_ret | ].
  apply nohang_bind; [ | intros _; apply IH ].
  apply nohang_try_except; [ | intros e; apply nohang_modify ].
  unfold call_hook. apply nohang_bind; [ apply nohang_Pipe_get | intros x ].
  apply nohang_bind; [ apply nohang_modify | intros _; apply nohang_run_hook_body ].
Qed.

Lemma nohang_pipes_getitem self pid : nohang (Socket_pipes_getitem self pid).
Proof.
  unfold Socket_pipes_getitem. apply nohang_bind; [ apply nohang_Socket_get | intros ps ].
  destruct (ps !! pid); [ apply nohang_ret | apply nohang_raise ].
Qed.

Lemma nohang_remove_pipe self lib_pipe : nohang (Socket__remove_pipe self lib_pipe).
Proof.
  unfold Socket__remove_pipe.
  apply nohang_bind; [ apply nohang_pipes_getitem | intros _; apply nohang_modify ].
Qed.

Lemma nohang_pipe_cb_locked sock lib_pipe event : nohang (pipe_cb_locked sock lib_pipe event).
Proof.
  unfold pipe_cb_locked. destruct event.
  - apply nohang_bind.
    { unfold Socket__add_pipe. apply nohang_bind; [ by intros w | intros p ].
      apply nohang_bind; [ apply nohang_modify | intros _; apply nohang_ret ]. }
    intros p. apply nohang_bind; [ apply nohang_Socket_get | intros cbs ].
    apply nohang_bind; [ apply nohang_run_callbacks | intros _ ].
    apply nohang_bind; [ apply nohang_Pipe_get | intros c ].
    destruct c; [ apply nohang_remove_pipe | apply nohang_ret ].
  - apply nohang_bind; [ apply nohang_pipes_getitem | intros p ].
    apply nohang_bind; [ apply nohang_Socket_get | intros cbs ].
    apply nohang_run_callbacks.
  - apply nohang_bind.
    { apply nohang_try_except.
      - apply nohang_bind; [ apply nohang_pipes_getitem | intros p; apply nohang_ret ].
      - intros e. apply nohang_bind; [ apply nohang_modify | intros _; apply nohang_ret ]. }
    intros [p | ]; [ | apply nohang_ret ].
    apply nohang_try_finally; [ | apply nohang_remove_pipe ].
    apply nohang_bind; [ apply nohang_Socket_get | intros cbs; apply nohang_run_callbacks ].
  - apply nohang_ret.
Qed.

Lemma fmap_alter_absorb {A B} (g : A -> B) (f : A -> A) (k : Z) (m : gmap Z A) :
  (forall x, g (f x) = g x) -> g <$> alter f k m = g <$> m.
Proof.
  intros Hgf. apply map_eq. intros j. rewrite !lookup_fmap.
  destruct (decide (k = j)) as [<- | Hne].
  - rewrite lookup_alter_eq. destruct (m !! k); simpl; [ by rewrite Hgf | done ].
  - by rewrite lookup_alter_ne.
Qed.

(** The block under the lock changes no socket but for a pipe table. *)
Lemma pipe_cb_locked_frame sock lib_pipe event w :
  sockets_but_pipes (pipe_cb_locked sock lib_pipe event w).2 = sockets_but_pipes w.
Proof.
  apply (keeps_pipe_cb_locked (fun w' => sockets_but_pipes w' = sockets_but_pipes w)
           (fun _ => True)); try done.
  - intros w0 sid pid p Hw. split; [ | done ]. unfold sockets_but_pipes in *; simpl.
    rewrite fmap_alter_absorb; [ done | intros []; reflexivity ].
  - intros w0 sid pid Hw. unfold sockets_but_pipes in *; simpl.
    rewrite fmap_alter_absorb; [ done | intros []; reflexivity ].
Qed.

Lemma quiescent_frame w w' :
  sockets_but_pipes w' = sockets_but_pipes w -> quiescent w -> quiescent w'.
Proof.
  intros Hf Hq sid s' Hs'.
  assert (Hl : sockets_but_pipes w' !! sid = Some (with_pipes ∅ s')).
  { unfold sockets_but_pipes. by rewrite lookup_fmap, Hs'. }
  rewrite Hf in Hl. unfold sockets_but_pipes in Hl. rewrite lookup_fmap in Hl.
  destruct (sockets w !! sid) as [s | ] eqn:Hs; [ | done ].
  simpl in Hl. inversion Hl as [Heq]. specialize (Hq sid s Hs).
  destruct s, s'; simpl in *. by inversion Heq; subst.
Qed.

Lemma frame_lookup w w' sid s :
  sockets_but_pipes w' = sockets_but_pipes w -> sockets w !! sid = Some s ->
  exists s', sockets w' !! sid = Some s' /\ with_pipes ∅ s' = with_pipes ∅ s.
Proof.
  intros Hf Hs.
  assert (Hl : sockets_but_pipes w !! sid = Some (with_pipes ∅ s)).
  { unfold sockets_but_pipes. by rewrite lookup_fmap, Hs. }
  rewrite <- Hf in Hl. unfold sockets_but_pipes in Hl. rewrite lookup_fmap in Hl.
  destruct (sockets w' !! sid) as [s' | ]; simpl in Hl; [ | discriminate ].
  exists s'. split; [ done | ]. congruence.
Qed.

(** A callback in a quiescent store returns to the engine, and leaves the
    store quiescent and every socket as it was but for its pipe table. *)
Lemma extern_quiescent ev w :
  quiescent w ->
  exists w', extern_nng_pipe_cb ev w = (Ok tt, w')
             /\ sockets_but_pipes w' = sockets_but_pipes w.
Proof.
  intros Hq. destruct ev as [[lib_pipe event] arg].
  unfold extern_nng_pipe_cb, try_except; simpl.
  destruct (_live_sockets w !! arg) as [sock | ] eqn:Hreg.
  2: { rewrite cb_unresolved by (intros ? ?; congruence). eauto. }
  destruct (sockets w !! sock) as [s | ] eqn:Hs.
  2: { rewrite cb_unresolved by (intros ? ?; congruence). eauto. }
  pose proof (Hq sock s Hs) as Hl.
  unfold _nng_pipe_cb, bind at 1, live_sockets_getitem. rewrite Hreg, Hs.
  unfold with_sock_pipe_notify_lock, with_lock. rewrite Hs, Hl.
  set (wl := set_sockets (alter (with_pipe_notify_lock true) sock) w).
  pose proof (nohang_pipe_cb_locked sock lib_pipe event wl) as Hnh.
  pose proof (pipe_cb_locked_frame sock lib_pipe event wl) as Hfr.
  destruct (pipe_cb_locked sock lib_pipe event wl) as [o wb]; simpl in *.
  assert (Hback : sockets_but_pipes (set_sockets (alter (with_pipe_notify_lock false) sock) wb)
                  = sockets_but_pipes w).
  { unfold sockets_but_pipes in *; simpl in *.
    rewrite (fmap_alter _ _ (with_pipe_notify_lock false)) by (intros [] _; reflexivity).
    rewrite Hfr.
    rewrite (fmap_alter _ _ (with_pipe_notify_lock true)) by (intros [] _; reflexivity).
    apply (relock_id _ sock (with_pipes ∅ s)); [ by rewrite lookup_fmap, Hs | by destruct s ]. }
  destruct o as [[] | e | ]; [ | | done ]; eexists; (split; [ reflexivity | exact Hback ]).
Qed.

Lemma engine_calls_back_quiescent evs w :
  quiescent w ->
  exists w', engine_calls_back evs w = (Ok tt, w')
             /\ sockets_but_pipes w' = sockets_but_pipes w.
Proof.
  revert w. induction evs as [ | ev evs IH]; intros w Hq; simpl.
  - by exists w.
  - destruct (extern_quiescent ev w Hq) as (w1 & H1 & Hf1).
    unfold bind. rewrite H1.
    destruct (IH w1 (quiescent_frame _ _ Hf1 Hq)) as (w2 & H2 & Hf2).
    exists w2. split; [ done | by rewrite Hf2 ].
Qed.









End Close.

(** * The claims on concrete stores *)

Lemma one_socket_lookup pre post rem table ps sid s :
  sockets (one_socket pre post rem table ps) !! sid = Some s ->
  sid = 100%Z /\ _pipes s = table /\ _pipe_notify_lock s = false.
Proof.
  unfold one_socket; simpl. intros [<- <-]%lookup_singleton_Some. done.
Qed.

Lemma one_socket_quiescent pre post rem table ps :
  quiescent (one_socket pre post rem table ps).
Proof. intros sid s Hs. by apply one_socket_lookup in Hs as (_ & _ & Hl). Qed.


Lemma connected_wf : wf_world connected.
Proof.
  split.
  - intros sid s pid r Hs Hr. apply one_socket_lookup in Hs as (_ & Ht & _).
    rewrite Ht in Hr. apply lookup_singleton_Some in Hr as [_ <-]. simpl. lia.
  - intros c Hc. by apply elem_of_nil in Hc.
Qed.




(** With [block=None] the first dial is the recursive call
    [self.dial(address, block=False)]: what [dial] does is what the
    non-blocking dial does, unless that raises [ConnectionRefused], which is
    logged and followed by a second non-blocking dial; every other exception
    goes to the caller. *)
Lemma dial_auto_unfolded `{NngLib} self address r1 r2 w :
  Socket_dial self address None r1 r2 w =
  match Socket_dial self address (Some false) r1 r2 w with
  | (Raise e, w') =>
      if is_ConnectionRefused e
      then (logger_exception "Synchronous dial failed; attempting asynchronous now" e ;;;
            Socket_dial self address (Some false) r2 r2) w'
      else (Raise e, w')
  | r => r
  end.
Proof. reflexivity. Qed.

(** C1, on the code.  With [block=None] the socket dials with
    [NNG_FLAG_NONBLOCK], exactly as with [block=False] and unlike
    [block=True], which dials with flags 0: no blocking attempt is made.  When
    the engine refuses the first dial, the refusal is logged and the second
    dial is non-blocking again. *)
Theorem C1_auto_dial_first_attempt :
  native_calls (Socket_dial (H := nng_1) 100 "tcp://127.0.0.1:13131" None
                  accepted accepted connected).2
  = [Nng_dial 7 "tcp://127.0.0.1:13131" 2 0]
  /\ native_calls (Socket_dial (H := nng_1) 100 "tcp://127.0.0.1:13131" (Some true)
                     accepted accepted connected).2
     = [Nng_dial 7 "tcp://127.0.0.1:13131" 0 0]
  /\ Socket_dial (H := nng_1) 100 "tcp://127.0.0.1:13131" None accepted accepted connected
     = Socket_dial (H := nng_1) 100 "tcp://127.0.0.1:13131" (Some false)
         accepted accepted connected
  /\ native_calls (Socket_dial (H := nng_1) 100 "tcp://127.0.0.1:13131" None
                     refused accepted connected).2
     = [Nng_dial 7 "tcp://127.0.0.1:13131" 2 6; Nng_dial 7 "tcp://127.0.0.1:13131" 2 0]
  /\ log (Socket_dial (H := nng_1) 100 "tcp://127.0.0.1:13131" None
            refused accepted connected).2
     = [LogException "Synchronous dial failed; attempting asynchronous now" (NNGException 6)].
Proof. vm_compute. repeat split. Qed.

(** C7, on the code.  [Socket.__init__] enters the socket into
    [_live_sockets] after the [dial] it was asked for.  The two pipe events
    the engine reports during that dial find no socket: both end in
    [KeyError] at the C entry point, and the socket, once built and
    registered, has its dialer but an empty pipe table and no [Pipe] object.
    Registering before the dial, the same events enter pipe 1 into the
    table. *)
Theorem C7_registered_after_dial :
  (Socket___init__ (H := nng_1) 100 dial_kwargs peer_is_listening empty_world).1 = Ok tt
  /\ _live_sockets (Socket___init__ (H := nng_1) 100 dial_kwargs peer_is_listening
                      empty_world).2 !! 100%Z = Some 100%Z
  /\ (_pipes <$> sockets (Socket___init__ (H := nng_1) 100 dial_kwargs peer_is_listening
                            empty_world).2 !! 100%Z) = Some ∅
  /\ (_dialers <$> sockets (Socket___init__ (H := nng_1) 100 dial_kwargs peer_is_listening
                              empty_world).2 !! 100%Z) = Some {[ 9%Z := mkDialer 9 100 ]}
  /\ pipes (Socket___init__ (H := nng_1) 100 dial_kwargs peer_is_listening empty_world).2 = []
  /\ log (Socket___init__ (H := nng_1) 100 dial_kwargs peer_is_listening empty_world).2
     = [Stderr KeyError; Stderr KeyError]
  /\ (_pipes <$> sockets (Socket___init___registering_first (H := nng_1) 100 dial_kwargs
                            peer_is_listening empty_world).2 !! 100%Z)
     = Some {[ 1%Z := 0%nat ]}
  /\ log (Socket___init___registering_first (H := nng_1) 100 dial_kwargs
            peer_is_listening empty_world).2 = [].
Proof. vm_compute. repeat split. Qed.

Lemma C8_counterexample :
  _live_sockets empty_world !! 100%Z = None
  /\ _nng_pipe_cb (H := nng_1) 1 NNG_PIPE_EV_ADD_PRE 100 empty_world
     = (Raise KeyError, empty_world).
Proof. vm_compute. split; reflexivity. Qed.

Lemma C8_witness :
  _nng_pipe_cb (H := nng_1) 5 NNG_PIPE_EV_REM_POST 100 empty_world
  = (Raise KeyError, empty_world)
  /\ extern_nng_pipe_cb (H := nng_1) (5%Z, NNG_PIPE_EV_REM_POST, 100%Z) empty_world
     = (Ok tt, add_log (Stderr KeyError) empty_world).
Proof.
  apply (C8_unresolved_token (H := nng_1) 5 NNG_PIPE_EV_REM_POST 100 empty_world).
  intros sock Hs. vm_compute in Hs. discriminate Hs.
Defined.






(** * Every method as a sequence of updates *)

Section Updates.
Context `{NngLib}.
Variable I : World -> Prop.
Hypothesis I_update : forall w w', update w w' -> I w -> I w'.

Lemma upd_modify (f : World -> World) :
  (forall w, update w (f w)) -> keeps I (modify f) (fun _ => True).
Proof. intros Hf. apply keeps_modify; [ | done ]. intros w Hw. by eapply I_update. Qed.

Lemma upd_native c : keeps I (native c) (fun _ => True).
Proof. apply upd_modify. intros w. apply U_native. Qed.

Lemma upd_logger_exception text e : keeps I (logger_exception text e) (fun _ => True).
Proof. apply upd_modify. intros w. apply U_log. Qed.

Lemma upd_logger_debug text : keeps I (logger_debug text) (fun _ => True).
Proof. apply upd_modify. intros w. apply U_log. Qed.

Lemma upd_Socket_get {A} self (f : Socket -> A) : keeps I (Socket_get self f) (fun _ => True).
Proof. intros w Hw. unfold Socket_get. destruct (sockets w !! self); done. Qed.

Lemma upd_Pipe_get {A} self (f : Pipe -> A) : keeps I (Pipe_get self f) (fun _ => True).
Proof. intros w Hw. unfold Pipe_get. destruct (pipes w !! self); done. Qed.

Lemma upd_Pipe_close p rv : keeps I (Pipe_close p rv) (fun _ => True).
Proof.
  unfold Pipe_close.
  eapply keeps_bind; [ apply upd_Pipe_get | intros h _ ].
  eapply keeps_bind; [ apply upd_native | intros _ _ ].
  eapply keeps_bind; [ apply keeps_check_err | intros _ _ ].
  apply upd_modify. intros w. apply U_pipe_closed.
Qed.

Lemma upd_run_hook_body p body : keeps I (run_hook_body p body) (fun _ => True).
Proof.
  induction body as [ | [rv | e] body IH]; simpl.
  - by apply keeps_ret.
  - eapply keeps_bind; [ apply upd_Pipe_close | intros _ _; apply IH ].
  - apply keeps_raise.
Qed.

Lemma upd_call_hook ev cb p : keeps I (call_hook ev cb p) (fun _ => True).
Proof.
  intros w Hw. unfold call_hook, bind, Pipe_get, modify.
  destruct (pipes w !! p) as [x | ] eqn:Hx; [ | done ].
  split; [ | done ].
  apply (upd_run_hook_body p (hk_body cb x)).
  eapply I_update; [ | exact Hw ]. by eapply U_call.
Qed.

Lemma upd_run_callbacks ev text cbs p : keeps I (run_callbacks ev text cbs p) (fun _ => True).
Proof.
  induction cbs as [ | cb cbs IH]; simpl.
  - by apply keeps_ret.
  - eapply keeps_bind; [ | intros _ _; apply IH ].
    apply keeps_try_except; [ apply upd_call_hook | intros e; apply upd_logger_exception ].
Qed.

Lemma upd_add_pipe self lib_pipe : keeps I (Socket__add_pipe self lib_pipe) (fun _ => True).
Proof.
  intros w Hw. unfold Socket__add_pipe, Pipe___init__, Socket_set, bind, modify, ret; simpl.
  split; [ | done ]. eapply I_update; [ | exact Hw ]. apply U_add_pipe.
Qed.

Lemma upd_pipes_getitem self pid : keeps I (Socket_pipes_getitem self pid) (fun _ => True).
Proof.
  intros w Hw. unfold Socket_pipes_getitem, Socket_get, bind.
  destruct (sockets w !! self) as [s | ]; simpl; [ | done ].
  destruct (_pipes s !! pid); simpl; done.
Qed.

Lemma upd_remove_pipe self lib_pipe : keeps I (Socket__remove_pipe self lib_pipe) (fun _ => True).
Proof.
  unfold Socket__remove_pipe.
  eapply keeps_bind; [ apply upd_pipes_getitem | intros _ _ ].
  apply upd_modify. intros w. apply U_remove_pipe.
Qed.

Lemma upd_pipe_cb_locked sock lib_pipe event :
  keeps I (pipe_cb_locked sock lib_pipe event) (fun _ => True).
Proof.
  unfold pipe_cb_locked. destruct event.
  - eapply keeps_bind; [ apply upd_add_pipe | intros p _ ].
    eapply keeps_bind; [ apply upd_Socket_get | intros cbs _ ].
    eapply keeps_bind; [ apply upd_run_callbacks | intros _ _ ].
    eapply keeps_bind; [ apply upd_Pipe_get | intros c _ ].
    destruct c; [ apply upd_remove_pipe | by apply keeps_ret ].
  - eapply keeps_bind; [ apply upd_pipes_getitem | intros p _ ].
    eapply keeps_bind; [ apply upd_Socket_get | intros cbs _ ].
    apply upd_run_callbacks.
  - eapply keeps_bind with (V := fun _ => True).
    { apply keeps_try_except.
      - eapply keeps_bind; [ apply upd_pipes_getitem | intros p _ ].
        by apply keeps_ret.
      - intros e. eapply keeps_bind; [ apply upd_logger_debug | intros _ _ ].
        by apply keeps_ret. }
    intros [p | ] _; [ | by apply keeps_ret ].
    apply keeps_try_finally; [ | apply upd_remove_pipe ].
    eapply keeps_bind; [ apply upd_Socket_get | intros cbs _ ].
    apply upd_run_callbacks.
  - by apply keeps_ret.
Qed.

Lemma upd_nng_pipe_cb lib_pipe event arg :
  keeps I (_nng_pipe_cb lib_pipe event arg) (fun _ => True).
Proof.
  unfold _nng_pipe_cb.
  eapply keeps_bind with (V := fun _ => True).
  { intros w Hw. unfold live_sockets_getitem.
    destruct (_live_sockets w !! arg) as [sock | ]; [ | done ].
    destruct (sockets w !! sock); done. }
  intros sock _. apply keeps_with_lock; [ | apply upd_pipe_cb_locked ].
  intros b w Hw. eapply I_update; [ | exact Hw ]. apply U_lock.
Qed.

Lemma upd_extern ev : keeps I (extern_nng_pipe_cb ev) (fun _ => True).
Proof.
  unfold extern_nng_pipe_cb. apply keeps_try_except; [ apply upd_nng_pipe_cb | ].
  intros e. apply upd_modify. intros w. apply U_log.
Qed.

Lemma upd_engine_calls_back evs : keeps I (engine_calls_back evs) (fun _ => True).
Proof.
  induction evs as [ | ev evs IH]; simpl; [ by apply keeps_ret | ].
  eapply keeps_bind; [ apply upd_extern | intros _ _; apply IH ].
Qed.

Lemma upd_Socket_socket self : keeps I (Socket_socket self) (fun _ => True).
Proof.
  unfold Socket_socket. eapply keeps_bind; [ apply upd_Socket_get | intros [h | ] _ ].
  - by apply keeps_ret.
  - apply keeps_raise.
Qed.

Lemma upd__dial self address flags r : keeps I (Socket__dial self address flags r) (fun _ => True).
Proof.
  unfold Socket__dial.
  eapply keeps_bind; [ apply upd_Socket_socket | intros sock _ ].
  eapply keeps_bind; [ apply upd_native | intros _ _ ].
  eapply keeps_bind; [ apply upd_engine_calls_back | intros _ _ ].
  eapply keeps_bind; [ apply keeps_check_err | intros _ _ ].
  apply upd_modify. intros w. apply (U_dialer w self (new_id r)).
Qed.

Lemma upd_dial_bool self address b r : keeps I (Socket_dial_bool self address b r) (fun _ => True).
Proof. unfold Socket_dial_bool. destruct b; apply upd__dial. Qed.

Lemma upd_dial self address block r1 r2 :
  keeps I (Socket_dial self address block r1 r2) (fun _ => True).
Proof.
  unfold Socket_dial. destruct block as [b | ]; [ apply upd_dial_bool | ].
  apply keeps_try_except; [ apply upd_dial_bool | intros e ].
  eapply keeps_bind; [ apply upd_logger_exception | intros _ _; apply upd_dial_bool ].
Qed.

Lemma upd_listen self address flags r : keeps I (Socket_listen self address flags r) (fun _ => True).
Proof.
  unfold Socket_listen.
  eapply keeps_bind; [ apply upd_Socket_socket | intros sock _ ].
  eapply keeps_bind; [ apply upd_native | intros _ _ ].
  eapply keeps_bind; [ apply upd_engine_calls_back | intros _ _ ].
  eapply keeps_bind; [ apply keeps_check_err | intros _ _ ].
  apply upd_modify. intros w. apply (U_listener w self (new_id r)).
Qed.

Lemma upd_close self evs : keeps I (Socket_close self evs) (fun _ => True).
Proof.
  unfold Socket_close.
  eapply keeps_bind; [ apply upd_Socket_get | intros [sock | ] _ ]; [ | by apply keeps_ret ].
  eapply keeps_bind; [ apply upd_native | intros _ _ ].
  eapply keeps_bind; [ apply upd_engine_calls_back | intros _ _ ].
  eapply keeps_bind; [ apply upd_modify; intros w; apply U_no_listeners | intros _ _ ].
  apply upd_modify; intros w; apply U_no_dialers.
Qed.

Lemma upd_set_options sock n answers : keeps I (set_options sock n answers) (fun _ => True).
Proof.
  revert answers. induction n as [ | n IH]; intros answers; simpl; [ by apply keeps_ret | ].
  eapply keeps_bind; [ apply upd_native | intros _ _ ].
  eapply keeps_bind; [ apply keeps_check_err | intros _ _; apply IH ].
Qed.

Lemma upd_arm self as_void answers :
  keeps I (arm_pipe_notify self as_void answers) (fun _ => True).
Proof.
  unfold arm_pipe_notify.
  repeat (first [ eapply keeps_bind;
                    [ first [ apply upd_Socket_socket | apply upd_native
                            | apply keeps_check_err ] | intros ? _ ]
                | apply keeps_check_err ]).
Qed.

Lemma upd_init self kw en : keeps I (Socket___init__ self kw en) (fun _ => True).
Proof.
  unfold Socket___init__.
  eapply keeps_bind; [ apply upd_modify; intros w; apply U_new | intros _ _ ].
  eapply keeps_bind; [ apply upd_modify; intros w; apply U_handle | intros _ _ ].
  eapply keeps_bind;
    [ destruct (negb (kw_opener kw));
        [ apply keeps_raise | by apply (keeps_ret _ _ (fun _ => True)) ] | intros _ _ ].
  eapply keeps_bind; [ apply upd_native | intros _ _ ].
  eapply keeps_bind;
    [ destruct ((on_open en).1 =? 0)%Z;
        [ apply upd_modify; intros w; apply U_handle
        | by apply (keeps_ret _ _ (fun _ => True)) ]
    | intros _ _ ].
  eapply keeps_bind; [ apply keeps_check_err | intros _ _ ].
  eapply keeps_bind; [ apply upd_Socket_socket | intros sock _ ].
  eapply keeps_bind; [ apply upd_set_options | intros _ _ ].
  eapply keeps_bind; [ apply upd_arm | intros _ _ ].
  eapply keeps_bind;
    [ destruct (kw_listen kw); [ apply upd_listen | by apply (keeps_ret _ _ (fun _ => True)) ]
    | intros _ _ ].
  eapply keeps_bind;
    [ destruct (kw_dial kw); [ apply upd_dial | by apply (keeps_ret _ _ (fun _ => True)) ]
    | intros _ _ ].
  apply upd_modify; intros w; apply U_registered.
Qed.

Lemma upd_perform a : keeps I (perform a) (fun _ => True).
Proof.
  destruct a; simpl.
  - apply upd_extern.
  - apply upd_modify; intros w; apply U_hooks.
  - unfold Socket_remove_cb.
    eapply keeps_bind; [ apply upd_Socket_get | intros s _ ].
    destruct (list_remove cb (hooks_for event s)); [ | apply keeps_raise ].
    apply upd_modify; intros w; apply U_hooks.
  - apply upd_dial.
  - apply upd_listen.
  - apply upd_close.
  - apply upd_Pipe_close.
  - intros w Hw. destruct (sockets w !! self); [ done | ]. by apply upd_init.
  - eapply keeps_bind; [ apply upd_close | intros _ _ ].
    eapply keeps_bind; [ apply upd_modify; intros w; apply U_collected | intros _ _ ].
    apply upd_modify; intros w; apply U_unregistered.
Qed.

Lemma upd_run acts w : I w -> I (run acts w).
Proof.
  revert w. induction acts as [ | a acts IH]; intros w Hw; simpl; [ done | ].
  apply IH. by apply upd_perform.
Qed.

End Updates.

(** * What every run keeps *)

Section RunInvariants.
Context `{NngLib}.

Lemma alter_lookup_cases {A} (f : A -> A) (k j : Z) (m : gmap Z A) y :
  alter f k m !! j = Some y ->
  (j = k /\ exists x, m !! k = Some x /\ y = f x) \/ (j <> k /\ m !! j = Some y).
Proof.
  intros Hy. apply lookup_alter_Some in Hy as [(-> & x & Hx & ->) | (Hne & Hx)]; eauto.
Qed.

Lemma pipes_grow_refl w : pipes_grow w w.
Proof. intros r p Hp. exists p. done. Qed.

Lemma pipes_grow_trans w1 w2 w3 : pipes_grow w1 w2 -> pipes_grow w2 w3 -> pipes_grow w1 w3.
Proof.
  intros H12 H23 r p Hp.
  destruct (H12 r p Hp) as (p2 & Hp2 & Ha & Hb & Hc).
  destruct (H23 r p2 Hp2) as (p3 & Hp3 & Ha3 & Hb3 & Hc3).
  exists p3. repeat split; [ done | congruence | congruence | auto ].
Qed.

Lemma pipes_grow_update w w' : update w w' -> pipes_grow w w'.
Proof.
  intros Hu. destruct Hu; intros j y Hy; simpl; try (by exists y).
  - destruct (decide (j = p)) as [-> | Hne].
    + exists (mkPipe (pipe y) (pipe_socket y) true).
      rewrite (list_alter_known _ _ _ _ Hy), list_lookup_insert_eq
        by (eapply lookup_lt_Some; eauto). done.
    + exists y. by rewrite list_lookup_alter_ne.
  - exists y. by rewrite lookup_app_l by (eapply lookup_lt_Some; eauto).
Qed.

(** X1. From a store whose tables are consistent, whatever the program and
    the engine do, every entry of a socket's pipe table refers to a [Pipe]
    object whose [socket] is that socket and whose native id is the key, and
    every dialer and listener is filed under its own id and points back to
    its socket. *)
Theorem tables_stay_consistent acts w :
  tables_consistent w -> tables_consistent (run acts w).
Proof.
  apply upd_run. clear acts w. intros w w' Hu Hc. destruct Hu; try exact Hc.
  - (* a pipe is flagged closed *)
    intros sid s Hs. destruct (Hc sid s Hs) as (HP & HD & HL). split; [ | done ].
    intros pid r Hr. destruct (HP pid r Hr) as (x & Hx & Hx1 & Hx2). simpl.
    destruct (decide (r = p)) as [-> | Hne].
    + exists (mkPipe (pipe x) (pipe_socket x) true).
      rewrite (list_alter_known _ _ _ _ Hx), list_lookup_insert_eq
        by (eapply lookup_lt_Some; eauto). done.
    + exists x. by rewrite list_lookup_alter_ne.
  - (* a pipe is added *)
    intros sid' s' Hs'; simpl in Hs'.
    apply alter_lookup_cases in Hs' as [(-> & s & Hs & ->) | (Hne & Hs)].
    + destruct (Hc sid s Hs) as (HP & HD & HL). split; [ | done ]. simpl.
      intros pid r Hr. apply lookup_insert_Some in Hr as [(<- & <-) | (Hne & Hr)].
      * exists (mkPipe lib_pipe sid false). by rewrite list_lookup_middle.
      * destruct (HP pid r Hr) as (x & Hx & Hx1 & Hx2). exists x.
        by rewrite lookup_app_l by (eapply lookup_lt_Some; eauto).
    + destruct (Hc sid' s' Hs) as (HP & HD & HL). split; [ | done ]. simpl.
      intros pid r Hr. destruct (HP pid r Hr) as (x & Hx & Hx1 & Hx2). exists x.
      by rewrite lookup_app_l by (eapply lookup_lt_Some; eauto).
  - (* a pipe is removed from a table *)
    intros sid' s' Hs'; simpl in Hs'.
    apply alter_lookup_cases in Hs' as [(-> & s & Hs & ->) | (Hne & Hs)]; [ | by apply Hc ].
    destruct (Hc sid s Hs) as (HP & HD & HL). split; [ | done ]. simpl.
    intros pid' r Hr. apply lookup_delete_Some in Hr as [_ Hr]. by apply HP.
  - (* the lock *)
    intros sid' s' Hs'; simpl in Hs'.
    apply alter_lookup_cases in Hs' as [(-> & s & Hs & ->) | (Hne & Hs)]; [ | by apply Hc ].
    destruct s; by apply (Hc sid _ Hs).
  - (* a dialer is recorded *)
    intros sid' s' Hs'; simpl in Hs'.
    apply alter_lookup_cases in Hs' as [(-> & s & Hs & ->) | (Hne & Hs)]; [ | by apply Hc ].
    destruct (Hc sid s Hs) as (HP & HD & HL). split; [ done | ]. split; [ | done ]. simpl.
    intros d' x Hx. apply lookup_insert_Some in Hx as [(<- & <-) | (_ & Hx)]; [ done | ].
    by apply HD.
  - (* a listener is recorded *)
    intros sid' s' Hs'; simpl in Hs'.
    apply alter_lookup_cases in Hs' as [(-> & s & Hs & ->) | (Hne & Hs)]; [ | by apply Hc ].
    destruct (Hc sid s Hs) as (HP & HD & HL). split; [ done | ]. split; [ done | ]. simpl.
    intros l' x Hx. apply lookup_insert_Some in Hx as [(<- & <-) | (_ & Hx)]; [ done | ].
    by apply HL.
  - intros sid' s' Hs'; simpl in Hs'.
    apply alter_lookup_cases in Hs' as [(-> & s & Hs & ->) | (Hne & Hs)]; [ | by apply Hc ].
    destruct (Hc sid s Hs) as (HP & HD & HL). split; [ done | ]. split; [ done | ]. simpl.
    intros l x Hx. done.
  - intros sid' s' Hs'; simpl in Hs'.
    apply alter_lookup_cases in Hs' as [(-> & s & Hs & ->) | (Hne & Hs)]; [ | by apply Hc ].
    destruct (Hc sid s Hs) as (HP & HD & HL). split; [ done | ]. split; [ | done ]. simpl.
    intros d x Hx. done.
  - (* callbacks *)
    intros sid' s' Hs'; simpl in Hs'.
    apply alter_lookup_cases in Hs' as [(-> & s & Hs & ->) | (Hne & Hs)]; [ | by apply Hc ].
    destruct (Hc sid s Hs) as (HP & HD & HL). by destruct event, s.
  - (* a new socket *)
    intros sid' s' Hs'; simpl in Hs'.
    apply lookup_insert_Some in Hs' as [(<- & <-) | (_ & Hs)]; [ | by apply Hc ].
    simpl. repeat split; intros ? ? Hx; done.
  - intros sid' s' Hs'; simpl in Hs'.
    apply alter_lookup_cases in Hs' as [(-> & s & Hs & ->) | (Hne & Hs)]; [ | by apply Hc ].
    destruct s; by apply (Hc self _ Hs).
  - intros sid' s' Hs'; simpl in Hs'.
    apply lookup_delete_Some in Hs' as [_ Hs]. by apply Hc.
Qed.

(** X2. Whatever the program and the engine do, a [Pipe] object stays in
    place and keeps its native pipe and its socket, and once it is flagged
    closed it stays closed. *)
Theorem pipes_never_reopen acts w : pipes_grow w (run acts w).
Proof.
  apply (upd_run (pipes_grow w)); [ | apply pipes_grow_refl ].
  intros w1 w2 Hu Hg. eapply pipes_grow_trans; [ exact Hg | by apply pipes_grow_update ].
Qed.

End RunInvariants.

Lemma tables_stay_consistent_witness :
  tables_consistent (H := nng_1)
    (run (H := nng_1)
       [ANew 100 dial_kwargs peer_is_listening; ACallback (1%Z, NNG_PIPE_EV_ADD_PRE, 100%Z);
        ADial 100 "tcp://127.0.0.1:13132" (Some false) accepted accepted]
       empty_world).
Proof.
  apply (tables_stay_consistent (H := nng_1)).
  intros sid s Hs. simpl in Hs. rewrite lookup_empty in Hs. discriminate Hs.
Defined.

(** * Registering and removing callbacks *)

Section Callbacks.

Lemma list_remove_absent cb cbs :
  Forall (fun c => hk_id c <> hk_id cb) cbs -> list_remove cb cbs = None.
Proof.
  induction 1 as [ | c cbs Hc _ IH]; simpl; [ done | ].
  destruct (decide (hk_id c = hk_id cb)); [ done | ]. by rewrite IH.
Qed.

Lemma list_remove_first cb l1 c l2 :
  Forall (fun c' => hk_id c' <> hk_id cb) l1 -> hk_id c = hk_id cb ->
  list_remove cb (l1 ++ c :: l2) = Some (l1 ++ l2).
Proof.
  intros Hl Hc. induction Hl as [ | c' l1 Hc' _ IH]; simpl.
  - by destruct (decide (hk_id c = hk_id cb)).
  - destruct (decide (hk_id c' = hk_id cb)); [ done | ]. by rewrite IH.
Qed.

Lemma hooks_for_with_hooks event f s :
  (forall n, event <> NNG_PIPE_EV_OTHER n) ->
  hooks_for event (with_hooks event f s) = f (hooks_for event s).
Proof. intros He. destruct event; try done. by destruct (He n). Qed.

Lemma with_hooks_twice event f g s :
  with_hooks event g (with_hooks event f s) = with_hooks event (fun cbs => g (f cbs)) s.
Proof. by destruct event. Qed.

Lemma with_hooks_same event s : with_hooks event (fun _ => hooks_for event s) s = s.
Proof. by destruct event, s. Qed.

(** X3. [remove_*_cb] of a callback that is not registered raises
    [ValueError] and changes nothing; registering a callback that was not
    registered and removing it again leaves the store as it was; and of a
    callback registered several times only the first registration is
    removed, the others keeping their order. *)
Theorem remove_cb_removes_first event self cb w s :
  (forall n, event <> NNG_PIPE_EV_OTHER n) ->
  sockets w !! self = Some s ->
  (Forall (fun c => hk_id c <> hk_id cb) (hooks_for event s) ->
     Socket_remove_cb event self cb w = (Raise ValueError, w)
     /\ (Socket_add_cb event self cb ;;; Socket_remove_cb event self cb) w = (Ok tt, w))
  /\ (forall l1 c l2,
        hooks_for event s = l1 ++ c :: l2 ->
        Forall (fun c' => hk_id c' <> hk_id cb) l1 -> hk_id c = hk_id cb ->
        Socket_remove_cb event self cb w
        = (Ok tt, set_sockets (<[self := with_hooks event (fun _ => l1 ++ l2) s]>) w)).
Proof.
  intros He Hs. split.
  - intros Hno. split.
    + unfold Socket_remove_cb, bind, Socket_get. rewrite Hs. simpl.
      by rewrite (list_remove_absent _ _ Hno).
    + unfold Socket_add_cb, Socket_remove_cb, Socket_set, Socket_get, bind, modify; simpl.
      rewrite (alter_known _ _ _ _ Hs), lookup_insert_eq. simpl.
      rewrite hooks_for_with_hooks by done.
      rewrite (list_remove_first cb _ cb []) by done. rewrite app_nil_r.
      unfold set_sockets; simpl. rewrite (alter_known _ _ _ _ Hs).
      rewrite (alter_known _ _ _ _ (lookup_insert_eq _ _ _)), insert_insert_eq.
      rewrite with_hooks_twice, with_hooks_same, insert_id by done. by destruct w.
  - intros l1 c l2 Hh Hl1 Hc.
    unfold Socket_remove_cb, Socket_set, Socket_get, bind, modify. rewrite Hs. simpl.
    rewrite Hh, (list_remove_first _ _ _ _ Hl1 Hc). simpl.
    unfold set_sockets. by rewrite (alter_known _ _ _ _ Hs).
Qed.

End Callbacks.

Lemma remove_cb_removes_first_witness :
  Socket_remove_cb NNG_PIPE_EV_ADD_POST 100 closing_hook listening
  = (Raise ValueError, listening)
  /\ (exists w',
        Socket_remove_cb NNG_PIPE_EV_ADD_PRE 100 closing_hook listening = (Ok tt, w')
        /\ (_on_pre_pipe_add <$> sockets w' !! 100%Z) = Some [failing_hook; quiet_hook]).
Proof.
  destruct (remove_cb_removes_first NNG_PIPE_EV_ADD_POST 100 closing_hook listening _
              ltac:(discriminate) eq_refl) as [H1 _].
  destruct (remove_cb_removes_first NNG_PIPE_EV_ADD_PRE 100 closing_hook listening _
              ltac:(discriminate) eq_refl) as [_ H2].
  split.
  - apply H1. repeat constructor; simpl; lia.
  - eexists. split.
    + apply (H2 [failing_hook] closing_hook [quiet_hook]);
        [ reflexivity | repeat constructor; simpl; lia | reflexivity ].
    + vm_compute. reflexivity.
Defined.

(** * Construction *)

Section Construction.
Context `{NngLib}.

Lemma registry_bind {A} self L (m : M World A) (k : A -> M World unit) w :
  keeps (fun w' => _live_sockets w' = L) m (fun _ => True) ->
  (forall a w', _live_sockets w' = L -> registry_after self L (k a w')) ->
  _live_sockets w = L ->
  registry_after self L (bind m k w).
Proof.
  intros Hm Hk Hw. unfold bind. destruct (Hm w Hw) as [H1 _].
  destruct (m w) as [[a | e | ] w1]; simpl in *.
  - by apply Hk.
  - split; [ done | by intros _ ].
  - split; [ done | by intros _ ].
Qed.

(* the registry is no concern of the dispatcher, of [listen] or of [dial] *)
Ltac registry_untouched :=
  first [ done | intros; simpl; split; done | intros; simpl; assumption ].

Lemma registry_kept_listen L self address flags r :
  keeps (fun w => _live_sockets w = L) (Socket_listen self address flags r) (fun _ => True).
Proof. apply keeps_listen with (okref := fun _ => True); registry_untouched. Qed.

Lemma registry_kept_dial L self address block r1 r2 :
  keeps (fun w => _live_sockets w = L) (Socket_dial self address block r1 r2) (fun _ => True).
Proof. apply keeps_dial with (okref := fun _ => True); registry_untouched. Qed.

Lemma registry_kept_close L self evs :
  keeps (fun w => _live_sockets w = L) (Socket_close self evs) (fun _ => True).
Proof. apply keeps_close with (okref := fun _ => True); registry_untouched. Qed.

Lemma registry_after_init self kw en w :
  registry_after self (_live_sockets w) (Socket___init__ self kw en w).
Proof.
  set (L := _live_sockets w). unfold Socket___init__.
  apply registry_bind; [ by apply keeps_modify | intros _ w1 Hw1 | done ].
  apply registry_bind; [ by apply keeps_modify | intros _ w2 Hw2 | done ].
  apply registry_bind;
    [ destruct (negb (kw_opener kw)); [ apply keeps_raise | by apply keeps_ret ]
    | intros _ w3 Hw3 | done ].
  apply registry_bind; [ by apply keeps_modify | intros _ w4 Hw4 | done ].
  apply registry_bind;
    [ destruct ((on_open en).1 =? 0)%Z; [ by apply keeps_modify | by apply keeps_ret ]
    | intros _ w5 Hw5 | done ].
  apply registry_bind; [ apply keeps_check_err | intros _ w6 Hw6 | done ].
  apply registry_bind;
    [ apply keeps_Socket_socket; registry_untouched | intros sock w7 Hw7 | done ].
  apply registry_bind;
    [ apply keeps_set_options; registry_untouched | intros _ w8 Hw8 | done ].
  apply registry_bind; [ apply keeps_arm; registry_untouched | intros _ w9 Hw9 | done ].
  apply registry_bind;
    [ destruct (kw_listen kw); [ apply registry_kept_listen | by apply keeps_ret ]
    | intros _ w10 Hw10 | done ].
  apply registry_bind;
    [ destruct (kw_dial kw); [ apply registry_kept_dial | by apply keeps_ret ]
    | intros _ w11 Hw11 | done ].
  split; simpl; [ intros _; by rewrite Hw11 | done ].
Qed.

(** X4. [Socket.__init__] enters the socket into [_live_sockets] exactly when
    it returns: a constructor that raises (no opener, or an error of the
    opener, of an option, of [nng_pipe_notify], of [listen] or of [dial])
    leaves the registry as it was, and one that returns has added the entry
    of the new socket and nothing else; it can return only with an opener
    that the engine answered with 0. *)
Theorem init_registers_iff_returns self kw en w :
  ((Socket___init__ self kw en w).1 = Ok tt ->
     _live_sockets (Socket___init__ self kw en w).2 = <[self := self]> (_live_sockets w)
     /\ kw_opener kw = true /\ (on_open en).1 = 0%Z)
  /\ ((Socket___init__ self kw en w).1 <> Ok tt ->
     _live_sockets (Socket___init__ self kw en w).2 = _live_sockets w).
Proof.
  destruct (registry_after_init self kw en w) as [Hok Hfail].
  split; [ | exact Hfail ].
  intros Hr. split; [ by apply Hok | ].
  revert Hr. unfold Socket___init__, bind at 1 2 3, modify, Socket_set; simpl.
  destruct (kw_opener kw); simpl; [ | done ].
  unfold bind at 1 2 3, native, modify; simpl.
  destruct ((on_open en).1 =? 0)%Z eqn:Ho.
  - intros _. split; [ done | ]. by apply Z.eqb_eq.
  - simpl. unfold check_err. rewrite Ho. done.
Qed.

(** X5. [Socket()] with no opener, given or inherited, raises [TypeError]
    without a call into the engine and without registering anything.  The
    attribute [_socket] is assigned before the test, so that when the object
    is collected [close()] does call [nng_close], on the handle that no
    opener has filled in. *)
Theorem init_without_opener self kw en w :
  kw_opener kw = false ->
  exists w',
    Socket___init__ self kw en w = (Raise TypeError, w')
    /\ native_calls w' = native_calls w
    /\ _live_sockets w' = _live_sockets w
    /\ sockets w' !! self = Some (mkSocket ∅ ∅ ∅ [] [] [] false (Some 0%Z))
    /\ Socket___del__ self [] w' = (Ok tt, add_native_call (Nng_close 0) w').
Proof.
  intros Hk.
  assert (Hw : Socket___init__ self kw en w
               = (Raise TypeError,
                  set_sockets (<[self := mkSocket ∅ ∅ ∅ [] [] [] false (Some 0%Z)]>) w)).
  { unfold Socket___init__, bind at 1 2 3, modify, Socket_set. simpl.
    rewrite Hk. simpl. unfold set_sockets; simpl.
    by rewrite (alter_known _ _ _ _ (lookup_insert_eq _ _ _)), insert_insert_eq. }
  eexists. split; [ exact Hw | ]. simpl. rewrite lookup_insert_eq. repeat split.
  unfold Socket___del__, Socket_close, Socket_get, Socket_set, bind, native, modify, ret; simpl.
  rewrite lookup_insert_eq. simpl. unfold set_sockets, add_native_call; simpl.
  rewrite (alter_known _ _ _ _ (lookup_insert_eq _ _ _)), insert_insert_eq.

  rewrite (alter_known _ _ _ _ (lookup_insert_eq _ _ _)), insert_insert_eq.
  reflexivity.
Qed.

End Construction.

Lemma init_registers_iff_returns_witness :
  _live_sockets (Socket___init__ (H := nng_1) 100 dial_kwargs peer_is_listening empty_world).2
  = <[100%Z := 100%Z]> ∅
  /\ _live_sockets (Socket___init__ (H := nng_1) 100 dial_kwargs
                      (mkConstruction (0%Z, 7%Z) [] (0%Z, 0%Z, 0%Z) accepted refused accepted)
                      empty_world).2 = ∅.
Proof.
  split.
  - apply (init_registers_iff_returns (H := nng_1) 100 dial_kwargs peer_is_listening empty_world).
    vm_compute. reflexivity.
  - apply (init_registers_iff_returns (H := nng_1) 100 dial_kwargs
             (mkConstruction (0%Z, 7%Z) [] (0%Z, 0%Z, 0%Z) accepted refused accepted)
             empty_world).
    vm_compute. discriminate.
Defined.

Lemma init_without_opener_witness :
  exists w',
    Socket___init__ (H := nng_1) 100 (mkKwargs None (Some "tcp://127.0.0.1:13131") false 2 None)
      peer_is_listening empty_world = (Raise TypeError, w')
    /\ native_calls w' = [].
Proof.
  destruct (init_without_opener (H := nng_1) 100
              (mkKwargs None (Some "tcp://127.0.0.1:13131") false 2 None)
              peer_is_listening empty_world eq_refl) as (w' & H1 & H2 & _).
  exists w'. split; [ exact H1 | exact H2 ].
Defined.

(** * Endpoints: listen, dial, close, and the endpoints of a pipe *)

Section Endpoints.
Context `{NngLib}.

Lemma same_but_pipes s1 s :
  with_pipes ∅ s1 = with_pipes ∅ s ->
  _dialers s1 = _dialers s /\ _listeners s1 = _listeners s /\ _socket s1 = _socket s
  /\ _pipe_notify_lock s1 = _pipe_notify_lock s.
Proof. destruct s1, s; simpl. intros [= -> -> -> -> -> -> ->]. done. Qed.

Lemma quiescent_alter (f : Socket -> Socket) sid w :
  (forall s, _pipe_notify_lock (f s) = _pipe_notify_lock s) ->
  quiescent w -> quiescent (set_sockets (alter f sid) w).
Proof.
  intros Hf Hq sid' s' Hs'. simpl in Hs'.
  apply lookup_alter_Some in Hs' as [(-> & x & Hx & ->) | (_ & Hx)]; [ | by eapply Hq ].
  rewrite Hf. by eapply Hq.
Qed.

(* the engine's callbacks only add to the trace, and keep every pipe object *)
Lemma engine_calls_back_trace evs w :
  (exists nc, native_calls (engine_calls_back evs w).2 = native_calls w ++ nc)
  /\ pipes_grow w (engine_calls_back evs w).2.
Proof.
  apply (upd_engine_calls_back
           (fun w' => (exists nc, native_calls w' = native_calls w ++ nc) /\ pipes_grow w w')).
  - intros w1 w2 Hu ([nc Hnc] & Hg). split.
    + destruct Hu; simpl; eauto. exists (nc ++ [c]). by rewrite Hnc, app_assoc.
    + eapply pipes_grow_trans; [ exact Hg | by apply pipes_grow_update ].
  - split; [ exists []; by rewrite app_nil_r | apply pipes_grow_refl ].
Qed.

(* what the engine's callbacks leave of a quiescent store *)
Lemma engine_calls_back_effect evs w :
  quiescent w ->
  exists w1 nc,
    engine_calls_back evs w = (Ok tt, w1)
    /\ sockets_but_pipes w1 = sockets_but_pipes w
    /\ native_calls w1 = native_calls w ++ nc
    /\ pipes_grow w w1.
Proof.
  intros Hq. destruct (engine_calls_back_quiescent evs w Hq) as (w1 & H1 & Hf).
  destruct (engine_calls_back_trace evs w) as ([nc Hnc] & Hg). rewrite H1 in Hnc, Hg.
  exists w1, nc. done.
Qed.

Lemma listen_effect self address flags r w s h :
  quiescent w -> sockets w !! self = Some s -> _socket s = Some h ->
  exists o w' s' nc,
    Socket_listen self address flags r w = (o, w')
    /\ sockets w' !! self = Some s'
    /\ native_calls w' = native_calls w ++ Nng_listen h address flags (ret_code r) :: nc
    /\ pipes_grow w w'
    /\ _dialers s' = _dialers s
    /\ (ret_code r = 0%Z ->
        o = Ok tt
        /\ _listeners s' = <[new_id r := mkListener (new_id r) self]> (_listeners s))
    /\ (ret_code r <> 0%Z ->
        o = Raise (NNGException (ret_code r)) /\ _listeners s' = _listeners s).
Proof.
  intros Hq Hs Hh.
  unfold Socket_listen, Socket_socket, bind at 1 2, Socket_get. rewrite Hs, Hh. simpl.
  unfold bind at 1, native, modify.
  assert (Hq0 : quiescent (add_native_call (Nng_listen h address flags (ret_code r)) w))
    by exact Hq.
  destruct (engine_calls_back_effect (callbacks r) _ Hq0) as (w1 & nc & H1 & Hf & Hnc & Hg).
  simpl in Hnc. rewrite <- app_assoc in Hnc. simpl in Hnc.
  unfold bind at 1. rewrite H1.
  destruct (frame_lookup _ _ self s Hf Hs) as (s1 & Hs1 & Heq).
  destruct (same_but_pipes _ _ Heq) as (Hd & Hl & _).
  unfold bind, check_err, Socket_set, modify.
  destruct (Z.eqb_spec (ret_code r) 0) as [Hz | Hz]; simpl.
  - eexists _, _, _, nc. split; [ reflexivity | ]. simpl.
    rewrite (alter_known _ _ _ _ Hs1), lookup_insert_eq. split; [ reflexivity | ].
    split; [ exact Hnc | ]. split; [ exact Hg | ]. split; [ exact Hd | ].
    split; [ intros _; simpl; by rewrite Hl | done ].
  - eexists _, _, _, nc. split; [ reflexivity | ]. simpl.
    split; [ exact Hs1 | ]. split; [ exact Hnc | ].
    split; [ exact Hg | ]. split; [ exact Hd | ]. split; [ done | by intros _ ].
Qed.

Lemma dial_effect self address flags r w s h :
  quiescent w -> sockets w !! self = Some s -> _socket s = Some h ->
  exists o w' s' nc,
    Socket__dial self address flags r w = (o, w')
    /\ sockets w' !! self = Some s'
    /\ native_calls w' = native_calls w ++ Nng_dial h address flags (ret_code r) :: nc
    /\ pipes_grow w w'
    /\ _listeners s' = _listeners s
    /\ (ret_code r = 0%Z ->
        o = Ok tt /\ _dialers s' = <[new_id r := mkDialer (new_id r) self]> (_dialers s))
    /\ (ret_code r <> 0%Z ->
        o = Raise (NNGException (ret_code r)) /\ _dialers s' = _dialers s).
Proof.
  intros Hq Hs Hh.
  unfold Socket__dial, Socket_socket, bind at 1 2, Socket_get. rewrite Hs, Hh. simpl.
  unfold bind at 1, native, modify.
  assert (Hq0 : quiescent (add_native_call (Nng_dial h address flags (ret_code r)) w))
    by exact Hq.
  destruct (engine_calls_back_effect (callbacks r) _ Hq0) as (w1 & nc & H1 & Hf & Hnc & Hg).
  simpl in Hnc. rewrite <- app_assoc in Hnc. simpl in Hnc.
  unfold bind at 1. rewrite H1.
  destruct (frame_lookup _ _ self s Hf Hs) as (s1 & Hs1 & Heq).
  destruct (same_but_pipes _ _ Heq) as (Hd & Hl & _).
  unfold bind, check_err, Socket_set, modify.
  destruct (Z.eqb_spec (ret_code r) 0) as [Hz | Hz]; simpl.
  - eexists _, _, _, nc. split; [ reflexivity | ]. simpl.
    rewrite (alter_known _ _ _ _ Hs1), lookup_insert_eq. split; [ reflexivity | ].
    split; [ exact Hnc | ]. split; [ exact Hg | ]. split; [ exact Hl | ].
    split; [ intros _; simpl; by rewrite Hd | done ].
  - eexists _, _, _, nc. split; [ reflexivity | ]. simpl.
    split; [ exact Hs1 | ]. split; [ exact Hnc | ].
    split; [ exact Hg | ]. split; [ exact Hl | ]. split; [ done | by intros _ ].
Qed.

Lemma close_effect self evs w s h :
  quiescent w -> sockets w !! self = Some s -> _socket s = Some h ->
  exists w' s' nc,
    Socket_close self evs w = (Ok tt, w')
    /\ sockets w' !! self = Some s'
    /\ native_calls w' = native_calls w ++ Nng_close h :: nc
    /\ pipes_grow w w'
    /\ _dialers s' = ∅ /\ _listeners s' = ∅
    /\ quiescent w'.
Proof.
  intros Hq Hs Hh. unfold Socket_close, bind at 1, Socket_get. rewrite Hs, Hh.
  unfold bind at 1, native, modify.
  assert (Hq0 : quiescent (add_native_call (Nng_close h) w)) by exact Hq.
  destruct (engine_calls_back_effect evs _ Hq0) as (w1 & nc & H1 & Hf & Hnc & Hg).
  simpl in Hnc. rewrite <- app_assoc in Hnc. simpl in Hnc.
  unfold bind at 1. rewrite H1.
  destruct (frame_lookup _ _ self s Hf Hs) as (s1 & Hs1 & Heq).
  assert (Hq1 : quiescent w1) by (eapply quiescent_frame; eauto).
  assert (Hq2 : quiescent (set_sockets (alter (with_dialers ∅) self)
                             (set_sockets (alter (with_listeners ∅) self) w1))).
  { apply quiescent_alter; [ by intros [] | ]. apply quiescent_alter; [ by intros [] | done ]. }
  revert Hq2. unfold Socket_set, bind, modify, set_sockets; simpl.
  rewrite (alter_known _ _ _ _ Hs1).
  rewrite (alter_known _ _ _ _ (lookup_insert_eq _ _ _)), insert_insert_eq. intros Hq2.
  eexists _, _, nc. split; [ reflexivity | ]. simpl. rewrite lookup_insert_eq.
  split; [ reflexivity | ]. split; [ exact Hnc | ].
  split; [ exact Hg | done ].
Qed.

(** X6. On an open socket with no dispatch in progress, [listen] and
    [dial(block=True|False)] make one engine call, with the socket's handle
    and, for [dial], flags 0 or [NNG_FLAG_NONBLOCK], and record the new
    endpoint under the engine's id exactly when the engine answers 0;
    otherwise they raise the engine's error and both endpoint tables are
    what they were. *)
Theorem listen_and_dial_record_endpoints self address w s h :
  quiescent w -> sockets w !! self = Some s -> _socket s = Some h ->
  (forall flags r, exists o w' s' nc,
      Socket_listen self address flags r w = (o, w')
      /\ sockets w' !! self = Some s'
      /\ native_calls w' = native_calls w ++ Nng_listen h address flags (ret_code r) :: nc
      /\ _dialers s' = _dialers s
      /\ (ret_code r = 0%Z ->
          o = Ok tt
          /\ _listeners s' = <[new_id r := mkListener (new_id r) self]> (_listeners s))
      /\ (ret_code r <> 0%Z ->
          o = Raise (NNGException (ret_code r)) /\ _listeners s' = _listeners s))
  /\ (forall block r r2, exists o w' s' nc,
      Socket_dial self address (Some block) r r2 w = (o, w')
      /\ sockets w' !! self = Some s'
      /\ native_calls w'
         = native_calls w
           ++ Nng_dial h address (if block then 0%Z else NNG_FLAG_NONBLOCK) (ret_code r) :: nc
      /\ _listeners s' = _listeners s
      /\ (ret_code r = 0%Z ->
          o = Ok tt /\ _dialers s' = <[new_id r := mkDialer (new_id r) self]> (_dialers s))
      /\ (ret_code r <> 0%Z ->
          o = Raise (NNGException (ret_code r)) /\ _dialers s' = _dialers s)).
Proof.
  intros Hq Hs Hh. split.
  - intros flags r.
    destruct (listen_effect self address flags r w s h Hq Hs Hh)
      as (o & w' & s' & nc & H1 & H2 & H3 & _ & H4 & H5 & H6).
    exists o, w', s', nc. done.
  - intros block r r2. unfold Socket_dial, Socket_dial_bool.
    destruct block.
    + destruct (dial_effect self address 0 r w s h Hq Hs Hh)
        as (o & w' & s' & nc & H1 & H2 & H3 & _ & H4 & H5 & H6).
      exists o, w', s', nc. done.
    + destruct (dial_effect self address NNG_FLAG_NONBLOCK r w s h Hq Hs Hh)
        as (o & w' & s' & nc & H1 & H2 & H3 & _ & H4 & H5 & H6).
      exists o, w', s', nc. done.
Qed.

(** X7. [with sock: ...] closes the socket when the block is left, by
    return or by exception: [nng_close] is called on the socket's handle,
    the dialer and listener tables are empty afterwards, and what the block
    returned or raised is what the caller gets. *)
Theorem with_Socket_closes {A} self evs (body : Z -> M World A) w o w1 s1 h :
  body self w = (o, w1) -> o <> Hang ->
  quiescent w1 -> sockets w1 !! self = Some s1 -> _socket s1 = Some h ->
  exists w2 s2 nc,
    with_Socket self evs body w = (o, w2)
    /\ sockets w2 !! self = Some s2 /\ _dialers s2 = ∅ /\ _listeners s2 = ∅
    /\ native_calls w2 = native_calls w1 ++ Nng_close h :: nc.
Proof.
  intros Hb Ho Hq Hs Hh.
  destruct (close_effect self evs w1 s1 h Hq Hs Hh)
    as (w2 & s2 & nc & Hc & Hs2 & Hnc & _ & Hd & Hl & _).
  exists w2, s2, nc.
  unfold with_Socket, Socket___enter__, Socket___exit__, bind, ret, try_finally.
  rewrite Hb. destruct o as [a | e | ]; [ | | done ]; rewrite Hc; done.
Qed.

(** X8. [Pipe.dialer] and [Pipe.listener] raise [TypeError] when the engine
    names no endpoint of that kind (a negative id).  After a dial on the
    pipe's socket that the engine accepted, [Pipe.dialer] finds the [Dialer]
    recorded under the new id; after the socket was closed, both properties
    raise [KeyError] for every id, the tables having been emptied. *)
Theorem pipe_endpoints r p w s h :
  quiescent w -> pipes w !! r = Some p ->
  sockets w !! pipe_socket p = Some s -> _socket s = Some h ->
  (forall id, (id < 0)%Z ->
     Pipe_dialer r id w = (Raise TypeError, w) /\ Pipe_listener r id w = (Raise TypeError, w))
  /\ (forall address block res r2 w',
        (0 <= new_id res)%Z ->
        Socket_dial (pipe_socket p) address (Some block) res r2 w = (Ok tt, w') ->
        Pipe_dialer r (new_id res) w' = (Ok (mkDialer (new_id res) (pipe_socket p)), w'))
  /\ (forall evs w' id,
        (0 <= id)%Z -> Socket_close (pipe_socket p) evs w = (Ok tt, w') ->
        Pipe_dialer r id w' = (Raise KeyError, w')
        /\ Pipe_listener r id w' = (Raise KeyError, w')).
Proof.
  intros Hq Hp Hs Hh. split; [ | split ].
  - intros id Hid. unfold Pipe_dialer, Pipe_listener.
    destruct (Z.ltb_spec id 0); [ done | lia ].
  - intros address block res r2 w' Hid Hdial.
    assert (Hex : exists flags, Socket__dial (pipe_socket p) address flags res w = (Ok tt, w')).
    { unfold Socket_dial, Socket_dial_bool in Hdial. destruct block; eauto. }
    destruct Hex as [flags Hd].
    destruct (dial_effect (pipe_socket p) address flags res w s h Hq Hs Hh)
      as (o & w'' & s' & nc & H1 & H2 & _ & Hg & _ & H5 & H6).
    rewrite Hd in H1. inversion H1; subst o w''.
    destruct (Z.eq_dec (ret_code res) 0%Z) as [Hz | Hz];
      [ | destruct (H6 Hz) as [? _]; discriminate ].
    destruct (H5 Hz) as [_ Hds].
    destruct (Hg r p Hp) as (p' & Hp' & _ & Hsock & _).
    unfold Pipe_dialer, Pipe_get, Socket_get, bind.
    destruct (Z.ltb_spec (new_id res) 0); [ lia | ].
    rewrite Hp'. simpl. rewrite Hsock, H2. simpl. by rewrite Hds, lookup_insert_eq.
  - intros evs w' id Hid Hclose.
    destruct (close_effect (pipe_socket p) evs w s h Hq Hs Hh)
      as (w'' & s' & nc & H1 & H2 & _ & Hg & Hd & Hl & _).
    rewrite Hclose in H1. inversion H1; subst w''.
    destruct (Hg r p Hp) as (p' & Hp' & _ & Hsock & _).
    unfold Pipe_dialer, Pipe_listener, Pipe_get, Socket_get, bind.
    destruct (Z.ltb_spec id 0); [ lia | ].
    rewrite Hp'. simpl. rewrite Hsock, H2. simpl. by rewrite Hd, Hl.
Qed.

End Endpoints.

Lemma listen_and_dial_record_endpoints_witness :
  exists w' s',
    Socket_listen (H := nng_1) 100 "tcp://127.0.0.1:13131" 0 accepted connected = (Ok tt, w')
    /\ sockets w' !! 100%Z = Some s'
    /\ _listeners s' = <[9%Z := mkListener 9 100]> {[ 4%Z := mkListener 4 100 ]}.
Proof.
  destruct (listen_and_dial_record_endpoints (H := nng_1) 100 "tcp://127.0.0.1:13131"
              connected
              (mkSocket {[ 3%Z := mkDialer 3 100 ]} {[ 4%Z := mkListener 4 100 ]}
                        {[ 5%Z := 0%nat ]} [] [failing_hook; quiet_hook]
                        [failing_hook; quiet_hook] false (Some 7%Z))
              7 (one_socket_quiescent _ _ _ _ _) eq_refl eq_refl) as [Hl _].
  destruct (Hl 0%Z accepted) as (o & w' & s' & nc & H1 & H2 & _ & _ & H5 & _).
  destruct (H5 eq_refl) as [-> H6].
  exists w', s'. split; [ exact H1 | ]. split; [ exact H2 | exact H6 ].
Defined.

Lemma with_Socket_closes_witness :
  exists w2 s2 nc,
    with_Socket (H := nng_1) 100 [] (fun _ => raise ValueError) connected
    = (Raise (A := unit) ValueError, w2)
    /\ sockets w2 !! 100%Z = Some s2 /\ _dialers s2 = ∅ /\ _listeners s2 = ∅
    /\ native_calls w2 = native_calls connected ++ Nng_close 7 :: nc.
Proof.
  apply (with_Socket_closes (H := nng_1) 100 [] (fun _ => raise ValueError) connected
           (Raise ValueError) connected
           (mkSocket {[ 3%Z := mkDialer 3 100 ]} {[ 4%Z := mkListener 4 100 ]}
                        {[ 5%Z := 0%nat ]} [] [failing_hook; quiet_hook]
                        [failing_hook; quiet_hook] false (Some 7%Z))
           7 eq_refl);
    [ discriminate | apply one_socket_quiescent | reflexivity | reflexivity ].
Defined.

Lemma pipe_endpoints_witness :
  Pipe_dialer 0 (-1) connected = (Raise TypeError, connected)
  /\ (forall w', Socket_close (H := nng_1) 100 [] connected = (Ok tt, w') ->
      Pipe_dialer 0 3 w' = (Raise KeyError, w')).
Proof.
  destruct (pipe_endpoints (H := nng_1) 0 (mkPipe 5 100 false) connected
              (mkSocket {[ 3%Z := mkDialer 3 100 ]} {[ 4%Z := mkListener 4 100 ]}
                        {[ 5%Z := 0%nat ]} [] [failing_hook; quiet_hook]
                        [failing_hook; quiet_hook] false (Some 7%Z))
              7 (one_socket_quiescent _ _ _ _ _) eq_refl eq_refl eq_refl) as (H1 & _ & H3).
  split.
  - apply (H1 (-1)%Z). lia.
  - intros w' Hc. apply (H3 [] w' 3%Z); [ lia | exact Hc ].
Defined.

(** * One event, one entry *)

Section Isolation.
Context `{NngLib}.

Ltac enter_cb Hreg Hs Hl :=
  unfold _nng_pipe_cb, bind at 1, live_sockets_getitem; rewrite Hreg, Hs;
  unfold with_sock_pipe_notify_lock, with_lock; rewrite Hs, Hl;
  unfold pipe_cb_locked.

(* a pre-add event, whatever the callbacks do *)
Lemma cb_pre_add_any lib_pipe arg w sock s :
  _live_sockets w !! arg = Some sock -> sockets w !! sock = Some s ->
  _pipe_notify_lock s = false ->
  exists o p' lg cs nc T,
    _nng_pipe_cb lib_pipe NNG_PIPE_EV_ADD_PRE arg w =
    (o, mkWorld (<[sock := with_pipes T s]> (sockets w)) (_live_sockets w) (pipes w ++ [p'])
                (log w ++ lg) (hook_calls w ++ cs) (native_calls w ++ nc))
    /\ o <> Hang
    /\ (T = <[nng_pipe_id lib_pipe := length (pipes w)]> (_pipes s)
        \/ T = delete (nng_pipe_id lib_pipe) (_pipes s)).
Proof.
  intros Hreg Hs Hl. enter_cb Hreg Hs Hl.
  unfold Socket__add_pipe, Pipe___init__. wstep.
  rewrite (alter_known _ _ _ _ Hs).
  rewrite (alter_known _ _ _ (with_pipe_notify_lock true s)) by apply lookup_insert_eq.
  rewrite lookup_insert_eq, insert_insert_eq. simpl.
  match goal with
  | |- context [run_callbacks ?e ?t ?c ?r0 ?w0] =>
      destruct (run_callbacks_any e t c r0 w0 (mkPipe lib_pipe sock false))
        as (o & p' & lg & cs & nc & Heq & Ho & _)
  end.
  { simpl. apply list_lookup_middle. reflexivity. }
  rewrite Heq. simpl.
  assert (Hins : <[length (pipes w) := p']> (pipes w ++ [mkPipe lib_pipe sock false])
                 = pipes w ++ [p']).
  { rewrite insert_app_r_alt by lia. by rewrite Nat.sub_diag. }
  rewrite Hins.
  destruct o as [[] | e | ]; [ | | done ]; simpl.
  - rewrite list_lookup_middle by reflexivity. simpl.
    destruct (_closed p') eqn:Hc.
    + wstep. rewrite lookup_insert_eq. simpl. rewrite lookup_insert_eq. simpl.
      rewrite (alter_known _ _ _ _ (lookup_insert_eq _ _ _)), insert_insert_eq. simpl.
      rewrite (alter_known _ _ _ _ (lookup_insert_eq _ _ _)), insert_insert_eq.
      rewrite delete_insert_eq.
      exists (Ok tt), p', lg, cs, nc, (delete (nng_pipe_id lib_pipe) (_pipes s)).
      split; [ | split; [ done | by right ] ].
      f_equal. f_equal. f_equal. destruct s; simpl in *; subst; reflexivity.
    + simpl. rewrite (alter_known _ _ _ _ (lookup_insert_eq _ _ _)), insert_insert_eq.
      exists (Ok tt), p', lg, cs, nc,
        (<[nng_pipe_id lib_pipe := length (pipes w)]> (_pipes s)).
      split; [ | split; [ done | by left ] ].
      f_equal. f_equal. f_equal. destruct s; simpl in *; subst; reflexivity.
  - rewrite (alter_known _ _ _ _ (lookup_insert_eq _ _ _)), insert_insert_eq.
    exists (Raise e), p', lg, cs, nc,
      (<[nng_pipe_id lib_pipe := length (pipes w)]> (_pipes s)).
    split; [ | split; [ done | by left ] ].
    f_equal. f_equal. f_equal. destruct s; simpl in *; subst; reflexivity.
Qed.

(* a post-add event for a pipe of the table, whatever the callbacks do *)
Lemma cb_post_add_any lib_pipe arg w sock s r p :
  _live_sockets w !! arg = Some sock -> sockets w !! sock = Some s ->
  _pipe_notify_lock s = false ->
  _pipes s !! nng_pipe_id lib_pipe = Some r -> pipes w !! r = Some p ->
  exists o p' lg cs nc,
    _nng_pipe_cb lib_pipe NNG_PIPE_EV_ADD_POST arg w =
    (o, mkWorld (sockets w) (_live_sockets w) (<[r := p']> (pipes w))
                (log w ++ lg) (hook_calls w ++ cs) (native_calls w ++ nc))
    /\ o <> Hang.
Proof.
  intros Hreg Hs Hl Hr Hp. enter_cb Hreg Hs Hl. wstep.
  rewrite (alter_known _ _ _ _ Hs), lookup_insert_eq. simpl. rewrite Hr. simpl.
  rewrite lookup_insert_eq. simpl.
  match goal with
  | |- context [run_callbacks ?e ?t ?c ?r0 ?w0] =>
      destruct (run_callbacks_any e t c r0 w0 p Hp) as (o & p' & lg & cs & nc & Heq & Ho & _)
  end.
  rewrite Heq. simpl. exists o, p', lg, cs, nc. split; [ | done ].
  destruct o as [[] | e | ]; [ | | done ]; simpl.
  all: rewrite (alter_known _ _ _ _ (lookup_insert_eq _ _ _)), insert_insert_eq.
  all: rewrite unlock_after_id by done; rewrite insert_id by done; reflexivity.
Qed.

Lemma insert_with_pipes_same (m : gmap Z Socket) sock s :
  m !! sock = Some s -> <[sock := with_pipes (_pipes s) s]> m = m.
Proof. intros Hs. rewrite with_pipes_id. by apply insert_id. Qed.

(** X9. A pipe event that resolves its socket, in a well-formed store and
    with the socket's lock free, does not wait, releases the lock, and
    changes one thing among the sockets: the entry of the event's pipe id in
    that socket's pipe table.  Every other entry, the socket's callbacks,
    endpoints and handle, every other socket and the registry are what they
    were; whatever the callbacks do, pipe objects are kept and the log, the
    list of calls and the engine trace only grow. *)
Theorem dispatch_changes_one_entry lib_pipe event arg w sock s :
  _live_sockets w !! arg = Some sock -> sockets w !! sock = Some s ->
  _pipe_notify_lock s = false -> wf_world w ->
  exists o w' T,
    _nng_pipe_cb lib_pipe event arg w = (o, w')
    /\ o <> Hang
    /\ sockets w' = <[sock := with_pipes T s]> (sockets w)
    /\ (forall pid, pid <> nng_pipe_id lib_pipe -> T !! pid = _pipes s !! pid)
    /\ _live_sockets w' = _live_sockets w
    /\ pipes_grow w w'
    /\ (exists lg cs nc,
          log w' = log w ++ lg /\ hook_calls w' = hook_calls w ++ cs
          /\ native_calls w' = native_calls w ++ nc).
Proof.
  intros Hreg Hs Hl [Hwf _].
  assert (Hgrow : forall o w', _nng_pipe_cb lib_pipe event arg w = (o, w') -> pipes_grow w w').
  { intros o w' Heq.
    pose proof (upd_nng_pipe_cb (pipes_grow w)
                  (fun w1 w2 Hu Hg => pipes_grow_trans _ _ _ Hg (pipes_grow_update _ _ Hu))
                  lib_pipe event arg w (pipes_grow_refl w)) as [Hg _].
    by rewrite Heq in Hg. }
  destruct event as [ | | | n].
  - destruct (cb_pre_add_any lib_pipe arg w sock s Hreg Hs Hl)
      as (o & p' & lg & cs & nc & T & Heq & Ho & HT).
    exists o; eexists; exists T. split; [ exact Heq | ]. split; [ done | ]. split; [ done | ].
    split. { intros pid Hne. destruct HT as [-> | ->].
             - by rewrite lookup_insert_ne.
             - by rewrite lookup_delete_ne. }
    split; [ done | ]. split; [ by eapply Hgrow | ]. by exists lg, cs, nc.
  - destruct (_pipes s !! nng_pipe_id lib_pipe) as [r | ] eqn:Hr.
    + destruct (lookup_lt_is_Some_2 (pipes w) r (Hwf _ _ _ _ Hs Hr)) as [p Hp].
      destruct (cb_post_add_any lib_pipe arg w sock s r p Hreg Hs Hl Hr Hp)
        as (o & p' & lg & cs & nc & Heq & Ho).
      exists o; eexists; exists (_pipes s). split; [ exact Heq | ]. split; [ done | ]. simpl.
      split; [ by rewrite insert_with_pipes_same | ]. split; [ done | ].
      split; [ done | ]. split; [ by eapply Hgrow | ]. by exists lg, cs, nc.
    + exists (Raise KeyError), w, (_pipes s).
      split; [ exact (cb_post_add_absent lib_pipe arg w sock s Hreg Hs Hl Hr) | ]. split; [ done | ].
      split; [ by rewrite insert_with_pipes_same | ]. split; [ done | ].
      split; [ done | ]. split; [ apply pipes_grow_refl | ].
      exists [], [], []. by rewrite !app_nil_r.
  - destruct (_pipes s !! nng_pipe_id lib_pipe) as [r | ] eqn:Hr.
    + destruct (lookup_lt_is_Some_2 (pipes w) r (Hwf _ _ _ _ Hs Hr)) as [p Hp].
      destruct (cb_rem_post_any lib_pipe arg w sock s r p Hreg Hs Hl Hr Hp)
        as (o & p' & lg & cs & nc & Heq & Ho & _).
      exists o; eexists; exists (delete (nng_pipe_id lib_pipe) (_pipes s)).
      split; [ exact Heq | ]. split; [ done | ]. split; [ done | ].
      split; [ intros pid Hne; by rewrite lookup_delete_ne | ].
      split; [ done | ]. split; [ by eapply Hgrow | ]. by exists lg, cs, nc.
    + exists (Ok tt); eexists; exists (_pipes s).
      split; [ exact (cb_rem_post_absent lib_pipe arg w sock s Hreg Hs Hl Hr) | ]. split; [ done | ]. simpl.
      split; [ by rewrite insert_with_pipes_same | ]. split; [ done | ].
      split; [ done | ]. split; [ intros r p Hp; by exists p | ].
      exists [LogDebug "Could not find pipe for socket"], [], []. by rewrite !app_nil_r.
  - exists (Ok tt), w, (_pipes s).
    split; [ exact (cb_other lib_pipe n arg w sock s Hreg Hs Hl) | ]. split; [ done | ].
    split; [ by rewrite insert_with_pipes_same | ]. split; [ done | ].
    split; [ done | ]. split; [ apply pipes_grow_refl | ].
    exists [], [], []. by rewrite !app_nil_r.
Qed.

(** X10. A pipe that enters a socket's table with its pre-add event is out
    of it after its post-remove event, whatever the callbacks of either
    event do (raise, close the pipe, or let an exception that is no
    [Exception] escape): after the two events the table is the one from
    before without the pipe's id, so a socket that had no entry for the id
    is exactly what it was. *)
Theorem pre_add_then_post_remove lib_pipe arg w sock s :
  _live_sockets w !! arg = Some sock -> sockets w !! sock = Some s ->
  _pipe_notify_lock s = false ->
  exists o1 w1 o2 w2 s2,
    _nng_pipe_cb lib_pipe NNG_PIPE_EV_ADD_PRE arg w = (o1, w1)
    /\ _nng_pipe_cb lib_pipe NNG_PIPE_EV_REM_POST arg w1 = (o2, w2)
    /\ o1 <> Hang /\ o2 <> Hang
    /\ sockets w2 !! sock = Some s2
    /\ _pipes s2 = delete (nng_pipe_id lib_pipe) (_pipes s)
    /\ (_pipes s !! nng_pipe_id lib_pipe = None -> sockets w2 = sockets w).
Proof.
  intros Hreg Hs Hl.
  destruct (cb_pre_add_any lib_pipe arg w sock s Hreg Hs Hl)
    as (o1 & p' & lg & cs & nc & T & Heq & Ho & HT).
  set (w1 := mkWorld _ _ _ _ _ _) in Heq.
  assert (Hreg1 : _live_sockets w1 !! arg = Some sock) by exact Hreg.
  assert (Hs1 : sockets w1 !! sock = Some (with_pipes T s)) by apply lookup_insert_eq.
  assert (Hl1 : _pipe_notify_lock (with_pipes T s) = false) by exact Hl.
  assert (Hfinal : forall (m : gmap Z Socket) T',
             _pipes s !! nng_pipe_id lib_pipe = None ->
             T' = delete (nng_pipe_id lib_pipe) (_pipes s) ->
             <[sock := with_pipes T' s]> m = <[sock := s]> m).
  { intros m T' Hnone ->. by rewrite delete_id, with_pipes_id. }
  destruct HT as [-> | ->].
  - destruct (cb_rem_post_any lib_pipe arg w1 sock _ (length (pipes w)) p' Hreg1 Hs1 Hl1)
      as (o2 & p2 & lg2 & cs2 & nc2 & Heq2 & Ho2 & _).
    { simpl. apply lookup_insert_eq. }
    { simpl. apply list_lookup_middle. reflexivity. }
    exists o1, w1, o2; do 2 eexists. split; [ exact Heq | ]. split; [ exact Heq2 | ].
    split; [ done | ]. split; [ done | ]. simpl.
    split; [ apply lookup_insert_eq | ]. simpl.
    split; [ by rewrite delete_insert_eq | ].
    intros Hnone. rewrite insert_insert_eq, delete_insert_eq.
    rewrite (Hfinal _ _ Hnone eq_refl). by apply insert_id.
  - exists o1, w1, (Ok tt); do 2 eexists. split; [ exact Heq | ].
    split. { apply (cb_rem_post_absent lib_pipe arg w1 sock _ Hreg1 Hs1 Hl1).
             simpl. apply lookup_delete_eq. }
    split; [ done | ]. split; [ done | ]. simpl.
    split; [ apply lookup_insert_eq | ]. split; [ done | ].
    intros Hnone. rewrite (Hfinal _ _ Hnone eq_refl). by apply insert_id.
Qed.

(* [close()] changes neither the callbacks of the socket nor the registry *)
Lemma close_keeps_callbacks self evs w s h :
  quiescent w -> sockets w !! self = Some s -> _socket s = Some h ->
  exists w' s',
    Socket_close self evs w = (Ok tt, w')
    /\ sockets w' !! self = Some s'
    /\ _on_pre_pipe_add s' = _on_pre_pipe_add s
    /\ _pipe_notify_lock s' = false
    /\ _live_sockets w' = _live_sockets w.
Proof.
  intros Hq Hs Hh.
  assert (Hclose : exists w' s',
            Socket_close self evs w = (Ok tt, w')
            /\ sockets w' !! self = Some s'
            /\ _on_pre_pipe_add s' = _on_pre_pipe_add s
            /\ _pipe_notify_lock s' = false).
  { unfold Socket_close, bind at 1, Socket_get. rewrite Hs, Hh.
    unfold bind at 1, native, modify.
    assert (Hq0 : quiescent (add_native_call (Nng_close h) w)) by exact Hq.
    destruct (engine_calls_back_quiescent evs _ Hq0) as (w1 & H1 & Hf).
    unfold bind at 1. rewrite H1.
    destruct (frame_lookup _ _ self s Hf Hs) as (s1 & Hs1 & Heq).
    unfold Socket_set, bind, modify, set_sockets; simpl.
    rewrite (alter_known _ _ _ _ Hs1).
    rewrite (alter_known _ _ _ _ (lookup_insert_eq _ _ _)), insert_insert_eq.
    do 2 eexists. split; [ reflexivity | ]. simpl. rewrite lookup_insert_eq.
    split; [ reflexivity | ]. simpl.
    pose proof (Hq self s Hs) as Hl. destruct s1, s; simpl in *. inversion Heq; by subst. }
  destruct Hclose as (w' & s' & Hc & Hs' & Hpre & Hl).
  exists w', s'. repeat split; try done.
  pose proof (registry_kept_close (_live_sockets w) self evs w eq_refl) as [Hk _].
  by rewrite Hc in Hk.
Qed.

(** X11. [Socket.close()] does not take the socket out of [_live_sockets]:
    the registry is what it was, and a pre-add event that the engine still
    delivers for the closed socket is dispatched as before: the callbacks
    registered before the close are called, a [Pipe] object is created and
    entered into the table of the closed socket, and it is taken out again
    before the dispatcher returns exactly when the loop over the callbacks
    ran to its end and left the pipe closed. *)
Theorem closed_socket_stays_registered self arg evs w s h :
  quiescent w -> sockets w !! self = Some s -> _socket s = Some h ->
  _live_sockets w !! arg = Some self ->
  exists w' s',
    Socket_close self evs w = (Ok tt, w')
    /\ _live_sockets w' = _live_sockets w
    /\ sockets w' !! self = Some s'
    /\ forall lib_pipe,
         let l := callbacks_loop "Exception raised in pre pipe connect callback"
                    (_on_pre_pipe_add s) (mkPipe lib_pipe self false) in
         let pid := nng_pipe_id lib_pipe in
         exists w'' T,
           _nng_pipe_cb lib_pipe NNG_PIPE_EV_ADD_PRE arg w' = (loop_outcome l, w'')
           /\ pipes w'' = pipes w' ++ [le_pipe l]
           /\ sockets w'' = <[self := with_pipes T s']> (sockets w')
           /\ (le_raised l = None -> _closed (le_pipe l) = true -> T = delete pid (_pipes s'))
           /\ (le_raised l = None -> _closed (le_pipe l) = false ->
               T = <[pid := length (pipes w')]> (_pipes s'))
           /\ (forall e, le_raised l = Some e -> T = <[pid := length (pipes w')]> (_pipes s')).
Proof.
  intros Hq Hs Hh Hreg.
  destruct (close_keeps_callbacks self evs w s h Hq Hs Hh) as (w' & s' & Hc & Hs' & Hpre & Hl & Hlive).
  exists w', s'. split; [ exact Hc | ]. split; [ exact Hlive | ]. split; [ exact Hs' | ].
  intros lib_pipe l pid.
  assert (Hreg' : _live_sockets w' !! arg = Some self) by (by rewrite Hlive).
  pose proof (cb_pre_add_exact lib_pipe arg w' self s' Hreg' Hs' Hl) as Heq.
  simpl in Heq. rewrite Hpre in Heq. fold l in Heq. fold pid in Heq.
  eexists _, _. split; [ exact Heq | ]. simpl. split; [ reflexivity | ].
  split; [ reflexivity | ]. unfold table_after_pre_add.
  split; [ by intros -> -> | ]. split; [ by intros -> -> | by intros e -> ].
Qed.

End Isolation.

Lemma dispatch_changes_one_entry_witness :
  exists o w' T,
    _nng_pipe_cb (H := nng_1) 5 NNG_PIPE_EV_REM_POST 100 connected = (o, w')
    /\ sockets w' !! 100%Z
       = Some (mkSocket {[ 3%Z := mkDialer 3 100 ]} {[ 4%Z := mkListener 4 100 ]} T []
                        [failing_hook; quiet_hook] [failing_hook; quiet_hook] false (Some 7%Z))
    /\ _live_sockets w' = {[ 100%Z := 100%Z ]}.
Proof.
  destruct (dispatch_changes_one_entry (H := nng_1) 5 NNG_PIPE_EV_REM_POST 100 connected 100
              (mkSocket {[ 3%Z := mkDialer 3 100 ]} {[ 4%Z := mkListener 4 100 ]}
                        {[ 5%Z := 0%nat ]} [] [failing_hook; quiet_hook]
                        [failing_hook; quiet_hook] false (Some 7%Z))
              eq_refl eq_refl eq_refl connected_wf)
    as (o & w' & T & H1 & _ & H3 & _ & H5 & _).
  exists o, w', T. split; [ exact H1 | ]. split; [ | exact H5 ].
  rewrite H3. apply lookup_insert_eq.
Defined.

Lemma pre_add_then_post_remove_witness :
  exists o1 w1 o2 w2,
    _nng_pipe_cb (H := nng_1) 8 NNG_PIPE_EV_ADD_PRE 100 listening = (o1, w1)
    /\ _nng_pipe_cb (H := nng_1) 8 NNG_PIPE_EV_REM_POST 100 w1 = (o2, w2)
    /\ sockets w2 = sockets listening.
Proof.
  destruct (pre_add_then_post_remove (H := nng_1) 8 100 listening 100
              (mkSocket {[ 3%Z := mkDialer 3 100 ]} {[ 4%Z := mkListener 4 100 ]} ∅
                        [failing_hook; closing_hook; quiet_hook] [failing_hook; quiet_hook]
                        [failing_hook; quiet_hook] false (Some 7%Z))
              eq_refl eq_refl eq_refl)
    as (o1 & w1 & o2 & w2 & s2 & H1 & H2 & _ & _ & _ & _ & H7).
  exists o1, w1, o2, w2. split; [ exact H1 | ]. split; [ exact H2 | ].
  apply H7. reflexivity.
Defined.

Lemma closed_socket_stays_registered_witness :
  exists w' s',
    Socket_close (H := nng_1) 100 [] connected = (Ok tt, w')
    /\ _live_sockets w' = _live_sockets connected
    /\ sockets w' !! 100%Z = Some s'.
Proof.
  destruct (closed_socket_stays_registered (H := nng_1) 100 100 [] connected
              (mkSocket {[ 3%Z := mkDialer 3 100 ]} {[ 4%Z := mkListener 4 100 ]}
                        {[ 5%Z := 0%nat ]} [] [failing_hook; quiet_hook]
                        [failing_hook; quiet_hook] false (Some 7%Z))
              7 (one_socket_quiescent _ _ _ _ _) eq_refl eq_refl eq_refl)
    as (w' & s' & H1 & H2 & H3 & _).
  exists w', s'. split; [ exact H1 | ]. split; [ exact H2 | exact H3 ].
Defined.

(** * Messages: reading, sending from a pipe, and the aio of a context *)

Section MessageUse.
Context `{NngLib}.

Ltac msg_steps :=
  unfold Pipe_send_msg, Message_bytes, Message__buffer, Context_send_msg, Socket_send_msg,
    Message_pipe_setter, Message___del__, with_mem_freed_lock, with_lock, try_finally, bind,
    Message__ensure_can_send, msg_native, check_err, gets, modify, ret, raise; simpl.

Ltac by_code rv :=
  let E := fresh "E" in
  destruct (Z.eqb_spec rv 0) as [E | E]; [ try subst rv | ]; simpl; try done.

(** X12. [Message.bytes] returns the content of the buffer as long as the
    message has not been given away, and leaves the message as it is; once
    the message was sent or freed, it raises [TypeError] ([_buffer] being
    [None]).  So the bytes can be read after a send that failed, and cannot
    after one that succeeded. *)
Theorem bytes_until_sent body st :
  _mem_freed_lock (msg st) = false ->
  (_mem_freed (msg st) = false -> Message_bytes body st = (Ok body, st))
  /\ (_mem_freed (msg st) = true -> Message_bytes body st = (Raise TypeError, st))
  /\ (forall sock block st',
        Socket_send_msg sock block 0 st = (Ok tt, st') ->
        Message_bytes body st' = (Raise TypeError, st'))
  /\ (forall sock block rv o st',
        _mem_freed (msg st) = false -> rv <> 0%Z ->
        Socket_send_msg sock block rv st = (o, st') ->
        o = Raise (NNGException rv) /\ Message_bytes body st' = (Ok body, st'))
  /\ (forall st', Message___del__ st = (Ok tt, st') ->
        Message_bytes body st' = (Raise TypeError, st')).
Proof.
  destruct st as [[f l h p] calls]; simpl. intros ->.
  split; [ intros ->; reflexivity | ]. split; [ intros ->; reflexivity | ].
  split; [ | split ].
  - intros sock block st'. msg_steps. destruct f; simpl; [ done | ].
    intros [= <-]. reflexivity.
  - intros sock block rv o st' -> Hrv. msg_steps. by_code rv.
    intros [= <- <-]. done.
  - intros st'. msg_steps. destruct f; simpl; intros [= <-]; reflexivity.
Qed.

(** X13. [Pipe.send_msg] first assigns the pipe, then sends.  On a message
    that was already given away it raises [MessageStateError], but only
    after [nng_msg_set_pipe] was called on the buffer that is no longer the
    message's, and it re-associates the message.  When the engine rejects
    the pipe, nothing is sent and the message is unchanged; otherwise the
    message goes out with a blocking [nng_sendmsg], and is marked as sent
    exactly when that succeeds. *)
Theorem Pipe_send_msg_paths self sock r_set r_send st :
  _mem_freed_lock (msg st) = false ->
  (r_set <> 0%Z ->
     Pipe_send_msg self sock r_set r_send st
     = (Raise (NNGException r_set),
        mkMsgSt (msg st) (msg_calls st ++ [Nng_msg_set_pipe (_nng_msg (msg st)) r_set])))
  /\ (r_set = 0%Z -> _mem_freed (msg st) = true ->
      Pipe_send_msg self sock r_set r_send st
      = (Raise MessageStateError,
         mkMsgSt (mkMessage true false (_nng_msg (msg st)) (Some self))
                 (msg_calls st ++ [Nng_msg_set_pipe (_nng_msg (msg st)) 0])))
  /\ (r_set = 0%Z -> _mem_freed (msg st) = false ->
      Pipe_send_msg self sock r_set r_send st
      = (if (r_send =? 0)%Z then Ok tt else Raise (NNGException r_send),
         mkMsgSt (mkMessage (r_send =? 0)%Z false (_nng_msg (msg st)) (Some self))
                 (msg_calls st ++ [Nng_msg_set_pipe (_nng_msg (msg st)) 0;
                                   Nng_sendmsg sock (_nng_msg (msg st)) 0 r_send]))).
Proof.
  destruct st as [[f l h p] calls]; simpl. intros ->. split; [ | split ].
  - intros Hr. msg_steps. by_code r_set.
  - intros -> ->. reflexivity.
  - intros -> ->. msg_steps. rewrite <- app_assoc. simpl. by_code r_send.
Qed.

(** X14. [Context.send_msg] never leaks its aio and never frees one it has
    not got: the calls it makes are none at all (the message was already
    sent), or the one failed [nng_aio_alloc], or they start with the
    successful [nng_aio_alloc] and end with the one [nng_aio_free], whatever
    the engine answers in between; and it leaves the message's lock free. *)
Theorem Context_send_msg_frees_aio ctx r_alloc r_set r_send r_wait r_result st :
  _mem_freed_lock (msg st) = false ->
  exists o st' new,
    Context_send_msg ctx r_alloc r_set r_send r_wait r_result st = (o, st')
    /\ o <> Hang
    /\ _mem_freed_lock (msg st') = false
    /\ msg_calls st' = msg_calls st ++ new
    /\ ((new = [] /\ o = Raise MessageStateError /\ _mem_freed (msg st) = true)
        \/ (new = [Nng_aio_alloc r_alloc] /\ r_alloc <> 0%Z /\ o = Raise (NNGException r_alloc))
        \/ (exists mid, new = Nng_aio_alloc 0 :: mid ++ [Nng_aio_free]
                        /\ r_alloc = 0%Z
                        /\ Forall (fun c => allocates_or_frees_aio c = false) mid)).
Proof.
  destruct st as [[f l h p] calls]; simpl. intros ->.
  destruct f.
  { exists (Raise MessageStateError), (mkMsgSt (mkMessage true false h p) calls), [].
    rewrite app_nil_r. split; [ reflexivity | ]. repeat split; try done. by left. }
  msg_steps. by_code r_alloc.
  2: { do 3 eexists. split; [ reflexivity | ]. simpl. repeat split; try done.
       right; left. done. }
  by_code r_set; [ by_code r_send; [ by_code r_wait; [ by_code r_result | ] | ] | ].
  all: do 3 eexists; (split; [ reflexivity | ]); simpl.
  all: split; [ done | ]; split; [ done | ].
  all: rewrite <- ?app_assoc; simpl; split; [ reflexivity | ].
  all: right; right.
  - exists [Nng_aio_set_msg h 0; Nng_ctx_send ctx 0; Nng_aio_wait 0; Nng_aio_result 0].
    repeat split; try done. repeat constructor.
  - exists [Nng_aio_set_msg h 0; Nng_ctx_send ctx 0; Nng_aio_wait 0; Nng_aio_result r_result].
    repeat split; try done. repeat constructor.
  - exists [Nng_aio_set_msg h 0; Nng_ctx_send ctx 0; Nng_aio_wait r_wait].
    repeat split; try done. repeat constructor.
  - exists [Nng_aio_set_msg h 0; Nng_ctx_send ctx r_send].
    repeat split; try done. repeat constructor.
  - exists [Nng_aio_set_msg h r_set].
    repeat split; try done. repeat constructor.
Qed.

End MessageUse.

Lemma bytes_until_sent_witness :
  Message_bytes [104; 105]%Z (fresh_message 7 None) = (Ok [104; 105]%Z, fresh_message 7 None)
  /\ Message_bytes [104; 105]%Z (Socket_send_msg (H := nng_1) 1 true 0 (fresh_message 7 None)).2
     = (Raise TypeError, (Socket_send_msg (H := nng_1) 1 true 0 (fresh_message 7 None)).2).
Proof.
  destruct (bytes_until_sent (H := nng_1) [104; 105]%Z (fresh_message 7 None) eq_refl)
    as (H1 & _ & H3 & _).
  split; [ apply H1; reflexivity | ].
  apply (H3 1%Z true). reflexivity.
Defined.

Lemma Pipe_send_msg_paths_witness :
  Pipe_send_msg (H := nng_1) 0 7 0 0 (mkMsgSt (mkMessage true false 9 None) [Nng_sendmsg 7 9 0 0])
  = (Raise MessageStateError,
     mkMsgSt (mkMessage true false 9 (Some 0%nat)) [Nng_sendmsg 7 9 0 0; Nng_msg_set_pipe 9 0]).
Proof.
  destruct (Pipe_send_msg_paths (H := nng_1) 0 7 0 0
              (mkMsgSt (mkMessage true false 9 None) [Nng_sendmsg 7 9 0 0]) eq_refl)
    as (_ & H2 & _).
  apply H2; reflexivity.
Defined.

Lemma Context_send_msg_frees_aio_witness :
  exists o st' new,
    Context_send_msg 2 0 0 0 11 0 (fresh_message 7 None) = (o, st')
    /\ msg_calls st' = [] ++ new
    /\ last new = Some Nng_aio_free.
Proof.
  destruct (Context_send_msg_frees_aio 2 0 0 0 11 0 (fresh_message 7 None) eq_refl)
    as (o & st' & new & H1 & _ & _ & H4 & _).
  exists o, st', new. split; [ exact H1 | ]. split; [ exact H4 | ].
  vm_compute in H1. inversion H1; subst. simpl in H4. subst new. reflexivity.
Defined.

(** * Closing a dialer or a listener *)

Section EndpointClose.
Context `{NngLib}.

Lemma dialer_close_effect (d : Dialer) evs w tr s :
  quiescent w -> sockets w !! dialer_socket d = Some s ->
  exists o w' s',
    Dialer_close d evs (w, tr) = (o, (w', tr ++ [Nng_dialer_close (_dialer d)]))
    /\ sockets w' !! dialer_socket d = Some s'
    /\ quiescent w'
    /\ _listeners s' = _listeners s
    /\ (is_Some (_dialers s !! _dialer d) ->
        o = Ok tt /\ _dialers s' = delete (_dialer d) (_dialers s))
    /\ (_dialers s !! _dialer d = None -> o = Raise KeyError /\ _dialers s' = _dialers s).
Proof.
  intros Hq Hs. unfold Dialer_close, bind at 1, endpoint_native, modify. simpl.
  destruct (engine_calls_back_quiescent evs w Hq) as (w1 & H1 & Hf).
  assert (Hq1 : quiescent w1) by (eapply quiescent_frame; eauto).
  unfold bind at 1, in_world at 1. simpl. rewrite H1. simpl.
  destruct (frame_lookup _ _ _ s Hf Hs) as (s1 & Hs1 & Heq).
  destruct (same_but_pipes _ _ Heq) as (Hd & Hl & _).
  unfold bind, in_world, Socket_get, Socket_set, modify, raise; simpl. rewrite Hs1. simpl.
  rewrite Hd. destruct (_dialers s !! _dialer d) as [x | ] eqn:Hx; simpl.
  - do 3 eexists. split; [ reflexivity | ]. simpl.
    split; [ rewrite (alter_known _ _ _ _ Hs1); apply lookup_insert_eq | ].
    split; [ apply quiescent_alter; [ by intros [] | done ] | ].
    simpl. split; [ exact Hl | ].
    split; [ intros _; by rewrite Hd | by intros [=] ].
  - exists (Raise KeyError), w1, s1. split; [ reflexivity | ].
    split; [ exact Hs1 | ]. split; [ exact Hq1 | ]. split; [ exact Hl | ].
    split; [ by intros [? [=]] | done ].
Qed.

Lemma listener_close_effect (l : Listener) evs w tr s :
  quiescent w -> sockets w !! listener_socket l = Some s ->
  exists o w' s',
    Listener_close l evs (w, tr) = (o, (w', tr ++ [Nng_listener_close (_listener l)]))
    /\ sockets w' !! listener_socket l = Some s'
    /\ quiescent w'
    /\ _dialers s' = _dialers s
    /\ (is_Some (_listeners s !! _listener l) ->
        o = Ok tt /\ _listeners s' = delete (_listener l) (_listeners s))
    /\ (_listeners s !! _listener l = None -> o = Raise KeyError /\ _listeners s' = _listeners s).
Proof.
  intros Hq Hs. unfold Listener_close, bind at 1, endpoint_native, modify. simpl.
  destruct (engine_calls_back_quiescent evs w Hq) as (w1 & H1 & Hf).
  assert (Hq1 : quiescent w1) by (eapply quiescent_frame; eauto).
  unfold bind at 1, in_world at 1. simpl. rewrite H1. simpl.
  destruct (frame_lookup _ _ _ s Hf Hs) as (s1 & Hs1 & Heq).
  destruct (same_but_pipes _ _ Heq) as (Hd & Hl & _).
  unfold bind, in_world, Socket_get, Socket_set, modify, raise; simpl. rewrite Hs1. simpl.
  rewrite Hl. destruct (_listeners s !! _listener l) as [x | ] eqn:Hx; simpl.
  - do 3 eexists. split; [ reflexivity | ]. simpl.
    split; [ rewrite (alter_known _ _ _ _ Hs1); apply lookup_insert_eq | ].
    split; [ apply quiescent_alter; [ by intros [] | done ] | ].
    simpl. split; [ exact Hd | ].
    split; [ intros _; by rewrite Hl | by intros [=] ].
  - exists (Raise KeyError), w1, s1. split; [ reflexivity | ].
    split; [ exact Hs1 | ]. split; [ exact Hq1 | ]. split; [ exact Hd | ].
    split; [ by intros [? [=]] | done ].
Qed.

(** X15. [Dialer.close()] and [Listener.close()] call the engine first and
    then delete the endpoint from its socket's table.  For an endpoint that
    is in the table they return, and the table has lost exactly that entry;
    closing it a second time raises [KeyError].  For one that is not in the
    table, as after [Socket.close()] has emptied the tables, they raise
    [KeyError] too, the engine having been asked to close the endpoint all
    the same. *)
Theorem endpoint_close (d : Dialer) (l : Listener) evs w tr s :
  quiescent w -> sockets w !! dialer_socket d = Some s -> listener_socket l = dialer_socket d ->
  (exists o w' s',
     Dialer_close d evs (w, tr) = (o, (w', tr ++ [Nng_dialer_close (_dialer d)]))
     /\ sockets w' !! dialer_socket d = Some s'
     /\ _listeners s' = _listeners s
     /\ (is_Some (_dialers s !! _dialer d) ->
         o = Ok tt /\ _dialers s' = delete (_dialer d) (_dialers s)
         /\ exists w'',
              Dialer_close d [] (w', tr ++ [Nng_dialer_close (_dialer d)])
              = (Raise KeyError,
                 (w'', tr ++ [Nng_dialer_close (_dialer d); Nng_dialer_close (_dialer d)])))
     /\ (_dialers s !! _dialer d = None -> o = Raise KeyError /\ _dialers s' = _dialers s))
  /\ (exists o w' s',
     Listener_close l evs (w, tr) = (o, (w', tr ++ [Nng_listener_close (_listener l)]))
     /\ sockets w' !! dialer_socket d = Some s'
     /\ _dialers s' = _dialers s
     /\ (is_Some (_listeners s !! _listener l) ->
         o = Ok tt /\ _listeners s' = delete (_listener l) (_listeners s))
     /\ (_listeners s !! _listener l = None -> o = Raise KeyError /\ _listeners s' = _listeners s))
  /\ (forall h evs' w',
        _socket s = Some h -> Socket_close (dialer_socket d) evs' w = (Ok tt, w') ->
        exists w1 w2,
          Dialer_close d evs (w', tr) = (Raise KeyError, (w1, tr ++ [Nng_dialer_close (_dialer d)]))
          /\ Listener_close l evs (w', tr)
             = (Raise KeyError, (w2, tr ++ [Nng_listener_close (_listener l)]))).
Proof.
  intros Hq Hs Hsame. split; [ | split ].
  - destruct (dialer_close_effect d evs w tr s Hq Hs)
      as (o & w' & s' & H1 & H2 & Hq' & H3 & H4 & H5).
    exists o, w', s'. split; [ exact H1 | ]. split; [ exact H2 | ]. split; [ exact H3 | ].
    split; [ | exact H5 ].
    intros Hin. destruct (H4 Hin) as [-> Hd]. split; [ done | ]. split; [ done | ].
    destruct (dialer_close_effect d [] w' (tr ++ [Nng_dialer_close (_dialer d)]) s' Hq' H2)
      as (o2 & w2 & s2 & G1 & _ & _ & _ & _ & G5).
    destruct G5 as [-> _]; [ rewrite Hd; apply lookup_delete_eq | ].
    exists w2. by rewrite <- app_assoc in G1.
  - rewrite <- Hsame in Hs.
    destruct (listener_close_effect l evs w tr s Hq Hs)
      as (o & w' & s' & H1 & H2 & _ & H3 & H4 & H5).
    exists o, w', s'. rewrite <- Hsame. done.
  - intros h evs' w' Hh Hclose.
    destruct (close_effect (dialer_socket d) evs' w s h Hq Hs Hh)
      as (w'' & s' & nc & H1 & H2 & _ & _ & Hd & Hl & Hq').
    rewrite Hclose in H1. inversion H1; subst w''.
    destruct (dialer_close_effect d evs w' tr s' Hq' H2)
      as (o1 & w1 & s1 & G1 & _ & _ & _ & _ & G5).
    destruct G5 as [-> _]; [ by rewrite Hd | ].
    rewrite <- Hsame in H2.
    destruct (listener_close_effect l evs w' tr s' Hq' H2)
      as (o2 & w2 & s2 & K1 & _ & _ & _ & _ & K5).
    destruct K5 as [-> _]; [ by rewrite Hl | ].
    exists w1, w2. done.
Qed.

End EndpointClose.

Lemma endpoint_close_witness :
  (exists w' s',
     Dialer_close (H := nng_1) (mkDialer 3 100) [] (connected, [])
     = (Ok tt, (w', [Nng_dialer_close 3]))
     /\ sockets w' !! 100%Z = Some s'
     /\ _dialers s' = delete 3%Z {[ 3%Z := mkDialer 3 100 ]})
  /\ (exists w1,
        Dialer_close (H := nng_1) (mkDialer 3 100) []
          ((Socket_close (H := nng_1) 100 [] connected).2, [])
        = (Raise KeyError, (w1, [Nng_dialer_close 3]))).
Proof.
  destruct (endpoint_close (H := nng_1) (mkDialer 3 100) (mkListener 4 100) [] connected []
              (mkSocket {[ 3%Z := mkDialer 3 100 ]} {[ 4%Z := mkListener 4 100 ]}
                        {[ 5%Z := 0%nat ]} [] [failing_hook; quiet_hook]
                        [failing_hook; quiet_hook] false (Some 7%Z))
              (one_socket_quiescent _ _ _ _ _) eq_refl eq_refl) as (H1 & _ & H3).
  split.
  - destruct H1 as (o & w' & s' & G1 & G2 & _ & G4 & _).
    destruct G4 as (-> & G5 & _); [ by eexists | ].
    exists w', s'. split; [ exact G1 | ]. split; [ exact G2 | exact G5 ].
  - destruct (H3 7%Z [] (Socket_close (H := nng_1) 100 [] connected).2 eq_refl eq_refl)
      as (w1 & w2 & G1 & _).
    exists w1. exact G1.
Defined.

(** * Contexts: opened once, closed once *)

Section ContextFacts.
Context `{NngCtxLib}.

Ltac ctx_steps :=
  unfold Context_new, Context___init__, Context___del__, Context___exit__, Context__free,
    Context_context, Context_get, Context_set, ctx_native, check_err, bind, modify, ret, raise;
  simpl.

Lemma free_open self s h sid r :
  contexts s !! self = Some (mkContext (Some h) sid) -> nng_ctx_id h <> (-1)%Z ->
  Context__free self r s
  = (if (r =? 0)%Z then Ok tt else Raise (NNGException r),
     mkContexts (<[self := mkContext None sid]> (contexts s))
                (ctx_calls s ++ [Nng_ctx_close h r])).
Proof.
  intros Hc Hid. ctx_steps. rewrite Hc. simpl.
  destruct (Z.eqb_spec (nng_ctx_id h) (-1)); [ done | ]. simpl.
  rewrite (list_alter_known _ _ _ _ Hc). by destruct (r =? 0)%Z.
Qed.

Lemma free_released self s c r :
  contexts s !! self = Some c ->
  (_context c = None \/ exists h, _context c = Some h /\ nng_ctx_id h = (-1)%Z) ->
  Context__free self r s = (Ok tt, s).
Proof.
  intros Hc Hn. ctx_steps. rewrite Hc.
  destruct Hn as [-> | (h & -> & Hid)]; simpl; [ done | ]. by rewrite Hid.
Qed.

Lemma release_all_released self s c rs :
  contexts s !! self = Some c ->
  (_context c = None \/ exists h, _context c = Some h /\ nng_ctx_id h = (-1)%Z) ->
  release_all self rs s = s.
Proof.
  intros Hc Hn. induction rs as [ | r rs IH]; [ done | ].
  unfold release_all in *. simpl. by rewrite (free_released _ _ _ _ Hc Hn).
Qed.

(** X16. A context is closed at most once.  The first of [_free()],
    [__exit__] and [__del__] on a context that holds an engine context
    calls [nng_ctx_close] and forgets the handle before it looks at the
    result, so that it raises the engine's error if there is one, and every
    later release returns without a call into the engine, whether the close
    had succeeded or not.  On a context that holds nothing, or a struct
    that names no context, every release does nothing. *)
Theorem context_closed_once self s c :
  contexts s !! self = Some c ->
  (forall h, _context c = Some h -> nng_ctx_id h <> (-1)%Z ->
     (forall r,
        Context__free self r s
        = (if (r =? 0)%Z then Ok tt else Raise (NNGException r),
           mkContexts (<[self := mkContext None (context_socket c)]> (contexts s))
                      (ctx_calls s ++ [Nng_ctx_close h r])))
     /\ (forall r rs,
           release_all self (r :: rs) s
           = mkContexts (<[self := mkContext None (context_socket c)]> (contexts s))
                        (ctx_calls s ++ [Nng_ctx_close h r])))
  /\ ((_context c = None \/ exists h, _context c = Some h /\ nng_ctx_id h = (-1)%Z) ->
      forall rs, release_all self rs s = s).
Proof.
  intros Hc. split.
  - intros h Hh Hid. destruct c as [c0 sid]; simpl in *; subst c0.
    split; [ intros r; by apply free_open | ].
    intros r rs. unfold release_all. simpl. rewrite (free_open _ _ _ _ r Hc Hid). simpl.
    apply (release_all_released self _ (mkContext None sid)); [ | by left ].
    simpl. apply list_lookup_insert_eq. by eapply lookup_lt_Some.
  - intros Hn rs. by eapply release_all_released.
Qed.

Lemma context_list_middle (s : Contexts) (c : Context) :
  (contexts s ++ [c]) !! length (contexts s) = Some c.
Proof. by apply list_lookup_middle. Qed.

Lemma context_list_alter (s : Contexts) (f : Context -> Context) c :
  alter f (length (contexts s)) (contexts s ++ [c]) = contexts s ++ [f c].
Proof.
  rewrite (list_alter_known _ _ _ _ (context_list_middle s c)).
  rewrite insert_app_r_alt by lia. by rewrite Nat.sub_diag.
Qed.

Lemma context_new_refused s sid sock r_open opened :
  r_open <> 0%Z ->
  Context_new (Some (sid, sock)) r_open opened s
  = (Raise (NNGException r_open),
     mkContexts (contexts s ++ [mkContext (Some 0%Z) (Some sid)])
                (ctx_calls s ++ [Nng_ctx_open sock r_open])).
Proof.
  intros Hr. ctx_steps. rewrite !context_list_alter. simpl.
  destruct (Z.eqb_spec r_open 0) as [ | _]; [ done | ]. reflexivity.
Qed.

Lemma context_new_opened s sid sock opened :
  nng_ctx_id opened <> (-1)%Z ->
  Context_new (Some (sid, sock)) 0 opened s
  = (Ok (length (contexts s)),
     mkContexts (contexts s ++ [mkContext (Some opened) (Some sid)])
                (ctx_calls s ++ [Nng_ctx_open sock 0])).
Proof.
  intros Hid. ctx_steps. rewrite !context_list_alter. simpl.
  rewrite context_list_middle. simpl.
  by destruct (Z.eqb_spec (nng_ctx_id opened) (-1)).
Qed.

(** X17. [Context(socket)] refuses a value that is no [Socket] with
    [AssertionError] before any call into the engine; it raises the
    engine's error when [nng_ctx_open] fails; and when the open succeeds
    with a valid id it returns a context that holds the engine's context.
    In each case the object left behind is released correctly when it is
    collected: the failed ones without a call (for an engine whose zeroed
    struct names no context), the successful one with exactly one
    [nng_ctx_close] of the context that was opened. *)
Theorem context_new_paths s :
  (forall r_open opened r_close,
     Context_new None r_open opened s
     = (Raise AssertionError, mkContexts (contexts s ++ [mkContext None None]) (ctx_calls s))
     /\ Context___del__ (length (contexts s)) r_close
          (mkContexts (contexts s ++ [mkContext None None]) (ctx_calls s))
        = (Ok tt, mkContexts (contexts s ++ [mkContext None None]) (ctx_calls s)))
  /\ (forall sid sock r_open opened r_close,
        r_open <> 0%Z -> nng_ctx_id 0 = (-1)%Z ->
        Context_new (Some (sid, sock)) r_open opened s
        = (Raise (NNGException r_open),
           mkContexts (contexts s ++ [mkContext (Some 0%Z) (Some sid)])
                      (ctx_calls s ++ [Nng_ctx_open sock r_open]))
        /\ Context___del__ (length (contexts s)) r_close
             (mkContexts (contexts s ++ [mkContext (Some 0%Z) (Some sid)])
                         (ctx_calls s ++ [Nng_ctx_open sock r_open]))
           = (Ok tt, mkContexts (contexts s ++ [mkContext (Some 0%Z) (Some sid)])
                                (ctx_calls s ++ [Nng_ctx_open sock r_open])))
  /\ (forall sid sock opened r_close,
        nng_ctx_id opened <> (-1)%Z ->
        Context_new (Some (sid, sock)) 0 opened s
        = (Ok (length (contexts s)),
           mkContexts (contexts s ++ [mkContext (Some opened) (Some sid)])
                      (ctx_calls s ++ [Nng_ctx_open sock 0]))
        /\ ctx_calls (Context___del__ (length (contexts s)) r_close
                        (mkContexts (contexts s ++ [mkContext (Some opened) (Some sid)])
                                    (ctx_calls s ++ [Nng_ctx_open sock 0]))).2
           = ctx_calls s ++ [Nng_ctx_open sock 0; Nng_ctx_close opened r_close]).
Proof.
  split; [ | split ].
  - intros r_open opened r_close. split.
    + ctx_steps. by rewrite context_list_alter.
    + eapply free_released; [ apply context_list_middle | by left ].
  - intros sid sock r_open opened r_close Hr Hz. split.
    + by apply context_new_refused.
    + eapply free_released; [ apply context_list_middle | right; by exists 0%Z ].
  - intros sid sock opened r_close Hid. split.
    + by apply context_new_opened.
    + unfold Context___del__.
      rewrite (free_open _ _ opened (Some sid)); [ | apply context_list_middle | done ].
      simpl. by rewrite <- app_assoc.
Qed.

End ContextFacts.

Lemma context_closed_once_witness :
  release_all (H := nng_ctx_1) 0 [12; 0; 0]%Z
    (mkContexts [mkContext (Some 4%Z) (Some 100%Z)] [Nng_ctx_open 7 0])
  = mkContexts [mkContext None (Some 100%Z)] [Nng_ctx_open 7 0; Nng_ctx_close 4 12].
Proof.
  destruct (context_closed_once (H := nng_ctx_1) 0
              (mkContexts [mkContext (Some 4%Z) (Some 100%Z)] [Nng_ctx_open 7 0])
              (mkContext (Some 4%Z) (Some 100%Z)) eq_refl) as [H1 _].
  destruct (H1 4%Z eq_refl ltac:(discriminate)) as [_ H2].
  apply (H2 12%Z [0; 0]%Z).
Defined.

Lemma context_new_paths_witness :
  Context_new (H := nng_ctx_1) (Some (100%Z, 7%Z)) 0 4 (mkContexts [] [])
  = (Ok 0%nat, mkContexts [mkContext (Some 4%Z) (Some 100%Z)] [Nng_ctx_open 7 0])
  /\ Context_new (H := nng_ctx_1) (Some (100%Z, 7%Z)) 12 4 (mkContexts [] [])
     = (Raise (NNGException 12), mkContexts [mkContext (Some 0%Z) (Some 100%Z)] [Nng_ctx_open 7 12]).
Proof.
  destruct (context_new_paths (H := nng_ctx_1) (mkContexts [] [])) as (_ & H2 & H3).
  split.
  - apply (H3 100%Z 7%Z 4%Z 0%Z). discriminate.
  - apply (H2 100%Z 7%Z 12%Z 4%Z 0%Z); [ discriminate | reflexivity ].
Defined.

Section NewContexts.
Context `{NngCtxLib}.

Lemma free_open' self s c r :
  contexts s !! self = Some c -> holds_context c = true ->
  exists h,
    (Context__free self r s).2
    = mkContexts (<[self := mkContext None (context_socket c)]> (contexts s))
                 (ctx_calls s ++ [Nng_ctx_close h r]).
Proof.
  intros Hc Ho. destruct c as [[h | ] sid]; [ | done ]. unfold holds_context in Ho; simpl in Ho.
  exists h. rewrite (free_open self s h sid r Hc); [ done | ].
  intros Hid. by rewrite Hid in Ho.
Qed.

Lemma free_not_open self s c r :
  contexts s !! self = Some c -> holds_context c = false -> (Context__free self r s).2 = s.
Proof.
  intros Hc Ho. rewrite (free_released self s c r Hc); [ done | ].
  destruct c as [[h | ] sid]; [ right | by left ]. exists h. split; [ done | ].
  unfold holds_context in Ho; simpl in Ho. by destruct (Z.eqb_spec (nng_ctx_id h) (-1)).
Qed.

Lemma free_calls self s c r :
  contexts s !! self = Some c ->
  (Context__free self r s).2
  = mkContexts (<[self := mkContext (if holds_context c then None else _context c)
                                    (context_socket c)]> (contexts s))
               (ctx_calls s ++ close_call c r).
Proof.
  intros Hc. destruct (holds_context c) eqn:Ho.
  - destruct (free_open' self s c r Hc Ho) as [h Hfree]. rewrite Hfree.
    unfold close_call. unfold holds_context in Ho.
    destruct c as [[h' | ] sid]; simpl in *; [ | done ].
    destruct (Z.eqb_spec (nng_ctx_id h') (-1)); [ done | ].
    pose proof (free_open self s h' sid r Hc n) as Hf. rewrite Hf in Hfree. simpl in Hfree.
    by inversion Hfree.
  - rewrite (free_not_open self s c r Hc Ho).
    unfold close_call. unfold holds_context in Ho.
    destruct c as [[h' | ] sid]; simpl in *.
    + destruct (Z.eqb_spec (nng_ctx_id h') (-1)); [ | done ].
      rewrite app_nil_r, list_insert_id by done. by destruct s.
    + rewrite app_nil_r, list_insert_id by done. by destruct s.
Qed.

(* collecting the objects from [from] on closes what they hold, each once *)
Lemma collect_from_exact closes from s :
  ctx_calls (collect_from from closes s)
  = ctx_calls s ++ concat (zip_with close_call (drop from (contexts s)) closes).
Proof.
  revert from s. induction closes as [ | r closes IH]; intros from s; simpl.
  - destruct (drop from (contexts s)); simpl; by rewrite app_nil_r.
  - destruct (contexts s !! from) as [c | ] eqn:Hc.
    + rewrite (drop_S _ _ _ Hc). simpl. unfold Context___del__.
      rewrite IH, (free_calls from s c r Hc). simpl.
      rewrite drop_insert_lt by lia. by rewrite <- app_assoc.
    + assert (Hge : (length (contexts s) <= from)%nat) by (by apply lookup_ge_None).
      rewrite (drop_ge _ _ Hge). simpl. rewrite app_nil_r.
      assert (Hsame : (Context___del__ from r s).2 = s).
      { unfold Context___del__, Context__free, bind, Context_get. by rewrite Hc. }
      rewrite Hsame, IH. rewrite drop_ge by lia. simpl. by rewrite app_nil_r.
Qed.

Lemma new_contexts_cons sid sock r_open opened rest s :
  Socket_new_contexts sid sock ((r_open, opened) :: rest) s
  = match Context_new (Some (sid, sock)) r_open opened s with
    | (Ok c, s') =>
        match Socket_new_contexts sid sock rest s' with
        | (Ok cs, s'') => (Ok (c :: cs), s'')
        | (Raise e, s'') => (Raise e, s'')
        | (Hang, s'') => (Hang, s'')
        end
    | (Raise e, s') => (Raise e, s')
    | (Hang, s') => (Hang, s')
    end.
Proof.
  simpl. unfold bind, Socket_new_context, ret.
  destruct (Context_new (Some (sid, sock)) r_open opened s) as [[c | e | ] s']; try done.
Qed.

(* what [new_contexts] creates, and the opens it makes for it *)
Lemma new_contexts_creates_exact sid sock answers s :
  nng_ctx_id 0 = (-1)%Z ->
  Forall (fun a : Z * Z => a.1 = 0%Z -> nng_ctx_id a.2 <> (-1)%Z) answers ->
  exists k,
    (k <= length answers)%nat
    /\ contexts (Socket_new_contexts sid sock answers s).2
       = contexts s ++ map (fun a : Z * Z => mkContext (Some (if (a.1 =? 0)%Z then a.2 else 0%Z))
                                                       (Some sid)) (take k answers)
    /\ ctx_calls (Socket_new_contexts sid sock answers s).2
       = ctx_calls s ++ map (fun a : Z * Z => Nng_ctx_open sock a.1) (take k answers)
    /\ match (Socket_new_contexts sid sock answers s).1 with
       | Ok refs => refs = seq (length (contexts s)) (length answers) /\ k = length answers
                    /\ Forall (fun a : Z * Z => a.1 = 0%Z) answers
       | Raise e => exists a, answers !! (k - 1)%nat = Some a /\ a.1 <> 0%Z
                              /\ e = NNGException a.1 /\ (1 <= k)%nat
                              /\ Forall (fun a : Z * Z => a.1 = 0%Z) (take (k - 1) answers)
       | Hang => False
       end.
Proof.
  intros Hz Hall. revert s. induction Hall as [ | [r_open opened] answers Ha Hall IH]; intros s.
  - exists 0%nat. simpl. rewrite !app_nil_r. done.
  - simpl in Ha. rewrite new_contexts_cons.
    destruct (Z.eq_dec r_open 0%Z) as [-> | Hr].
    + rewrite (context_new_opened s sid sock opened (Ha eq_refl)).
      set (s1 := mkContexts _ _).
      destruct (IH s1) as (k & H1 & H2 & H3 & H4).
      destruct (Socket_new_contexts sid sock answers s1) as [o s2]; simpl in *.
      exists (S k). split; [ lia | ].
      destruct o as [refs | e | ]; simpl; [ | | done ].
      all: split; [ by rewrite H2, <- app_assoc | ].
      all: split; [ by rewrite H3, <- app_assoc | ].
      * destruct H4 as (-> & -> & Hok).
        repeat split; try done; [ | by constructor ].
        rewrite length_app. simpl. f_equal. f_equal. lia.
      * destruct H4 as (a & Ha1 & Ha2 & -> & Hk & Hpre).
        exists a. replace (k - 0)%nat with (S (k - 1)) by lia. simpl.
        repeat split; try done; [ lia | by constructor ].
    + rewrite (context_new_refused s sid sock r_open opened Hr). simpl.
      exists 1%nat. simpl. rewrite ?take_0. simpl.
      destruct (Z.eqb_spec r_open 0) as [ | _]; [ done | ].
      split; [ lia | ]. split; [ done | ]. split; [ done | ].
      exists (r_open, opened). repeat split; try done.
Qed.

Lemma closes_due sid (l : list (Z * Z)) closes :
  nng_ctx_id 0 = (-1)%Z ->
  Forall (fun a : Z * Z => a.1 = 0%Z -> nng_ctx_id a.2 <> (-1)%Z) l ->
  zip_with close_call
    (map (fun a : Z * Z => mkContext (Some (if (a.1 =? 0)%Z then a.2 else 0%Z)) (Some sid)) l)
    closes
  = zip_with (fun (a : Z * Z) r => if (a.1 =? 0)%Z then [Nng_ctx_close a.2 r] else []) l closes.
Proof.
  intros Hz Hall. revert closes. induction Hall as [ | a l Ha Hall IH]; intros closes; [ done | ].
  destruct closes as [ | r closes]; [ done | ]. simpl. rewrite IH. f_equal.
  unfold close_call; simpl.
  destruct (Z.eqb_spec a.1 0) as [Hz0 | Hnz].
  - destruct (Z.eqb_spec (nng_ctx_id a.2) (-1)) as [Hid | _]; [ by destruct (Ha Hz0) | done ].
  - by rewrite Hz.
Qed.

(** X18. [Socket.new_contexts(n)] opens the contexts one after the other
    and stops at the first [nng_ctx_open] that fails, raising its error;
    when all succeed it returns [n] new contexts.  Either way no context of
    the engine is lost or closed twice: once the objects it created are
    collected, the engine calls are the opens followed by one
    [nng_ctx_close] for each open that succeeded, of the context that this
    open had handed out, in the order of the opens, and none for the open
    that failed (the engine handing out valid ids and its zeroed struct
    naming none). *)
Theorem new_contexts_closes_what_it_opened sid sock answers s closes :
  nng_ctx_id 0 = (-1)%Z ->
  Forall (fun a : Z * Z => a.1 = 0%Z -> nng_ctx_id a.2 <> (-1)%Z) answers ->
  length closes
  = (length (contexts (Socket_new_contexts sid sock answers s).2) - length (contexts s))%nat ->
  exists k,
    (k <= length answers)%nat /\ length closes = k
    /\ ctx_calls (Socket_new_contexts sid sock answers s).2
       = ctx_calls s ++ map (fun a : Z * Z => Nng_ctx_open sock a.1) (take k answers)
    /\ ctx_calls (collect_from (length (contexts s)) closes
                    (Socket_new_contexts sid sock answers s).2)
       = ctx_calls s ++ map (fun a : Z * Z => Nng_ctx_open sock a.1) (take k answers)
         ++ concat (zip_with (fun (a : Z * Z) r =>
                                if (a.1 =? 0)%Z then [Nng_ctx_close a.2 r] else [])
                             (take k answers) closes)
    /\ match (Socket_new_contexts sid sock answers s).1 with
       | Ok refs => refs = seq (length (contexts s)) (length answers) /\ k = length answers
       | Raise e => exists a, answers !! (k - 1)%nat = Some a /\ a.1 <> 0%Z
                              /\ e = NNGException a.1
                              /\ Forall (fun a : Z * Z => a.1 = 0%Z) (take (k - 1) answers)
       | Hang => False
       end.
Proof.
  intros Hz Hall Hlen.
  destruct (new_contexts_creates_exact sid sock answers s Hz Hall) as (k & H1 & H2 & H3 & H4).
  exists k. split; [ done | ].
  split. { rewrite Hlen, H2, length_app, length_map, length_take. lia. }
  split; [ exact H3 | ].
  split.
  { rewrite collect_from_exact, H3, H2, drop_app_length, <- app_assoc. f_equal. f_equal. f_equal.
    apply closes_due; [ done | ]. by apply Forall_take. }
  destruct ((Socket_new_contexts sid sock answers s).1) as [refs | e | ]; [ | | done ].
  - by destruct H4 as (-> & -> & _).
  - destruct H4 as (a & Ha1 & Ha2 & -> & _ & Hpre). by exists a.
Qed.

End NewContexts.

Lemma new_contexts_closes_what_it_opened_witness :
  ctx_calls (collect_from (H := nng_ctx_1) 0 [0; 0; 0]%Z
               (Socket_new_contexts (H := nng_ctx_1) 100 7 [(0, 4); (0, 5); (12, 0); (0, 6)]%Z
                  (mkContexts [] [])).2)
  = [Nng_ctx_open 7 0; Nng_ctx_open 7 0; Nng_ctx_open 7 12; Nng_ctx_close 4 0; Nng_ctx_close 5 0].
Proof.
  destruct (new_contexts_closes_what_it_opened (H := nng_ctx_1) 100 7
              [(0, 4); (0, 5); (12, 0); (0, 6)]%Z (mkContexts [] []) [0; 0; 0]%Z
              eq_refl) as (k & H1 & H2 & H3 & H4 & _).
  { repeat constructor; simpl; intros; discriminate. }
  { reflexivity. }
  simpl in H2. subst k. exact H4.
Defined.

(** * Buffers: who frees what *)

Section Buffers.
Context `{NngLib}.

Ltac new_steps :=
  unfold Context_send, Pipe_send, _ensure_can_send, Message___init__, Message___del___of_new,
    on_message, buffer_native, assign_nng_msg, blank_message; simpl;
  unfold Context_send_msg, Socket_send_msg, Message_pipe_setter, Message___del__,
    with_mem_freed_lock, with_lock, try_finally, bind, Message__ensure_can_send, msg_native,
    check_err, gets, modify, ret, raise; simpl.

Ltac by_code rv :=
  let E := fresh "E" in
  destruct (Z.eqb_spec rv 0) as [E | E]; [ try subst rv | ]; simpl; try done.

(** X19. [Message(data, pipe)] made from bytes: when [nng_msg_alloc] fails
    nothing was allocated; when [nng_msg_append] fails, the constructor
    raises with the buffer allocated and [_nng_msg] not yet assigned, so
    that the collection of the object ends in [AttributeError] and the
    buffer is never freed; when the pipe is no [Pipe], or the engine rejects
    it, the constructor raises with [_nng_msg] assigned, and the collection
    of the object frees the buffer; and when all is accepted, the message
    holds the buffer, unsent and unlocked, with the pipe it was given. *)
Theorem message_init_paths bytes pipe r_alloc allocated r_append r_set calls bufs :
  (r_alloc <> 0%Z ->
     Message___init__ (FromBytes bytes) pipe r_alloc allocated r_append r_set
       (blank_message calls bufs)
     = (Raise (NNGException r_alloc),
        mkNewMessage (mkMsgSt (mkMessage false false 0 None) calls) false
                     (bufs ++ [Nng_msg_alloc r_alloc]) []))
  /\ (r_alloc = 0%Z -> r_append <> 0%Z ->
      exists n,
        Message___init__ (FromBytes bytes) pipe r_alloc allocated r_append r_set
          (blank_message calls bufs) = (Raise (NNGException r_append), n)
        /\ has_nng_msg n = false
        /\ buffer_calls n
           = bufs ++ [Nng_msg_alloc 0; Nng_msg_append allocated (length bytes) r_append]
        /\ Message___del___of_new n = (Raise AttributeError, n)
        /\ msg_calls (message n) = calls)
  /\ (r_alloc = 0%Z -> r_append = 0%Z ->
      exists o n,
        Message___init__ (FromBytes bytes) pipe r_alloc allocated r_append r_set
          (blank_message calls bufs) = (o, n)
        /\ has_nng_msg n = true
        /\ _nng_msg (msg (message n)) = allocated
        /\ _mem_freed (msg (message n)) = false /\ _mem_freed_lock (msg (message n)) = false
        /\ buffer_calls n
           = bufs ++ [Nng_msg_alloc 0; Nng_msg_append allocated (length bytes) 0]
        /\ (pipe = PyNone -> o = Ok tt /\ _pipe (msg (message n)) = None
                             /\ msg_calls (message n) = calls)
        /\ (forall r, pipe = PyPipe r -> r_set = 0%Z ->
              o = Ok tt /\ _pipe (msg (message n)) = Some r
              /\ msg_calls (message n) = calls ++ [Nng_msg_set_pipe allocated 0])
        /\ (forall r, pipe = PyPipe r -> r_set <> 0%Z -> o = Raise (NNGException r_set))
        /\ (pipe <> PyNone -> isinstance_Pipe pipe = false -> o = Raise ValueError)
        /\ exists n',
             Message___del___of_new n = (Ok tt, n')
             /\ msg_calls (message n') = msg_calls (message n) ++ [Nng_msg_free allocated]).
Proof.
  split; [ | split ].
  - intros Hr. new_steps. by_code r_alloc.
  - intros -> Hr. new_steps. by_code r_append.
    eexists. split; [ reflexivity | ]. simpl. repeat split. by rewrite <- app_assoc.
  - intros -> ->. new_steps.
    destruct pipe as [ | b | n | s | b | r ]; new_steps.
    2-5: do 2 eexists; (split; [ reflexivity | ]); simpl;
         rewrite <- app_assoc; simpl;
         repeat split; try done; eexists; split; reflexivity.
    + do 2 eexists. split; [ reflexivity | ]. simpl. rewrite <- app_assoc; simpl.
      repeat split; try done. eexists; split; reflexivity.
    + by_code r_set.
      * do 2 eexists. split; [ reflexivity | ]. simpl. rewrite <- app_assoc; simpl.
        repeat split; try done.
        -- congruence.
        -- eexists; split; reflexivity.
      * do 2 eexists. split; [ reflexivity | ]. simpl. rewrite <- app_assoc; simpl.
        repeat split; try done. eexists; split; reflexivity.
Qed.

Lemma frees_app a b : frees (a ++ b) = (frees a + frees b)%nat.
Proof. unfold frees. by rewrite filter_app, length_app. Qed.

(** X20. [Context.send(data)] and [Pipe.send(data)] refuse a [str] with
    [ValueError] before anything is allocated.  For [bytes] they build a
    temporary message, which is collected when the method is left.  With the
    buffer allocated and filled, [Pipe.send] ends with one [nng_msg_free] of
    the buffer exactly when the engine did not accept the send, so that the
    buffer leaves Python once, by the send or by the free.  [Context.send]
    ends with one [nng_msg_free] exactly when one of the checked calls up
    to and including [nng_ctx_send] answered an error code; once the send is
    issued the buffer is never freed by Python, also when the wait or the
    result reports that the send failed. *)
Theorem temporary_message_freed_unless_sent data calls bufs :
  (forall s, data = Text s ->
     (forall ctx a1 a2 a3 r0 r1 r2 r3 r4,
        Context_send data ctx a1 a2 a3 r0 r1 r2 r3 r4 (blank_message calls bufs)
        = (Raise ValueError, blank_message calls bufs))
     /\ (forall self sock a1 a2 a3 r1 r2,
           Pipe_send data self sock a1 a2 a3 r1 r2 (blank_message calls bufs)
           = (Raise ValueError, blank_message calls bufs)))
  /\ (forall b, data = Bytes b ->
     (forall ctx allocated r0 r1 r2 r3 r4,
        let issued := ((r0 =? 0) && (r1 =? 0) && (r2 =? 0))%Z in
        exists o n n',
          Context_send data ctx 0 allocated 0 r0 r1 r2 r3 r4 (blank_message calls bufs) = (o, n)
          /\ o <> Hang
          /\ Message___del___of_new n = (Ok tt, n')
          /\ buffer_calls n'
             = bufs ++ [Nng_msg_alloc 0; Nng_msg_append allocated (length b) 0]
          /\ msg_calls (message n')
             = msg_calls (message n) ++ (if issued then [] else [Nng_msg_free allocated])
          /\ frees (msg_calls (message n')) = (frees calls + (if issued then 0 else 1))%nat
          /\ (issued = true ->
              Nng_ctx_send ctx 0 ∈ msg_calls (message n)
              /\ (r3 = 0%Z -> r4 = 0%Z -> o = Ok tt)
              /\ (r3 <> 0%Z -> o = Raise (NNGException r3))
              /\ (r3 = 0%Z -> r4 <> 0%Z -> o = Raise (NNGException r4)))
          /\ (issued = false -> exists e, o = Raise e))
     /\ (forall self sock allocated r_set r_send,
           let accepted := ((r_set =? 0) && (r_send =? 0))%Z in
           exists o n n',
             Pipe_send data self sock 0 allocated 0 r_set r_send (blank_message calls bufs)
             = (o, n)
             /\ o <> Hang
             /\ Message___del___of_new n = (Ok tt, n')
             /\ buffer_calls n'
                = bufs ++ [Nng_msg_alloc 0; Nng_msg_append allocated (length b) 0]
             /\ msg_calls (message n')
                = msg_calls (message n) ++ (if accepted then [] else [Nng_msg_free allocated])
             /\ frees (msg_calls (message n')) = (frees calls + (if accepted then 0 else 1))%nat
             /\ (accepted = true ->
                 o = Ok tt
                 /\ msg_calls (message n)
                    = calls ++ [Nng_msg_set_pipe allocated 0; Nng_sendmsg sock allocated 0 0])
             /\ (accepted = false -> exists e, o = Raise e))).
Proof.
  split.
  - intros s ->. split; intros; reflexivity.
  - intros b ->. split.
    + intros ctx allocated r0 r1 r2 r3 r4. new_steps.
      by_code r0; [ by_code r1; [ by_code r2; [ by_code r3; [ by_code r4 | ] | ] | ] | ].
      all: do 3 eexists; (split; [ reflexivity | ]); simpl.
      all: split; [ done | ]; split; [ reflexivity | ]; simpl.
      all: rewrite <- ?(app_assoc bufs); simpl; split; [ reflexivity | ].
      all: rewrite <- ?(app_assoc calls); simpl.
      all: split; [ rewrite ?app_nil_r; reflexivity | ].
      all: split; [ rewrite frees_app; simpl; reflexivity | ].
      all: split; [ try (intros; discriminate) | try (intros; discriminate); try (intros _; eauto) ].
      all: intros _; split; [ | repeat split; intros; congruence ].
      all: apply elem_of_app; right; apply list_elem_of_In; simpl; tauto.
    + intros self sock allocated r_set r_send. new_steps.
      by_code r_set; [ by_code r_send | ].
      all: do 3 eexists; (split; [ reflexivity | ]); simpl.
      all: split; [ done | ]; split; [ reflexivity | ]; simpl.
      all: rewrite <- ?(app_assoc bufs); simpl; split; [ reflexivity | ].
      all: rewrite <- ?(app_assoc calls); simpl.
      all: split; [ rewrite ?app_nil_r; reflexivity | ].
      all: split; [ rewrite frees_app; simpl; reflexivity | ].
      all: split; [ try (intros; discriminate) | try (intros; discriminate); try (intros _; eauto) ].
      all: intros _; split; reflexivity.
Qed.

Ltac recv_steps :=
  unfold Context_recv, Context_recv_msg, Socket_recv_msg, Socket__try_associate_msg_with_pipe,
    Message___init__, logger_warning, on_message, buffer_native, assign_nng_msg, blank_message,
    Message_bytes, Message__buffer;
  simpl;
  unfold Message_pipe_setter, with_mem_freed_lock, with_lock, try_finally, try_except, bind,
    msg_native, check_err, gets, modify, ret, raise; simpl.

(** X21. [Socket.recv_msg] raises the engine's error when there is nothing
    to return, and otherwise returns a message that holds what the engine
    handed out, unsent.  The message is associated with the [Pipe] that the
    socket's table has under the id of the message's pipe; when the table
    has none, as after the pipe's post-remove event, the message is returned
    without a pipe, and a warning is logged exactly when the id is not
    negative.  When the engine rejects the association, the error goes to
    the caller and the message is not returned. *)
Theorem received_message_pipe table sock block received lib_pipe calls bufs :
  (forall r_recv r_set, r_recv <> 0%Z ->
     Socket_recv_msg table sock block r_recv received lib_pipe r_set (blank_message calls bufs)
     = (Raise (NNGException r_recv),
        mkNewMessage (mkMsgSt (mkMessage false false 0 None) calls) false
          (bufs ++ [Nng_recvmsg sock (if block then 0%Z else Z.lor 0 NNG_FLAG_NONBLOCK) r_recv])
          []))
  /\ (forall p r_set, table !! nng_pipe_id lib_pipe = Some p ->
        Socket_recv_msg table sock block 0 received lib_pipe r_set (blank_message calls bufs)
        = (if (r_set =? 0)%Z then Ok tt else Raise (NNGException r_set),
           mkNewMessage
             (mkMsgSt (mkMessage false false received (if (r_set =? 0)%Z then Some p else None))
                      (calls ++ [Nng_msg_set_pipe received r_set]))
             true
             (bufs ++ [Nng_recvmsg sock (if block then 0%Z else Z.lor 0 NNG_FLAG_NONBLOCK) 0])
             []))
  /\ (forall T r_set,
        table = delete (nng_pipe_id lib_pipe) T \/ table !! nng_pipe_id lib_pipe = None ->
        Socket_recv_msg table sock block 0 received lib_pipe r_set (blank_message calls bufs)
        = (Ok tt,
           mkNewMessage (mkMsgSt (mkMessage false false received None) calls) true
             (bufs ++ [Nng_recvmsg sock (if block then 0%Z else Z.lor 0 NNG_FLAG_NONBLOCK) 0])
             (if (0 <=? nng_pipe_id lib_pipe)%Z then [nng_pipe_id lib_pipe] else []))).
Proof.
  split; [ | split ].
  - intros r_recv r_set Hr. recv_steps. by_code r_recv. by destruct block.
  - intros p r_set Hp. recv_steps. rewrite Hp. simpl.
    destruct block; by_code r_set.
  - intros T r_set HT.
    assert (Hnone : table !! nng_pipe_id lib_pipe = None).
    { destruct HT as [-> | HT]; [ apply lookup_delete_eq | done ]. }
    recv_steps. rewrite Hnone. simpl.
    destruct block; by destruct (0 <=? nng_pipe_id lib_pipe)%Z.
Qed.

(** X22. [Context.recv_msg] never leaks its aio and never frees one it has
    not got: apart from the one failed [nng_aio_alloc], its aio calls start
    with the successful [nng_aio_alloc] and end with the one [nng_aio_free],
    also when the receive, the wait, the result or the association with the
    pipe fails.  When everything succeeds the message is returned with its
    pipe, and [Context.recv] returns its bytes. *)
Theorem Context_recv_msg_frees_aio table ctx r_alloc r_recv r_wait r_result received lib_pipe
    r_set calls bufs :
  exists o n new,
    Context_recv_msg table ctx r_alloc r_recv r_wait r_result received lib_pipe r_set
      (blank_message calls bufs) = (o, n)
    /\ o <> Hang
    /\ msg_calls (message n) = calls ++ new
    /\ ((new = [Nng_aio_alloc r_alloc] /\ r_alloc <> 0%Z /\ o = Raise (NNGException r_alloc))
        \/ (exists mid, new = Nng_aio_alloc 0 :: mid ++ [Nng_aio_free]
                        /\ r_alloc = 0%Z
                        /\ Forall (fun c => allocates_or_frees_aio c = false) mid))
    /\ (forall p body,
          r_alloc = 0%Z -> r_recv = 0%Z -> r_wait = 0%Z -> r_result = 0%Z -> r_set = 0%Z ->
          table !! nng_pipe_id lib_pipe = Some p ->
          o = Ok tt /\ _nng_msg (msg (message n)) = received
          /\ _pipe (msg (message n)) = Some p
          /\ (Context_recv table ctx r_alloc r_recv r_wait r_result received lib_pipe r_set body
                (blank_message calls bufs)).1 = Ok body).
Proof.
  recv_steps. by_code r_alloc.
  2: { do 3 eexists. split; [ reflexivity | ]. simpl. split; [ done | ].
       split; [ reflexivity | ]. split; [ by left | ]. intros; congruence. }
  by_code r_recv; [ by_code r_wait; [ by_code r_result | ] | ].
  2-4: do 3 eexists; (split; [ reflexivity | ]); simpl; (split; [ done | ]);
       rewrite <- ?app_assoc; simpl; (split; [ reflexivity | ]);
       (split; [ | intros; congruence ]); right.
  2: exists [Nng_aio_wait 0; Nng_aio_result r_result]; repeat split; try done; repeat constructor.
  2: exists [Nng_aio_wait r_wait]; repeat split; try done; repeat constructor.
  2: exists []; repeat split; try done.
  destruct (table !! nng_pipe_id lib_pipe) as [p | ] eqn:Hp; simpl.
  - by_code r_set.
    + do 3 eexists. split; [ reflexivity | ]. simpl. split; [ done | ].
      rewrite <- ?app_assoc; simpl. split; [ reflexivity | ].
      split.
      { right. exists [Nng_aio_wait 0; Nng_aio_result 0; Nng_msg_set_pipe received 0].
        repeat split; try done. repeat constructor. }
      intros p' body _ _ _ _ _ [= <-]. split; [ done | ]. split; [ done | ].
      split; [ done | ]. reflexivity.
    + do 3 eexists. split; [ reflexivity | ]. simpl. split; [ done | ].
      rewrite <- ?app_assoc; simpl. split; [ reflexivity | ].
      split; [ | intros; congruence ].
      right. exists [Nng_aio_wait 0; Nng_aio_result 0; Nng_msg_set_pipe received r_set].
      repeat split; try done. repeat constructor.
  - destruct (0 <=? nng_pipe_id lib_pipe)%Z; simpl.
    all: do 3 eexists; (split; [ reflexivity | ]); simpl; (split; [ done | ]).
    all: rewrite <- ?app_assoc; simpl; (split; [ reflexivity | ]).
    all: split; [ | intros; congruence ].
    all: right; exists [Nng_aio_wait 0; Nng_aio_result 0]; repeat split; try done.
    all: repeat constructor.
Qed.

End Buffers.

Lemma message_init_paths_witness :
  exists n,
    Message___init__ (FromBytes [104; 105]%Z) PyNone 0 9 12 0 (blank_message [] [])
    = (Raise (NNGException 12), n)
    /\ buffer_calls n = [] ++ [Nng_msg_alloc 0; Nng_msg_append 9 2 12]
    /\ Message___del___of_new n = (Raise AttributeError, n).
Proof.
  destruct (message_init_paths [104; 105]%Z PyNone 0 9 12 0 [] []) as (_ & H2 & _).
  destruct (H2 eq_refl ltac:(discriminate)) as (n & G1 & _ & G3 & G4 & _).
  exists n. split; [ exact G1 | ]. split; [ exact G3 | exact G4 ].
Defined.

Lemma temporary_message_freed_unless_sent_witness :
  exists o n n',
    Context_send (Bytes [104; 105]%Z) 2 0 9 0 0 0 0 0 5 (blank_message [] []) = (o, n)
    /\ Message___del___of_new n = (Ok tt, n')
    /\ o = Raise (NNGException 5)
    /\ frees (msg_calls (message n')) = 0%nat.
Proof.
  destruct (temporary_message_freed_unless_sent (H := nng_1) (Bytes [104; 105]%Z) [] []) as [_ H2].
  destruct (H2 [104; 105]%Z eq_refl) as [H3 _].
  destruct (H3 2%Z 9%Z 0%Z 0%Z 0%Z 0%Z 5%Z) as (o & n & n' & G1 & _ & G3 & _ & _ & G6 & G7 & _).
  destruct (G7 eq_refl) as (_ & _ & _ & G8).
  exists o, n, n'. split; [ exact G1 | ]. split; [ exact G3 | ].
  split; [ apply G8; [ reflexivity | discriminate ] | exact G6 ].
Defined.

Lemma received_message_pipe_witness :
  Socket_recv_msg (H := nng_1) (delete 5%Z {[ 5%Z := 0%nat ]}) 7 true 0 9 5 0 (blank_message [] [])
  = (Ok tt,
     mkNewMessage (mkMsgSt (mkMessage false false 9 None) []) true ([] ++ [Nng_recvmsg 7 0 0])
                  [5%Z]).
Proof.
  destruct (received_message_pipe (H := nng_1) (delete 5%Z {[ 5%Z := 0%nat ]}) 7 true 9 5 [] [])
    as (_ & _ & H3).
  apply (H3 {[ 5%Z := 0%nat ]} 0%Z). left. reflexivity.
Defined.

Lemma Context_recv_msg_frees_aio_witness :
  (Context_recv (H := nng_1) {[ 5%Z := 0%nat ]} 2 0 0 0 0 9 5 0 [104; 105]%Z
     (blank_message [] [])).1 = Ok [104; 105]%Z.
Proof.
  destruct (Context_recv_msg_frees_aio (H := nng_1) {[ 5%Z := 0%nat ]} 2 0 0 0 0 9 5 0 [] [])
    as (o & n & new & _ & _ & _ & _ & H5).
  apply (H5 0%nat [104; 105]%Z); reflexivity.
Defined.
